(** * notion-to-obsidian: the wikilink enrichment pass

    A shallow embedding of [enriquecer_conexiones.py]: the tokenizer
    ([normalize_word], [extract_words]), the frequency analyzer
    ([find_frequent_words]), the annotator ([add_wikilinks_to_text]), the
    per-file driver ([process_markdown_file]) and the run over a folder
    ([main]), followed by the properties of the specification that concern
    them and by further properties of the code.

    Text model.  A Python [str] is a sequence of code points.  Here a
    character is a code point of the range U+0000..U+00FF held in an
    [ascii] (its numeric value is the code point), and a text is a
    [list ascii].  The classification tables below are those of Python 3
    ([str.isalpha], [str.lower], [str.strip] and the [\w] class of [re])
    on that range, which covers the Spanish and English notes the script
    is written for. *)

From Stdlib Require Import Ascii String.
From Stdlib Require Import List Arith Bool Lia PeanoNat.
From Stdlib Require Import Sorting.Sorted.
From Equations Require Import Equations.
Import ListNotations.

(** ** Characters and texts *)

Definition text := list ascii.

(** Literal texts are written [txt "..."]; only characters below U+0080
    are written that way. *)
Definition txt (s : string) : text := list_ascii_of_string s.

Definition code (c : ascii) : nat := nat_of_ascii c.

Definition in_range (lo hi : nat) (c : ascii) : bool :=
  (lo <=? code c) && (code c <=? hi).

Definition is_code (n : nat) (c : ascii) : bool := code c =? n.

(** Characters that [str.lower] changes: A-Z, and the Latin-1 capitals
    U+00C0..U+00DE without the multiplication sign U+00D7. *)
Definition char_isupper (c : ascii) : bool :=
  in_range 65 90 c || in_range 192 214 c || in_range 216 222 c.

Definition char_lower (c : ascii) : ascii :=
  if char_isupper c then ascii_of_nat (code c + 32) else c.

(** [str.isalpha] on one character. *)
Definition char_isalpha (c : ascii) : bool :=
  in_range 65 90 c || in_range 97 122 c
  || is_code 170 c || is_code 181 c || is_code 186 c
  || in_range 192 214 c || in_range 216 246 c || in_range 248 255 c.

(** The class [\w] of [re] on a [str] pattern: alphanumerics (which
    include the superscripts and vulgar fractions of Latin-1) and the
    underscore. *)
Definition char_isword (c : ascii) : bool :=
  char_isalpha c || in_range 48 57 c || is_code 95 c
  || is_code 178 c || is_code 179 c || is_code 185 c || in_range 188 190 c.

(** The characters [str.strip()] removes. *)
Definition char_isspace (c : ascii) : bool :=
  in_range 9 13 c || in_range 28 32 c || is_code 133 c || is_code 160 c.

Definition ascii_eqb (a b : ascii) : bool := Ascii.eqb a b.

Fixpoint text_eqb (a b : text) : bool :=
  match a, b with
  | [], [] => true
  | x :: a', y :: b' => ascii_eqb x y && text_eqb a' b'
  | _, _ => false
  end.

(** [s.startswith(p)]. *)
Fixpoint starts_with (p s : text) : bool :=
  match p, s with
  | [], _ => true
  | x :: p', y :: s' => ascii_eqb x y && starts_with p' s'
  | _ :: _, [] => false
  end.

(** [p in s] for texts. *)
Fixpoint contains (p s : text) : bool :=
  starts_with p s ||
  match s with
  | [] => false
  | _ :: s' => contains p s'
  end.

(** The slice [s[i:j]] for [0 <= i], [0 <= j]. *)
Definition slice (s : text) (i j : nat) : text := firstn (j - i) (skipn i s).

Definition str_lower (s : text) : text := map char_lower s.

Fixpoint lstrip (s : text) : text :=
  match s with
  | c :: s' => if char_isspace c then lstrip s' else s
  | [] => []
  end.

Definition str_strip (s : text) : text := rev (lstrip (rev (lstrip s))).

Definition str_isalpha (s : text) : bool :=
  match s with
  | [] => false
  | _ => forallb char_isalpha s
  end.

(** ** Configuration *)

Definition MIN_WORD_LENGTH : nat := 4.
Definition MIN_FREQUENCY : nat := 2.
Definition TOP_N_WORDS : nat := 20.

Definition a_acute : ascii := ascii_of_nat 225.
Definition e_acute : ascii := ascii_of_nat 233.
Definition i_acute : ascii := ascii_of_nat 237.
Definition n_tilde : ascii := ascii_of_nat 241.

Definition STOPWORDS : list text :=
  map txt
    [ "con"; "para"; "por"; "que"; "del"; "los"; "las"; "una"; "uno";
      "este"; "esta"; "estos"; "estas"; "como" ]%string
  ++ [ txt "m" ++ [a_acute] ++ txt "s" ]
  ++ map txt [ "muy" ]%string
  ++ [ txt "tambi" ++ [e_acute] ++ txt "n" ]
  ++ map txt
    [ "pero"; "sin"; "sobre"; "entre"; "hasta"; "desde"; "hacia";
      "durante"; "mediante"; "puede"; "pueden"; "ser"; "son"; "tiene";
      "tienen"; "hacer"; "hace"; "hacen"; "decir"; "dice"; "ver"; "vez" ]%string
  ++ [ txt "a" ++ [n_tilde] ++ txt "o"; txt "a" ++ [n_tilde] ++ txt "os";
       txt "d" ++ [i_acute] ++ txt "a"; txt "d" ++ [i_acute] ++ txt "as" ]
  ++ map txt
    [ "caso"; "casos"; "parte"; "partes"; "forma"; "formas"; "manera";
      "maneras"; "tipo"; "tipos"; "todo"; "todos"; "todas"; "cada"; "cual";
      "cuales"; "cuando"; "donde"; "cualquier"; "algunos"; "algunas";
      "otro"; "otros"; "otra"; "otras"; "mismo"; "misma"; "mismos";
      "mismas"; "solo"; "sola"; "solas"; "tanto"; "tanta"; "tantos";
      "tantas"; "menos"; "mayor"; "mayores"; "menor"; "menores"; "mejor";
      "mejores"; "peor"; "peores"; "nuevo"; "nueva"; "nuevos"; "nuevas";
      "gran"; "grande"; "grandes" ]%string
  ++ [ txt "peque" ++ [n_tilde] ++ txt "o"; txt "peque" ++ [n_tilde] ++ txt "a";
       txt "peque" ++ [n_tilde] ++ txt "os"; txt "peque" ++ [n_tilde] ++ txt "as" ]
  ++ map txt
    [ "with"; "that"; "this"; "the"; "a"; "an"; "and"; "or"; "but"; "for";
      "from"; "have"; "has"; "had"; "was"; "were"; "been"; "being"; "are";
      "is"; "it"; "its"; "they"; "them"; "their"; "there"; "these";
      "those"; "what"; "which"; "who"; "when"; "where"; "why"; "how";
      "can"; "could"; "should"; "would"; "will"; "shall"; "may"; "might";
      "must"; "about"; "into"; "onto"; "upon"; "within"; "without";
      "through"; "during"; "before"; "after"; "above"; "below"; "under";
      "over"; "between"; "among"; "while"; "because"; "although";
      "though"; "however"; "therefore"; "thus"; "hence"; "more"; "most";
      "less"; "least"; "other"; "others"; "another"; "such"; "same";
      "very"; "much"; "many"; "some"; "any"; "all"; "both"; "each";
      "every"; "none"; "not"; "no"; "yes"; "if"; "then"; "else"; "also";
      "too"; "either"; "neither"; "only"; "just"; "even"; "still"; "yet";
      "already"; "again"; "once"; "twice"; "here"; "idea"; "ideas" ]%string.

(** [w in STOPWORDS]. *)
Definition in_stopwords (w : text) : bool := existsb (text_eqb w) STOPWORDS.

(** ** Library functions the script calls *)

(** [sorted(l, key=key, reverse=True)] and [l.sort(key=key, reverse=True)]:
    Python's sort is stable and stays so under [reverse=True], which fixes
    its result; it is computed here by insertion. *)
Fixpoint insert_desc {A : Type} (key : A -> nat) (x : A) (l : list A) : list A :=
  match l with
  | [] => [x]
  | y :: l' => if key x <? key y then y :: insert_desc key x l' else x :: l
  end.

Definition sort_desc {A : Type} (key : A -> nat) (l : list A) : list A :=
  fold_right (insert_desc key) [] l.

(** First occurrence of [sep] in [s]: the text before it and the text
    after it. *)
Fixpoint find_sep (sep s : text) : option (text * text) :=
  if starts_with sep s then Some ([], skipn (length sep) s)
  else match s with
       | [] => None
       | c :: s' =>
           match find_sep sep s' with
           | Some (a, r) => Some (c :: a, r)
           | None => None
           end
       end.

(** [s.split(sep, maxsplit)] for a non-empty [sep]. *)
Fixpoint str_split (sep : text) (maxsplit : nat) (s : text) : list text :=
  match maxsplit with
  | 0 => [s]
  | S k =>
      match find_sep sep s with
      | Some (a, r) => a :: str_split sep k r
      | None => [s]
      end
  end.

(** [collections.Counter]: a dict, so its items come in the order in which
    the keys were first inserted. *)
Fixpoint counter_incr (w : text) (c : list (text * nat)) : list (text * nat) :=
  match c with
  | [] => [(w, 1)]
  | (k, n) :: c' =>
      if text_eqb k w then (k, S n) :: c' else (k, n) :: counter_incr w c'
  end.

Definition Counter (ws : list text) : list (text * nat) :=
  fold_left (fun c w => counter_incr w c) ws [].

(** ** Regular expressions of the script *)

Definition isword_opt (o : option ascii) : bool :=
  match o with
  | Some c => char_isword c
  | None => false
  end.

Definition last_char (s : text) : option ascii := hd_error (rev s).

(** The assertion [\b] at the position between [pre] and [rest]. *)
Definition at_boundary (pre rest : text) : bool :=
  xorb (isword_opt (last_char pre)) (isword_opt (hd_error rest)).

(** The greedy [\w+] at the start of [s]. *)
Fixpoint span_word (s : text) : nat :=
  match s with
  | c :: s' => if char_isword c then S (span_word s') else 0
  | [] => 0
  end.

(** [re.findall(r"\b\w+\b", s)], scanning from the position after [pre]. *)
Equations findall_go (pre s : text) : list text by wf (length s) lt :=
  findall_go pre [] := [];
  findall_go pre (c :: s') with at_boundary pre (c :: s') && char_isword c := {
    | true :=
        let n := span_word s' in
        (c :: firstn n s') :: findall_go (pre ++ c :: firstn n s') (skipn n s');
    | false := findall_go (pre ++ [c]) s' }.
Next Obligation. rewrite length_skipn. lia. Qed.

Definition re_findall_words (s : text) : list text := findall_go [] s.

(** [re.sub(r"[^\w]+$", "", s)]: the trailing run of non-word characters
    is removed. *)
Fixpoint drop_nonword (s : text) : text :=
  match s with
  | c :: s' => if char_isword c then s else drop_nonword s'
  | [] => []
  end.

Definition re_sub_trailing_nonword (s : text) : text :=
  rev (drop_nonword (rev s)).

(** The greedy [[^\]]+] at the start of [s]. *)
Fixpoint span_not_rbracket (s : text) : nat :=
  match s with
  | c :: s' => if ascii_eqb c "]" then 0 else S (span_not_rbracket s')
  | [] => 0
  end.

(** [re.match(r"\[\[[^\]]+\]\]", s)]: the length of the match at the start
    of [s], if there is one. *)
Definition match_wikilink (s : text) : option nat :=
  if starts_with (txt "[[") s then
    let n := span_not_rbracket (skipn 2 s) in
    if (1 <=? n) && starts_with (txt "]]") (skipn (2 + n) s)
    then Some (2 + n + 2)
    else None
  else None.

(** [re.split("(\[\[[^\]]+\]\])", s)]: plain text and markers alternate,
    [acc] is the plain text read since the last marker, latest first. *)
Equations split_go (acc s : text) : list text by wf (length s) lt :=
  split_go acc [] := [rev acc];
  split_go acc (c :: s') with match_wikilink (c :: s') := {
    | Some n := rev acc :: firstn n (c :: s') :: split_go [] (skipn (pred n) s');
    | None := split_go (c :: acc) s' }.
Next Obligation. rewrite length_skipn. lia. Qed.

Definition re_split_wikilink (s : text) : list text := split_go [] s.

(** A literal of the pattern against the start of [s] under
    [re.IGNORECASE]. *)
Definition char_ci_eqb (a b : ascii) : bool :=
  ascii_eqb (char_lower a) (char_lower b).

Fixpoint match_literal_ci (w s : text) : bool :=
  match w, s with
  | [], _ => true
  | x :: w', y :: s' => char_ci_eqb x y && match_literal_ci w' s'
  | _ :: _, [] => false
  end.

(** The pattern [r"\b" + re.escape(word) + r"\b"] at the position between
    [pre] and [rest]; a match has the length of [word]. *)
Definition match_word_pattern (word pre rest : text) : bool :=
  at_boundary pre rest
  && match_literal_ci word rest
  && at_boundary (pre ++ firstn (length word) rest) (skipn (length word) rest).

(** ** The tokenizer *)

Definition extract_body_text (content : text) : text :=
  let parts := str_split (txt "---") 2 content in
  if 3 <=? length parts then str_strip (nth 2 parts []) else str_strip content.

Definition normalize_word (word : text) : text :=
  let word := str_strip (str_lower word) in
  re_sub_trailing_nonword word.

(** The test of the loop body of [extract_words]. *)
Definition keep_word (normalized : text) : bool :=
  (MIN_WORD_LENGTH <=? length normalized)
  && negb (in_stopwords normalized)
  && str_isalpha normalized.

Definition extract_words (s : text) : list text :=
  let words := re_findall_words (str_lower s) in
  fold_left
    (fun filtered word =>
       let normalized := normalize_word word in
       if keep_word normalized then filtered ++ [normalized] else filtered)
    words [].

(** ** The frequency analyzer *)

(** What [md_file.read_text(encoding="utf-8")] does: it returns the
    content or raises. *)
Inductive read_result : Type :=
| ReadOk (content : text)
| ReadError (message : text).

(** A file of the folder: its name, what reading it gives, and what
    [md_file.write_text(s, encoding="utf-8")] does when it raises on the
    text [s]: the message of the exception and what the file reads as
    afterwards.  [None] stands for a write that goes through. *)
Record md_file : Type := MdFile {
  name : text;
  read_text : read_result;
  write_failure : text -> option (text * read_result)
}.

(** Every write to the file goes through. *)
Definition always_writable : text -> option (text * read_result) :=
  fun _ => None.

(** The state of the loop over the files: the words gathered so far and the
    recorded failures. *)
Record scan_state : Type :=
  ScanState { all_words : list text; errors : list (text * text) }.

Definition scan_file (st : scan_state) (f : md_file) : scan_state :=
  match read_text f with
  | ReadOk content =>
      let body_text := extract_body_text content in
      let words := extract_words body_text in
      ScanState (all_words st ++ words) (errors st)
  | ReadError e => ScanState (all_words st) (errors st ++ [(name f, e)])
  end.

Definition scan_files (markdown_files : list md_file) : scan_state :=
  fold_left scan_file markdown_files (ScanState [] []).

(** The list [frequent] after [frequent.sort(...)]. *)
Definition rank_words (ws : list text) : list (text * nat) :=
  let word_counts := Counter ws in
  let frequent := filter (fun wc => MIN_FREQUENCY <=? snd wc) word_counts in
  sort_desc snd frequent.

Definition find_frequent_words (markdown_files : list md_file) : list (text * nat) :=
  let st := scan_files markdown_files in
  firstn TOP_N_WORDS (rank_words (all_words st)).

(** ** The annotator *)

(** The closure [replace_func] of [add_wikilinks_to_text]: [modified_part]
    is the text [re.sub] is running over, [start] and [end_] delimit the
    match. *)
Definition replace_func (modified_part : text) (start end_ : nat) : text :=
  let matched_text := slice modified_part start end_ in
  let before := slice modified_part (Nat.max 0 (start - 2)) start in
  let after := slice modified_part end_ (Nat.min (length modified_part) (end_ + 2)) in
  if contains (txt "[[") before || contains (txt "]]") after
  then matched_text
  else txt "[[" ++ matched_text ++ txt "]]".

(** [re.sub(pattern, replace_func, modified_part, flags=re.IGNORECASE)] from
    the position after [pre]: matches are searched from left to right and do
    not overlap; after an empty match the scan moves one character on. *)
Equations sub_go (word pre rest : text) : text by wf (length rest) lt :=
  sub_go word pre [] :=
    if match_word_pattern word pre []
    then replace_func pre (length pre) (length pre + length word)
    else [];
  sub_go word pre (c :: r) with match_word_pattern word pre (c :: r) := {
    | true :=
        replace_func (pre ++ c :: r) (length pre) (length pre + length word)
        ++ (if length word =? 0
            then c :: sub_go word (pre ++ [c]) r
            else sub_go word (pre ++ firstn (length word) (c :: r))
                        (skipn (pred (length word)) r));
    | false := c :: sub_go word (pre ++ [c]) r }.
Next Obligation. rewrite length_skipn. lia. Qed.

Definition re_sub_word (word modified_part : text) : text :=
  sub_go word [] modified_part.

(** The body of the loop over [parts]. *)
Definition annotate_part (words_to_link : list text) (part : text) : text :=
  match match_wikilink part with
  | Some _ => part
  | None =>
      let sorted_words := sort_desc (@length ascii) words_to_link in
      fold_left (fun modified_part word => re_sub_word word modified_part)
                sorted_words part
  end.

Definition add_wikilinks_to_text (s : text) (words_to_link : list text) : text :=
  let parts := re_split_wikilink s in
  concat (map (annotate_part words_to_link) parts).

(** ** The per-file driver *)

Definition newline : ascii := ascii_of_nat 10.

(** [md_file.write_text(s, encoding="utf-8")]: the file then reads as
    [s], or the call raises and leaves the file as the failure left it. *)
Inductive write_result : Type :=
| WriteOk (f : md_file)
| WriteError (message : text) (f : md_file).

Definition write_text (f : md_file) (s : text) : write_result :=
  match write_failure f s with
  | None => WriteOk (MdFile (name f) (ReadOk s) (write_failure f))
  | Some (message, remains) =>
      WriteError message (MdFile (name f) remains (write_failure f))
  end.

(** The end of a branch of [process_markdown_file] that writes:
    [return True] after the write, or [return False] from the [except]
    clause when the write raises. *)
Definition write_and_report (f : md_file) (s : text) : bool * md_file :=
  match write_text f s with
  | WriteOk f' => (true, f')
  | WriteError _ f' => (false, f')
  end.

(** The partition of a document made by [process_markdown_file]: the
    header, when there is one, and the body. *)
Definition split_frontmatter (content : text) : option text * text :=
  let parts := str_split (txt "---") 2 content in
  if length parts <? 3 then (None, content)
  else (Some (nth 0 parts [] ++ txt "---" ++ nth 1 parts [] ++ txt "---"),
        nth 2 parts []).

(** The result is the returned flag and the file as it is afterwards. *)
Definition process_markdown_file (f : md_file) (words_to_link : list text)
  : bool * md_file :=
  match read_text f with
  | ReadError _ => (false, f)
  | ReadOk content =>
      match split_frontmatter content with
      | (None, _) =>
          let new_body := add_wikilinks_to_text content words_to_link in
          if negb (text_eqb new_body content)
          then write_and_report f new_body
          else (false, f)
      | (Some frontmatter, body) =>
          let new_body := add_wikilinks_to_text body words_to_link in
          if negb (text_eqb new_body body)
          then write_and_report f (frontmatter ++ [newline] ++ new_body)
          else (false, f)
      end
  end.

(** ** Notions used to state the properties *)

(** The content of a marker: no closing bracket in it. *)
Definition no_rbracket (c : text) : Prop :=
  forallb (fun x => negb (ascii_eqb x "]")) c = true.

(** The guard of [replace_func], on the text before the match and the
    text after it. *)
Definition guarded (pre post : text) : bool :=
  contains (txt "[[") (skipn (length pre - 2) pre)
  || contains (txt "]]") (firstn 2 post).

(** A text without its square brackets. *)
Definition strip_brackets (s : text) : text :=
  filter (fun c => negb (ascii_eqb c "[" || ascii_eqb c "]")) s.

(** A note as [script_notas.py] lays it out: a header, then the body. *)
Definition sample_note : text :=
  txt "---" ++ [newline] ++ txt "title: x" ++ [newline] ++ txt "---"
  ++ [newline] ++ txt "casa".

(** The files that can be read, and the failure a file gives rise to. *)
Definition is_readable (f : md_file) : bool :=
  match read_text f with
  | ReadOk _ => true
  | ReadError _ => false
  end.

Definition failure_of (f : md_file) : list (text * text) :=
  match read_text f with
  | ReadOk _ => []
  | ReadError e => [(name f, e)]
  end.

(** The number of times [w] occurs in a list of words. *)
Definition occurrences (w : text) (ws : list text) : nat :=
  length (filter (text_eqb w) ws).

(** [x] stands before [y] in [l]. *)
Definition precedes {A : Type} (l : list A) (x y : A) : Prop :=
  exists l1 l2 l3, l = l1 ++ x :: l2 ++ y :: l3.

(** The order a stable descending sort produces: a higher key first, and
    among equal keys the order [before] of the input. *)
Definition sorted_rel {A : Type} (key : A -> nat) (before : A -> A -> Prop)
  (x y : A) : Prop :=
  key y < key x \/ (key x = key y /\ before x y).

(** The order of the term list: a higher count first, and among equal
    counts the item that stands first in the items of the counter. *)
Definition ranks_before (word_counts : list (text * nat)) (x y : text * nat) : Prop :=
  snd y < snd x \/ (snd x = snd y /\ precedes word_counts x y).

(** The count a counter holds for [w]; 0 when [w] is not a key. *)
Fixpoint counter_get (w : text) (c : list (text * nat)) : nat :=
  match c with
  | [] => 0
  | (k, n) :: c' => if text_eqb k w then n else counter_get w c'
  end.

(** A note whose body has "casa" twice and "perro" once. *)
Definition sample_corpus : list md_file :=
  [ MdFile (txt "a.md") (ReadOk (txt "casa perro casa")) always_writable;
    MdFile (txt "b.md") (ReadError (txt "invalid start byte")) always_writable ].

(** The words of a list in the order of their first occurrence. *)
Fixpoint first_occurrences (ws : list text) : list text :=
  match ws with
  | [] => []
  | w :: ws' => w :: filter (fun x => negb (text_eqb w x)) (first_occurrences ws')
  end.

(** The keys of a counter are distinct and its counts positive. *)
Definition counter_wf (c : list (text * nat)) : Prop :=
  NoDup (map fst c) /\ Forall (fun p => 0 < snd p) c.

(** The two halves of the guard. *)
Definition ends_open (pre : text) : bool :=
  contains (txt "[[") (skipn (length pre - 2) pre).

Definition starts_close (post : text) : bool :=
  contains (txt "]]") (firstn 2 post).

(** Equality of a term and a token under [re.IGNORECASE]. *)
Definition ci_equal (w o : text) : bool :=
  (length w =? length o) && match_literal_ci w o.

(** A term made of word characters only, and not empty: what the frequency
    analyzer produces. *)
Definition is_word_term (w : text) : bool :=
  match w with
  | [] => false
  | _ => forallb char_isword w
  end.

(** Every match of the pattern of [w] in [rest], read after [pre], is
    under the guard of [replace_func]. *)
Definition all_guarded (w pre rest : text) : Prop :=
  forall a b, rest = a ++ b ->
    match_word_pattern w (pre ++ a) b = true ->
    guarded (pre ++ a) (skipn (length w) b) = true.

(** A text made of plain stretches in which every match of every term is
    guarded, separated by markers; [p] is plain text that stands before
    the first stretch. *)
Inductive settled_after (words : list text) (p : text) : text -> Prop :=
| settled_plain (x : text) :
    (forall w, In w words -> all_guarded w [] (p ++ x)) ->
    settled_after words p x
| settled_marker (x c r : text) :
    (forall w, In w words -> all_guarded w [] (p ++ x)) ->
    c <> [] -> no_rbracket c ->
    settled_after words [] r ->
    settled_after words p (x ++ txt "[[" ++ c ++ txt "]]" ++ r).

Definition settled (words : list text) (s : text) : Prop :=
  settled_after words [] s.

(** A part that the annotator returns as it is. *)
Definition inert_part (words : list text) (part : text) : Prop :=
  match_wikilink part <> None \/ forall w, In w words -> all_guarded w [] part.

(** The text after an opening "[[" reads: at most one more "[", a run of
    word characters, "]]". *)
Definition wrap_follows (b : text) : bool :=
  let b' := if starts_with (txt "[") b then skipn 1 b else b in
  (1 <=? span_word b') && starts_with (txt "]]") (skipn (span_word b') b').

(** Every "[[" of the text opens a wrapped word. *)
Fixpoint well_opened (s : text) : bool :=
  match s with
  | [] => true
  | _ :: s' =>
      (if starts_with (txt "[[") s then wrap_follows (skipn 2 s) else true)
      && well_opened s'
  end.

(** The text after an opening "[[" reaches a "]" without another "[[". *)
Definition closed_run (b : text) : bool :=
  let n := span_not_rbracket b in
  (n <? length b) && negb (contains (txt "[[") (firstn n b)).

(** Every "[[" of the text is closed before another "[[" comes. *)
Fixpoint flat (s : text) : bool :=
  match s with
  | [] => true
  | _ :: s' =>
      (if starts_with (txt "[[") s then closed_run (skipn 2 s) else true)
      && flat s'
  end.

(** A part of the input without an opening sequence of its own: a marker
    has none after its opening, a plain part has none at all. *)
Definition clean_part (part : text) : bool :=
  match match_wikilink part with
  | Some _ => negb (contains (txt "[[") (skipn 2 part))
  | None => negb (contains (txt "[[") part)
  end.

(** An input in which "[[" occurs only as the opening of a marker. *)
Definition well_formed_input (s : text) : bool :=
  forallb clean_part (re_split_wikilink s).

(** The text has a marker whose content contains an opening sequence. *)
Definition nested_marker (s : text) : Prop :=
  exists a c b,
    s = a ++ txt "[[" ++ c ++ txt "]]" ++ b
    /\ c <> [] /\ no_rbracket c /\ contains (txt "[[") c = true.

(** ** The pipeline *)

(** The dictionary [stats] that [main] hands to [print_summary]. *)
Record stats : Type := Stats {
  total_files : nat;
  modified_files : nat;
  unchanged_files : nat;
  words_linked : nat;
  top_words : list (text * nat);
  min_length : nat;
  min_freq : nat;
  top_n : nat
}.

(** How [main] ends: at one of its three early returns, or with the
    summary. *)
Inductive main_result : Type :=
| MissingInputDir
| NoMarkdownFiles
| NoFrequentWords
| Summary (s : stats).

(** The state of the loop of [main] over the files: the two counters, and
    the files as they are after their turn. *)
Record run_state : Type := RunState {
  modified_count : nat;
  unchanged_count : nat;
  processed : list md_file
}.

Definition run_step (words_to_link : list text) (st : run_state) (f : md_file)
  : run_state :=
  let (flag, f') := process_markdown_file f words_to_link in
  if flag
  then RunState (S (modified_count st)) (unchanged_count st) (processed st ++ [f'])
  else RunState (modified_count st) (S (unchanged_count st)) (processed st ++ [f']).

(** [main].  [input_dir] is [None] when [INPUT_DIR] does not exist, and
    otherwise the files that [INPUT_DIR.glob("*.md")] yields, in that order.
    The result is how the run ends and the directory afterwards; what is
    printed is left out. *)
Definition main (input_dir : option (list md_file))
  : main_result * option (list md_file) :=
  match input_dir with
  | None => (MissingInputDir, None)
  | Some markdown_files =>
      match markdown_files with
      | [] => (NoMarkdownFiles, Some markdown_files)
      | _ :: _ =>
          let frequent_words := find_frequent_words markdown_files in
          match frequent_words with
          | [] => (NoFrequentWords, Some markdown_files)
          | _ :: _ =>
              let words_to_link := map fst frequent_words in
              let st := fold_left (run_step words_to_link) markdown_files
                                  (RunState 0 0 []) in
              (Summary
                 (Stats (length markdown_files) (modified_count st)
                        (unchanged_count st) (length words_to_link)
                        frequent_words MIN_WORD_LENGTH MIN_FREQUENCY TOP_N_WORDS),
               Some (processed st))
          end
      end
  end.

(** ** Further notions used to state properties *)

(** The words a file contributes to the count. *)
Definition words_of (f : md_file) : list text :=
  match read_text f with
  | ReadOk content => extract_words (extract_body_text content)
  | ReadError _ => []
  end.

(** A word, wrapped when it equals one of the terms under
    [re.IGNORECASE]. *)
Definition link_word (words : list text) (o : text) : text :=
  if existsb (fun w => ci_equal w o) words
  then txt "[[" ++ o ++ txt "]]"
  else o.

(** A text with each of its words that equals a term wrapped; [cur] is the
    word being read, latest character first. *)
Fixpoint link_words_go (words : list text) (cur : text) (s : text) : text :=
  match s with
  | [] => match cur with [] => [] | _ => link_word words (rev cur) end
  | c :: s' =>
      if char_isword c then link_words_go words (c :: cur) s'
      else match cur with [] => [] | _ => link_word words (rev cur) end
           ++ c :: link_words_go words [] s'
  end.

Definition link_words (words : list text) (s : text) : text :=
  link_words_go words [] s.

(** A text in which no two opening and no two closing square brackets
    stand side by side. *)
Definition no_double_bracket (s : text) : bool :=
  negb (contains (txt "[[") s) && negb (contains (txt "]]") s).

(** A square bracket. *)
Definition is_bracket (c : ascii) : bool := ascii_eqb c "[" || ascii_eqb c "]".

(** [t] is [s] with square brackets inserted: every character of [s] is in
    [t], in the same order, and the other characters of [t] are square
    brackets. *)
Inductive inserts_brackets : text -> text -> Prop :=
| inserts_nil : inserts_brackets [] []
| inserts_keep (c : ascii) (s t : text) :
    inserts_brackets s t -> inserts_brackets (c :: s) (c :: t)
| inserts_add (c : ascii) (s t : text) :
    is_bracket c = true -> inserts_brackets s t -> inserts_brackets s (c :: t).

(** What two readings of a file give is the same. *)
Definition read_result_eqb (a b : read_result) : bool :=
  match a, b with
  | ReadOk x, ReadOk y => text_eqb x y
  | ReadError x, ReadError y => text_eqb x y
  | _, _ => false
  end.

(** A file before and after a run: its content is not what it was. *)
Definition content_changed (p : md_file * md_file) : bool :=
  negb (read_result_eqb (read_text (fst p)) (read_text (snd p))).

(** Reading the words of a text character by character: [fst st] are the
    words read so far, [snd st] is the word being read, latest character
    first. *)
Definition close_word (st : list text * text) : list text :=
  match snd st with
  | [] => fst st
  | _ :: _ => fst st ++ [rev (snd st)]
  end.

Definition read_char (st : list text * text) (c : ascii) : list text * text :=
  if char_isword c then (fst st, c :: snd st) else (close_word st, []).

Definition read_chars (st : list text * text) (s : text) : list text * text :=
  fold_left read_char s st.

(** The maximal runs of word characters of a text. *)
Definition word_runs (s : text) : list text :=
  close_word (read_chars ([], []) s).

(** [written] is [content] with square brackets inserted and at most one
    line break inserted, the text before that line break being the same in
    both. *)
Definition only_inserted (content written : text) : Prop :=
  inserts_brackets content written
  \/ exists p q q',
       content = p ++ q /\ written = p ++ newline :: q'
       /\ inserts_brackets q q'.

(** Every write to the file goes through. *)
Definition writable (f : md_file) : Prop :=
  forall s, write_failure f s = None.


(** The number of consecutive characters [c] at the end of a text that
    follows [k] of them. *)
Definition run_after (c : ascii) (k : nat) (s : text) : nat :=
  fold_left (fun n x => if ascii_eqb x c then S n else 0) s k.

(** The number of opening brackets a text ends with, and the number of
    closing brackets a text begins with. *)
Definition open_run (a : text) : nat := run_after "[" 0 a.

Fixpoint close_run (b : text) : nat :=
  match b with
  | c :: b' => if ascii_eqb c "]" then S (close_run b') else 0
  | [] => 0
  end.

(** [x'] and [y'] are [x] and [y] with square brackets inserted, none of
    them next to the text that stands between the two: [x'] ends with as
    many opening brackets as [x], whatever comes before, and [y'] begins
    with as many closing brackets as [y]. *)
Definition kept_around (x y x' y' : text) : Prop :=
  inserts_brackets x x' /\ inserts_brackets y y'
  /\ (forall k, run_after "[" k x' = run_after "[" k x)
  /\ close_run y' = close_run y.

(** Two notes and an unreadable file. *)
Definition sample_dir : list md_file :=
  [ MdFile (txt "a.md") (ReadOk sample_note) always_writable;
    MdFile (txt "b.md") (ReadOk (txt "Una casa grande. Mi CASA.")) always_writable;
    MdFile (txt "c.md") (ReadError (txt "invalid start byte")) always_writable ].

(** * Properties *)

(** ** Texts *)

Lemma ascii_eqb_true (a b : ascii) : ascii_eqb a b = true <-> a = b.
Proof. apply Ascii.eqb_eq. Qed.

Lemma ascii_eqb_refl (a : ascii) : ascii_eqb a a = true.
Proof. apply Ascii.eqb_refl. Qed.

Lemma ascii_eqb_false (a b : ascii) : ascii_eqb a b = false <-> a <> b.
Proof. apply Ascii.eqb_neq. Qed.

Lemma text_eqb_true (a b : text) : text_eqb a b = true <-> a = b.
Proof.
  revert b; induction a as [|x a IH]; intros [|y b]; simpl; split; intro H;
    try reflexivity; try discriminate.
  - apply andb_true_iff in H as [Hx Ha].
    apply ascii_eqb_true in Hx. apply IH in Ha. congruence.
  - injection H as -> ->. rewrite ascii_eqb_refl. simpl. now apply IH.
Qed.

Lemma text_eqb_refl (a : text) : text_eqb a a = true.
Proof. now apply text_eqb_true. Qed.

Lemma starts_with_true (p s : text) :
  starts_with p s = true <-> exists r, s = p ++ r.
Proof.
  revert s; induction p as [|x p IH]; intros s; simpl.
  - split; [intros _; now exists s | reflexivity].
  - destruct s as [|y s].
    + split; [discriminate | intros [r Hr]; discriminate].
    + rewrite andb_true_iff, ascii_eqb_true, IH. split.
      * intros [-> [r ->]]. now exists r.
      * intros [r Hr]. injection Hr as -> ->. split; [reflexivity | now exists r].
Qed.

Lemma starts_with_app (p r : text) : starts_with p (p ++ r) = true.
Proof. apply starts_with_true. now exists r. Qed.

Lemma starts_with_skipn (p s : text) :
  starts_with p s = true -> s = p ++ skipn (length p) s.
Proof.
  intros H. apply starts_with_true in H as [r ->].
  now rewrite skipn_app, skipn_all, Nat.sub_diag.
Qed.

(** ** The marker pattern *)

Lemma span_not_rbracket_le (s : text) : span_not_rbracket s <= length s.
Proof. induction s as [|c s IH]; simpl; [lia|]. destruct (ascii_eqb c "]"); simpl; lia. Qed.

Lemma span_not_rbracket_firstn (s : text) :
  no_rbracket (firstn (span_not_rbracket s) s).
Proof.
  unfold no_rbracket. induction s as [|c s IH]; simpl; [reflexivity|].
  destruct (ascii_eqb c "]") eqn:E; simpl; [reflexivity|]. now rewrite E.
Qed.

Lemma span_not_rbracket_app (c r : text) :
  no_rbracket c -> span_not_rbracket (c ++ "]"%char :: r) = length c.
Proof.
  unfold no_rbracket. induction c as [|x c IH]; simpl; intros H.
  - reflexivity.
  - apply andb_true_iff in H as [Hx Hc]. apply negb_true_iff in Hx.
    rewrite Hx. f_equal. now apply IH.
Qed.

(** A match of the marker pattern is ["[[" ++ c ++ "]]"] for a non-empty
    [c] without ["]"]. *)
Lemma match_wikilink_Some (s : text) (n : nat) :
  match_wikilink s = Some n <->
  exists c r, s = txt "[[" ++ c ++ txt "]]" ++ r /\ c <> [] /\ no_rbracket c
              /\ n = length c + 4.
Proof.
  unfold match_wikilink. split.
  - destruct (starts_with (txt "[[") s) eqn:E1; [|discriminate].
    apply starts_with_skipn in E1. simpl length in E1.
    set (k := span_not_rbracket (skipn 2 s)) in *.
    assert (Hle : k <= length (skipn 2 s)) by apply span_not_rbracket_le.
    destruct ((1 <=? k) && starts_with (txt "]]") (skipn (2 + k) s)) eqn:E2;
      [|discriminate].
    intros [= <-]. apply andb_true_iff in E2 as [Hk E2].
    apply Nat.leb_le in Hk. apply starts_with_skipn in E2. simpl length in E2.
    exists (firstn k (skipn 2 s)), (skipn 2 (skipn (2 + k) s)).
    repeat split.
    + rewrite <- E2.
      replace (skipn (2 + k) s) with (skipn k (skipn 2 s))
        by (rewrite skipn_skipn; f_equal; lia).
      rewrite firstn_skipn. exact E1.
    + intros Hc. apply (f_equal (@length ascii)) in Hc.
      rewrite length_firstn in Hc. cbn [length] in Hc. lia.
    + apply span_not_rbracket_firstn.
    + rewrite length_firstn. lia.
  - intros (c & r & -> & Hc & Hnr & ->).
    change (txt "[[" ++ c ++ txt "]]" ++ r) with ("["%char :: "["%char :: c ++ "]"%char :: "]"%char :: r).
    cbn [starts_with txt list_ascii_of_string ascii_eqb]. rewrite !Ascii.eqb_refl. cbn [andb skipn].
    rewrite span_not_rbracket_app by assumption.
    replace (2 + length c) with (length ("["%char :: "["%char :: c)) by reflexivity.
    assert (Hs : skipn (length ("["%char :: "["%char :: c)) ("["%char :: "["%char :: c ++ "]"%char :: "]"%char :: r) = "]"%char :: "]"%char :: r).
    { change ("["%char :: "["%char :: c ++ "]"%char :: "]"%char :: r)
        with (("["%char :: "["%char :: c) ++ "]"%char :: "]"%char :: r).
      now rewrite skipn_app, skipn_all, Nat.sub_diag. }
    rewrite Hs. cbn [starts_with ascii_eqb]. rewrite !Ascii.eqb_refl. cbn [andb].
    destruct c as [|x c]; [congruence|]. cbn [length Nat.leb]. simpl. f_equal. lia.
Qed.

Lemma match_wikilink_bounds (s : text) (n : nat) :
  match_wikilink s = Some n -> 5 <= n <= length s.
Proof.
  intros H. apply match_wikilink_Some in H as (c & r & -> & Hc & _ & ->).
  destruct c; [congruence|]. rewrite !length_app. simpl. lia.
Qed.

(** ** Unfolding the scans *)

Lemma split_go_nil (acc : text) : split_go acc [] = [rev acc].
Proof. now simp split_go. Qed.

Lemma split_go_Some (acc s : text) (n : nat) :
  match_wikilink s = Some n ->
  split_go acc s = rev acc :: firstn n s :: split_go [] (skipn n s).
Proof.
  intros H. destruct s as [|c s'].
  - discriminate H.
  - simp split_go. rewrite H. simpl.
    apply match_wikilink_bounds in H. destruct n as [|n]; [lia|]. reflexivity.
Qed.

Lemma split_go_None (acc : text) (c : ascii) (s' : text) :
  match_wikilink (c :: s') = None ->
  split_go acc (c :: s') = split_go (c :: acc) s'.
Proof. intros H. simp split_go. rewrite H. reflexivity. Qed.

(** ** [re.split] loses nothing *)

Lemma concat_split_go (acc s : text) : concat (split_go acc s) = rev acc ++ s.
Proof.
  funelim (split_go acc s).
  - simpl. now rewrite !app_nil_r.
  - simpl. rewrite H. simpl.
    apply match_wikilink_bounds in Heq. destruct n as [|n]; [lia|].
    simpl. now rewrite firstn_skipn.
  - rewrite H. simpl. now rewrite <- app_assoc.
Qed.

Lemma concat_re_split (s : text) : concat (re_split_wikilink s) = s.
Proof. unfold re_split_wikilink. now rewrite concat_split_go. Qed.

Lemma sub_go_nil (word pre : text) :
  sub_go word pre [] =
  if match_word_pattern word pre []
  then replace_func pre (length pre) (length pre + length word) else [].
Proof. now simp sub_go. Qed.

Lemma sub_go_nomatch (word pre : text) (c : ascii) (r : text) :
  match_word_pattern word pre (c :: r) = false ->
  sub_go word pre (c :: r) = c :: sub_go word (pre ++ [c]) r.
Proof. intros H. simp sub_go. rewrite H. reflexivity. Qed.

Lemma match_literal_ci_length (w s : text) :
  match_literal_ci w s = true -> length w <= length s.
Proof.
  revert s; induction w as [|x w IH]; intros [|y s]; simpl; intros H;
    try lia; try discriminate.
  apply andb_true_iff in H as [_ H]. apply IH in H. lia.
Qed.

Lemma match_word_pattern_length (word pre rest : text) :
  match_word_pattern word pre rest = true -> length word <= length rest.
Proof.
  unfold match_word_pattern. intros H.
  apply andb_true_iff in H as [H _]. apply andb_true_iff in H as [_ H].
  now apply match_literal_ci_length.
Qed.

Lemma sub_go_match (word pre rest : text) :
  word <> [] ->
  match_word_pattern word pre rest = true ->
  sub_go word pre rest =
  replace_func (pre ++ rest) (length pre) (length pre + length word)
  ++ sub_go word (pre ++ firstn (length word) rest) (skipn (length word) rest).
Proof.
  intros Hw H. pose proof (match_word_pattern_length _ _ _ H) as Hl.
  destruct word as [|x w]; [congruence|].
  destruct rest as [|c r]; [simpl in Hl; lia|].
  simp sub_go. rewrite H. reflexivity.
Qed.

Lemma sub_go_match_empty (pre : text) (c : ascii) (r : text) :
  match_word_pattern [] pre (c :: r) = true ->
  sub_go [] pre (c :: r) =
  replace_func (pre ++ c :: r) (length pre) (length pre + 0)
  ++ c :: sub_go [] (pre ++ [c]) r.
Proof. intros H. simp sub_go. rewrite H. reflexivity. Qed.

(** ** The replacement function *)

Lemma slice_app_mid (pre o post : text) :
  slice (pre ++ o ++ post) (length pre) (length pre + length o) = o.
Proof.
  unfold slice. rewrite skipn_app, skipn_all, Nat.sub_diag. simpl.
  replace (length pre + length o - length pre) with (length o) by lia.
  now rewrite firstn_app, firstn_all, Nat.sub_diag, firstn_O, app_nil_r.
Qed.

Lemma slice_before (pre rest : text) :
  slice (pre ++ rest) (Nat.max 0 (length pre - 2)) (length pre)
  = skipn (length pre - 2) pre.
Proof.
  unfold slice. rewrite Nat.max_0_l, skipn_app.
  replace (length pre - 2 - length pre) with 0 by lia. simpl.
  rewrite firstn_app, length_skipn.
  replace (length pre - (length pre - 2) - (length pre - (length pre - 2))) with 0 by lia.
  rewrite firstn_O, app_nil_r. apply firstn_all2. rewrite length_skipn. lia.
Qed.

Lemma slice_after (pre o post : text) :
  slice (pre ++ o ++ post) (length pre + length o)
        (Nat.min (length (pre ++ o ++ post)) (length pre + length o + 2))
  = firstn 2 post.
Proof.
  unfold slice. rewrite !length_app.
  rewrite app_assoc, skipn_app, skipn_all2 by (rewrite length_app; lia).
  rewrite length_app, Nat.sub_diag. cbn [skipn app].
  destruct (Nat.le_ge_cases (length post) 2) as [H|H].
  - rewrite Nat.min_l by lia.
    replace (length pre + (length o + length post) - (length pre + length o))
      with (length post) by lia.
    rewrite firstn_all. symmetry. now apply firstn_all2.
  - rewrite Nat.min_r by lia. f_equal. lia.
Qed.

Lemma replace_func_app (pre o post : text) :
  replace_func (pre ++ o ++ post) (length pre) (length pre + length o) =
  if guarded pre post then o else txt "[[" ++ o ++ txt "]]".
Proof.
  unfold replace_func, guarded.
  now rewrite slice_app_mid, slice_before, slice_after.
Qed.

Lemma sub_go_step (word pre rest : text) :
  word <> [] ->
  match_word_pattern word pre rest = true ->
  sub_go word pre rest =
  (if guarded pre (skipn (length word) rest)
   then firstn (length word) rest
   else txt "[[" ++ firstn (length word) rest ++ txt "]]")
  ++ sub_go word (pre ++ firstn (length word) rest) (skipn (length word) rest).
Proof.
  intros Hw H. rewrite sub_go_match by assumption. f_equal.
  pose proof (match_word_pattern_length _ _ _ H) as Hl.
  rewrite <- (firstn_skipn (length word) rest) at 1.
  replace (length pre + length word)
    with (length pre + length (firstn (length word) rest))
    by (rewrite length_firstn; lia).
  apply replace_func_app.
Qed.

(** ** An empty term list *)

Lemma annotate_part_nil (part : text) : annotate_part [] part = part.
Proof. unfold annotate_part. now destruct (match_wikilink part). Qed.

(** C9.  With an empty term list the annotator returns its input. *)
Theorem add_wikilinks_to_text_no_terms (s : text) :
  add_wikilinks_to_text s [] = s.
Proof.
  unfold add_wikilinks_to_text.
  rewrite (map_ext _ (fun part => part) annotate_part_nil), map_id.
  apply concat_re_split.
Qed.

(** ** The lookaround guard *)

(** One step of a substitution.  When the pattern of [word] matches in
    [part] at [start] and the two characters before the match contain "[["
    or the two after it contain "]]", the substitution copies the
    occurrence as it is and goes on after it. *)
Lemma sub_go_guarded_step (word part : text) (start : nat) :
  let end_ := start + length word in
  let before := slice part (Nat.max 0 (start - 2)) start in
  let after := slice part end_ (Nat.min (length part) (end_ + 2)) in
  word <> [] ->
  match_word_pattern word (firstn start part) (skipn start part) = true ->
  contains (txt "[[") before || contains (txt "]]") after = true ->
  sub_go word (firstn start part) (skipn start part) =
  slice part start end_ ++ sub_go word (firstn end_ part) (skipn end_ part).
Proof.
  intros end_ before after Hw Hm Hg.
  pose proof (match_word_pattern_length _ _ _ Hm) as Hl.
  rewrite length_skipn in Hl.
  assert (Hs : start <= length part) by (destruct word; [congruence | simpl in Hl; lia]).
  rewrite sub_go_match by assumption.
  rewrite firstn_skipn, length_firstn, Nat.min_l by assumption.
  fold end_. unfold replace_func. fold before after. rewrite Hg.
  f_equal.
  - unfold slice, end_.
    replace (firstn start part ++ firstn (length word) (skipn start part))
      with (firstn (start + length word) part).
    + now rewrite skipn_skipn, Nat.add_comm.
    + rewrite <- (firstn_skipn start part) at 1.
      rewrite firstn_app, length_firstn, Nat.min_l by assumption.
      rewrite firstn_firstn, Nat.min_r by lia. f_equal. f_equal. lia.
Qed.

Example add_wikilinks_closing_fragment :
  add_wikilinks_to_text (txt "bar]]") [txt "bar"] = txt "bar]]".
Proof. reflexivity. Qed.

(** ** [str.split] *)

Lemma find_sep_unfold (sep s : text) :
  find_sep sep s =
  if starts_with sep s then Some ([], skipn (length sep) s)
  else match s with
       | [] => None
       | c :: s' =>
           match find_sep sep s' with
           | Some (a, r) => Some (c :: a, r)
           | None => None
           end
       end.
Proof. destruct s; reflexivity. Qed.

(** [find_sep] returns the first occurrence of the separator. *)
Lemma find_sep_Some (sep s a r : text) :
  find_sep sep s = Some (a, r) ->
  s = a ++ sep ++ r /\
  forall a' r', s = a' ++ sep ++ r' -> length a <= length a'.
Proof.
  revert a; induction s as [|c s IH]; intros a; rewrite find_sep_unfold;
    destruct (starts_with sep _) eqn:E.
  - intros [= <- <-]. split; [now apply starts_with_skipn | simpl; lia].
  - discriminate.
  - intros [= <- <-]. split; [now apply starts_with_skipn | simpl; lia].
  - destruct (find_sep sep s) as [[a0 r0]|] eqn:F; [|discriminate].
    intros [= <- <-]. destruct (IH a0 eq_refl) as [-> Hmin]. split; [reflexivity|].
    intros [|c' a'] r' H.
    + simpl in H. rewrite H, starts_with_app in E. discriminate.
    + injection H as _ H. apply Hmin in H. simpl. lia.
Qed.

Lemma find_sep_None (sep s : text) :
  find_sep sep s = None -> forall a r, s <> a ++ sep ++ r.
Proof.
  induction s as [|c s IH]; rewrite find_sep_unfold;
    destruct (starts_with sep _) eqn:E; try discriminate.
  - intros _ [|c' a] r H.
    + simpl in H. rewrite H, starts_with_app in E. discriminate.
    + discriminate.
  - destruct (find_sep sep s) as [[a0 r0]|] eqn:F; [discriminate|].
    intros _ [|c' a] r H.
    + simpl in H. rewrite H, starts_with_app in E. discriminate.
    + injection H as _ H. now apply (IH eq_refl a r).
Qed.

(** ** The document splitter *)

Lemma split_frontmatter_cases (content : text) :
  split_frontmatter content =
  match find_sep (txt "---") content with
  | Some (a, r) =>
      match find_sep (txt "---") r with
      | Some (b, c) => (Some (a ++ txt "---" ++ b ++ txt "---"), c)
      | None => (None, content)
      end
  | None => (None, content)
  end.
Proof.
  unfold split_frontmatter. cbn [str_split].
  destruct (find_sep (txt "---") content) as [[a r]|]; [|reflexivity].
  destruct (find_sep (txt "---") r) as [[b c]|]; reflexivity.
Qed.

Lemma extract_body_text_split (content : text) :
  extract_body_text content = str_strip (snd (split_frontmatter content)).
Proof.
  rewrite split_frontmatter_cases. unfold extract_body_text. cbn [str_split].
  destruct (find_sep (txt "---") content) as [[a r]|]; [|reflexivity].
  destruct (find_sep (txt "---") r) as [[b c]|]; reflexivity.
Qed.

Lemma split_frontmatter_concat (content header body : text) :
  split_frontmatter content = (Some header, body) -> content = header ++ body.
Proof.
  rewrite split_frontmatter_cases.
  remember (txt "---") as sep eqn:Esep.
  destruct (find_sep sep content) as [[a r]|] eqn:F1; [|discriminate].
  destruct (find_sep sep r) as [[b c]|] eqn:F2; [|discriminate].
  intros H. injection H as <- <-.
  apply find_sep_Some in F1 as [-> _]. apply find_sep_Some in F2 as [-> _].
  now rewrite <- !app_assoc.
Qed.

(** The cut the code makes.  A header is found exactly when the boundary
    "---" occurs twice in the document, wherever the first one stands: the
    header then runs from the start of the document to the end of the
    second occurrence and the body is everything after it.  Otherwise
    there is no header and the body is the whole document.  The frequency
    analyzer takes the same body with its surrounding white space
    removed. *)
Lemma split_frontmatter_cut (content : text) :
  match split_frontmatter content with
  | (Some header, body) =>
      content = header ++ body /\
      exists a b,
        header = a ++ txt "---" ++ b ++ txt "---" /\
        (forall a' r', content = a' ++ txt "---" ++ r' -> length a <= length a') /\
        (forall b' r', b ++ txt "---" ++ body = b' ++ txt "---" ++ r' ->
                       length b <= length b')
  | (None, body) =>
      body = content /\
      forall a b c, content <> a ++ txt "---" ++ b ++ txt "---" ++ c
  end
  /\ extract_body_text content = str_strip (snd (split_frontmatter content)).
Proof.
  split; [|apply extract_body_text_split].
  rewrite split_frontmatter_cases.
  destruct (find_sep (txt "---") content) as [[a r]|] eqn:F1.
  - apply find_sep_Some in F1 as [Hc Hmin1].
    destruct (find_sep (txt "---") r) as [[b c]|] eqn:F2.
    + apply find_sep_Some in F2 as [Hr Hmin2]. split.
      * rewrite Hc, Hr. now rewrite <- !app_assoc.
      * exists a, b. repeat split; [exact Hmin1|].
        intros b' r' H. apply (Hmin2 b' r'). now rewrite Hr.
    + split; [reflexivity|]. intros a' b' c' H.
      pose proof (Hmin1 a' _ H) as Hle.
      remember (txt "---") as sep eqn:Esep.
      assert (Hsep : length sep = 3) by now subst sep.
      apply (find_sep_None _ _ F2 (skipn (length a + 3) (a' ++ sep ++ b')) c').
      apply (f_equal (skipn (length a + 3))) in H.
      rewrite Hc in H at 1.
      rewrite (app_assoc a), skipn_app, skipn_all2 in H
        by (rewrite length_app; lia).
      rewrite length_app, Hsep, Nat.sub_diag in H. cbn [skipn app] in H.
      rewrite H.
      replace (a' ++ sep ++ b' ++ sep ++ c')
        with ((a' ++ sep ++ b') ++ sep ++ c')
        by (now rewrite <- !app_assoc).
      rewrite skipn_app.
      replace (length a + 3 - length (a' ++ sep ++ b')) with 0
        by (rewrite !length_app; lia).
      reflexivity.
  - split; [reflexivity|]. intros a b c H.
    exact (find_sep_None _ _ F1 a _ H).
Qed.

(** C4.  The code does not ask that the document begins with the
    boundary.  This note has no header, it begins with text, and two rules
    "---" stand in its body: the code takes everything up to the second
    rule for a header and the rest for the body.  The frequency analyzer
    then reads only "fin", and finds no frequent word although "casa"
    occurs four times in the note; and the per-file driver leaves the four
    occurrences of the term "casa" as they are. *)
Theorem split_frontmatter_not_anchored :
  let content :=
    txt "casa casa" ++ [newline] ++ txt "---" ++ [newline] ++ txt "casa casa"
    ++ [newline] ++ txt "---" ++ [newline] ++ txt "fin" in
  let nota := MdFile (txt "nota.md") (ReadOk content) always_writable in
  starts_with (txt "---") content = false
  /\ split_frontmatter content
     = (Some (txt "casa casa" ++ [newline] ++ txt "---" ++ [newline]
              ++ txt "casa casa" ++ [newline] ++ txt "---"),
        [newline] ++ txt "fin")
  /\ extract_body_text content = txt "fin"
  /\ extract_words content = [txt "casa"; txt "casa"; txt "casa"; txt "casa"]
  /\ find_frequent_words [nota] = []
  /\ process_markdown_file nota [txt "casa"] = (false, nota).
Proof. repeat split. Qed.

(** ** The per-file driver *)

(** When its writes go through, the header block is written back as it
    was read. *)
Lemma process_markdown_file_keeps_header
  (f : md_file) (words : list text) (content header body : text) :
  (forall s, write_failure f s = None) ->
  read_text f = ReadOk content ->
  split_frontmatter content = (Some header, body) ->
  exists body', read_text (snd (process_markdown_file f words)) = ReadOk (header ++ body').
Proof.
  intros Hw Hr Hs. unfold process_markdown_file. rewrite Hr, Hs.
  destruct (negb _); simpl.
  - unfold write_and_report, write_text. rewrite Hw. eexists. reflexivity.
  - exists body. rewrite Hr. f_equal.
    now apply split_frontmatter_concat.
Qed.

(** C3.  A note with a header whose body gets one link: the file written
    back has a line break that the original does not have, so the two
    differ by more than the inserted brackets. *)
Theorem process_markdown_file_adds_line_break :
  let written :=
    txt "---" ++ [newline] ++ txt "title: x" ++ [newline] ++ txt "---"
    ++ [newline] ++ [newline] ++ txt "[[casa]]" in
  process_markdown_file
    (MdFile (txt "nota.md") (ReadOk sample_note) always_writable) [txt "casa"]
  = (true, MdFile (txt "nota.md") (ReadOk written) always_writable)
  /\ strip_brackets written <> sample_note
  /\ length (strip_brackets written) = S (length sample_note).
Proof. repeat split. discriminate. Qed.

(** ** The stable descending sort *)

Lemma insert_desc_In {A : Type} (key : A -> nat) (x y : A) (l : list A) :
  In y (insert_desc key x l) <-> y = x \/ In y l.
Proof.
  induction l as [|z l IH]; simpl.
  - intuition.
  - destruct (key x <? key z); simpl; rewrite ?IH; intuition.
Qed.

Lemma sort_desc_In {A : Type} (key : A -> nat) (y : A) (l : list A) :
  In y (sort_desc key l) <-> In y l.
Proof.
  induction l as [|x l IH]; simpl; [tauto|].
  rewrite insert_desc_In, IH. intuition.
Qed.

Section StableSort.

Context {A : Type} (key : A -> nat) (before : A -> A -> Prop).

Lemma insert_desc_sorted (x : A) (l : list A) :
  StronglySorted (sorted_rel key before) l ->
  Forall (before x) l ->
  StronglySorted (sorted_rel key before) (insert_desc key x l).
Proof.
  intros Hs Hb. induction Hs as [|z l Hs IH Hz]; simpl.
  - constructor; constructor.
  - inversion Hb as [|? ? Hxz Hxl]; subst.
    destruct (key x <? key z) eqn:E.
    + apply Nat.ltb_lt in E. constructor; [now apply IH|].
      apply Forall_forall. intros y Hy. apply insert_desc_In in Hy as [->|Hy].
      * now left.
      * rewrite Forall_forall in Hz. now apply Hz.
    + apply Nat.ltb_ge in E. constructor; [now constructor|].
      constructor.
      * destruct (Nat.eq_dec (key x) (key z)) as [Heq|Hne];
          [right; now split | left; lia].
      * rewrite Forall_forall in *. intros y Hy.
        destruct (Hz y Hy) as [Hlt|[Heq _]].
        -- left. lia.
        -- destruct (Nat.eq_dec (key x) (key y)) as [Heq'|Hne];
             [right; split; [exact Heq' | now apply Hxl] | left; lia].
Qed.

Lemma sort_desc_sorted (l : list A) :
  StronglySorted before l -> StronglySorted (sorted_rel key before) (sort_desc key l).
Proof.
  induction 1 as [|x l Hs IH Hx]; simpl.
  - constructor.
  - apply insert_desc_sorted; [exact IH|].
    rewrite Forall_forall in *. intros y Hy. apply Hx.
    exact (proj1 (sort_desc_In key y l) Hy).
Qed.

End StableSort.

Lemma StronglySorted_impl {A : Type} (R S : A -> A -> Prop) (l : list A) :
  (forall x y, R x y -> S x y) -> StronglySorted R l -> StronglySorted S l.
Proof.
  intros HRS. induction 1 as [|x l Hs IH Hx]; constructor; [exact IH|].
  eapply Forall_impl; [|exact Hx]. intros y. apply HRS.
Qed.

Lemma StronglySorted_filter {A : Type} (R : A -> A -> Prop) (f : A -> bool) (l : list A) :
  StronglySorted R l -> StronglySorted R (filter f l).
Proof.
  induction 1 as [|x l Hs IH Hx]; simpl; [constructor|].
  destruct (f x); [|exact IH]. constructor; [exact IH|].
  rewrite Forall_forall in *. intros y Hy. apply filter_In in Hy as [Hy _].
  now apply Hx.
Qed.

Lemma StronglySorted_firstn {A : Type} (R : A -> A -> Prop) (n : nat) (l : list A) :
  StronglySorted R l -> StronglySorted R (firstn n l).
Proof.
  intros Hs. revert n. induction Hs as [|x l Hs IH Hx]; intros [|n]; simpl;
    try constructor; [apply IH|].
  rewrite Forall_forall in *. intros y Hy. apply Hx.
  rewrite <- (firstn_skipn n l). apply in_or_app. now left.
Qed.

Lemma precedes_cons {A : Type} (a : A) (l : list A) (x y : A) :
  precedes l x y -> precedes (a :: l) x y.
Proof. intros (l1 & l2 & l3 & ->). now exists (a :: l1), l2, l3. Qed.

(** Every list is sorted by the positions of its own elements. *)
Lemma precedes_sorted {A : Type} (l : list A) : StronglySorted (precedes l) l.
Proof.
  induction l as [|a l IH]; constructor.
  - eapply StronglySorted_impl; [|exact IH]. intros x y. apply precedes_cons.
  - apply Forall_forall. intros y Hy. apply in_split in Hy as (l2 & l3 & ->).
    now exists [], l2, l3.
Qed.

(** ** The ranking *)

Lemma rank_words_sorted (ws : list text) :
  StronglySorted (ranks_before (Counter ws)) (rank_words ws).
Proof.
  unfold rank_words.
  apply (sort_desc_sorted snd (precedes (Counter ws))).
  apply StronglySorted_filter, precedes_sorted.
Qed.

(** C5.  The term list is sorted by count, highest first; terms with the
    same count stand in the order of the items of the counter, which is the
    order in which they were first counted; and the list has at most
    [TOP_N_WORDS] entries. *)
Theorem find_frequent_words_ranked (markdown_files : list md_file) :
  let word_counts := Counter (all_words (scan_files markdown_files)) in
  StronglySorted (ranks_before word_counts) (find_frequent_words markdown_files)
  /\ length (find_frequent_words markdown_files) <= TOP_N_WORDS.
Proof.
  split.
  - apply StronglySorted_firstn, rank_words_sorted.
  - unfold find_frequent_words. rewrite length_firstn. apply Nat.le_min_l.
Qed.

(** ** The counter *)

Lemma text_eqb_sym (a b : text) : text_eqb a b = text_eqb b a.
Proof.
  destruct (text_eqb a b) eqn:E1, (text_eqb b a) eqn:E2; try reflexivity.
  - apply text_eqb_true in E1. subst. now rewrite text_eqb_refl in E2.
  - apply text_eqb_true in E2. subst. now rewrite text_eqb_refl in E1.
Qed.

Lemma text_eqb_false (a b : text) : text_eqb a b = false <-> a <> b.
Proof.
  split.
  - intros H ->. now rewrite text_eqb_refl in H.
  - intros H. destruct (text_eqb a b) eqn:E; [|reflexivity].
    now apply text_eqb_true in E.
Qed.

Lemma counter_get_incr_same (w : text) (c : list (text * nat)) :
  counter_get w (counter_incr w c) = S (counter_get w c).
Proof.
  induction c as [|[k n] c IH]; simpl.
  - now rewrite text_eqb_refl.
  - destruct (text_eqb k w) eqn:E; simpl; rewrite E; [reflexivity | exact IH].
Qed.

Lemma counter_get_incr_other (w w' : text) (c : list (text * nat)) :
  w <> w' -> counter_get w' (counter_incr w c) = counter_get w' c.
Proof.
  intros Hw. induction c as [|[k n] c IH]; simpl.
  - apply text_eqb_false in Hw. now rewrite Hw.
  - destruct (text_eqb k w) eqn:E; simpl.
    + apply text_eqb_true in E. subst k.
      apply text_eqb_false in Hw. now rewrite Hw.
    + destruct (text_eqb k w'); [reflexivity | exact IH].
Qed.

Lemma counter_get_fold (w : text) (ws : list text) (c : list (text * nat)) :
  counter_get w (fold_left (fun c w => counter_incr w c) ws c)
  = counter_get w c + occurrences w ws.
Proof.
  unfold occurrences. revert c; induction ws as [|x ws IH]; intros c; simpl.
  - lia.
  - rewrite IH. destruct (text_eqb w x) eqn:E.
    + apply text_eqb_true in E. subst x. rewrite counter_get_incr_same. simpl. lia.
    + apply text_eqb_false in E. rewrite counter_get_incr_other by congruence. lia.
Qed.

Lemma counter_get_Counter (w : text) (ws : list text) :
  counter_get w (Counter ws) = occurrences w ws.
Proof. unfold Counter. now rewrite counter_get_fold. Qed.

Lemma counter_incr_keys (w k : text) (c : list (text * nat)) :
  In k (map fst (counter_incr w c)) <-> k = w \/ In k (map fst c).
Proof.
  induction c as [|[k' n] c IH]; simpl.
  - intuition.
  - destruct (text_eqb k' w) eqn:E; simpl.
    + apply text_eqb_true in E. subst. intuition.
    + rewrite IH. intuition.
Qed.

Lemma counter_incr_wf (w : text) (c : list (text * nat)) :
  counter_wf c -> counter_wf (counter_incr w c).
Proof.
  intros [Hnd Hpos]. induction c as [|[k n] c IH]; simpl.
  - split; repeat constructor. intros [].
  - simpl in Hnd. inversion Hnd as [|? ? Hk Hnd']; subst.
    inversion Hpos as [|? ? Hn Hpos']; subst.
    destruct (text_eqb k w) eqn:E.
    + split; simpl; [exact Hnd|]. constructor; [simpl; lia | exact Hpos'].
    + destruct (IH Hnd' Hpos') as [IH1 IH2]. split; simpl.
      * constructor; [|exact IH1]. rewrite counter_incr_keys.
        intros [->|Hin]; [|contradiction].
        now rewrite text_eqb_refl in E.
      * now constructor.
Qed.

Lemma Counter_wf (ws : list text) : counter_wf (Counter ws).
Proof.
  unfold Counter.
  assert (H : forall c, counter_wf c ->
                counter_wf (fold_left (fun c w => counter_incr w c) ws c)).
  { induction ws as [|x ws IH]; intros c Hc; simpl; [exact Hc|].
    apply IH. now apply counter_incr_wf. }
  apply H. split; constructor.
Qed.

Lemma counter_get_In (w : text) (n : nat) (c : list (text * nat)) :
  counter_wf c -> (In (w, n) c <-> counter_get w c = n /\ 0 < n).
Proof.
  intros [Hnd Hpos]. induction c as [|[k m] c IH]; simpl.
  - split; [intros [] | lia].
  - simpl in Hnd. inversion Hnd as [|? ? Hk Hnd']; subst.
    inversion Hpos as [|? ? Hm Hpos']; subst. simpl in Hm.
    destruct (text_eqb k w) eqn:E.
    + apply text_eqb_true in E. subst k. split.
      * intros [[= ->]|Hin]; [lia|].
        exfalso. apply Hk. now apply (in_map fst) in Hin.
      * intros [-> _]. now left.
    + rewrite <- IH by assumption. split.
      * intros [[= -> ->]|Hin]; [now rewrite text_eqb_refl in E | exact Hin].
      * intros Hin. now right.
Qed.

(** An item of the counter is a word with the number of times it occurs. *)
Lemma Counter_In (w : text) (n : nat) (ws : list text) :
  In (w, n) (Counter ws) <-> n = occurrences w ws /\ 0 < n.
Proof.
  rewrite (counter_get_In w n (Counter ws) (Counter_wf ws)), counter_get_Counter.
  intuition.
Qed.

Lemma rank_words_In (w : text) (n : nat) (ws : list text) :
  In (w, n) (rank_words ws) <->
  n = occurrences w ws /\ MIN_FREQUENCY <= n.
Proof.
  unfold rank_words. rewrite sort_desc_In, filter_In, Counter_In.
  cbn [snd]. rewrite Nat.leb_le. unfold MIN_FREQUENCY. intuition lia.
Qed.

(** C6.  A term that occurs [MIN_FREQUENCY - 1] times is in no entry of
    the term list.  A term that occurs [MIN_FREQUENCY] times is in the
    ranked list with that count, and is in the term list at the same place
    when that place is among the first [TOP_N_WORDS]. *)
Theorem minimum_frequency_boundary (markdown_files : list md_file) (w : text) :
  let ws := all_words (scan_files markdown_files) in
  (occurrences w ws = MIN_FREQUENCY - 1 ->
   forall n, ~ In (w, n) (find_frequent_words markdown_files))
  /\ (occurrences w ws = MIN_FREQUENCY ->
      In (w, MIN_FREQUENCY) (rank_words ws)
      /\ forall i, nth_error (rank_words ws) i = Some (w, MIN_FREQUENCY) ->
                   i < TOP_N_WORDS ->
                   nth_error (find_frequent_words markdown_files) i
                   = Some (w, MIN_FREQUENCY)).
Proof.
  intros ws. split.
  - intros Hocc n Hin. unfold find_frequent_words in Hin. fold ws in Hin.
    assert (Hr : In (w, n) (rank_words ws)).
    { rewrite <- (firstn_skipn TOP_N_WORDS (rank_words ws)).
      apply in_or_app. now left. }
    apply rank_words_In in Hr as [-> Hn]. unfold MIN_FREQUENCY in *. lia.
  - intros Hocc. split.
    + apply rank_words_In. split; [now rewrite Hocc | lia].
    + intros i Hi Hlt. unfold find_frequent_words. fold ws.
      now rewrite nth_error_firstn, (proj2 (Nat.ltb_lt i TOP_N_WORDS) Hlt).
Qed.

Lemma minimum_frequency_boundary_witness :
  occurrences (txt "perro") (all_words (scan_files sample_corpus)) = MIN_FREQUENCY - 1
  /\ occurrences (txt "casa") (all_words (scan_files sample_corpus)) = MIN_FREQUENCY
  /\ (forall n, ~ In (txt "perro", n) (find_frequent_words sample_corpus))
  /\ nth_error (find_frequent_words sample_corpus) 0 = Some (txt "casa", MIN_FREQUENCY).
Proof.
  split; [reflexivity|]. split; [reflexivity|]. split.
  - apply (proj1 (minimum_frequency_boundary sample_corpus (txt "perro"))).
    reflexivity.
  - apply (proj2 (minimum_frequency_boundary sample_corpus (txt "casa")));
      [reflexivity | reflexivity | unfold TOP_N_WORDS; lia].
Defined.

(** ** Unreadable files *)

Lemma scan_files_fold (fs : list md_file) (st : scan_state) :
  fold_left scan_file fs st =
  ScanState
    (all_words st ++ all_words (fold_left scan_file fs (ScanState [] [])))
    (errors st ++ errors (fold_left scan_file fs (ScanState [] []))).
Proof.
  revert st; induction fs as [|f fs IH]; intros [ws es]; simpl.
  - now rewrite !app_nil_r.
  - rewrite IH. rewrite (IH (scan_file _ f)).
    unfold scan_file. destruct (read_text f); simpl;
      now rewrite ?app_nil_r, <- ?app_assoc.
Qed.

Lemma scan_files_cons (f : md_file) (fs : list md_file) :
  scan_files (f :: fs) =
  match read_text f with
  | ReadOk content =>
      ScanState (extract_words (extract_body_text content) ++ all_words (scan_files fs))
                (errors (scan_files fs))
  | ReadError e =>
      ScanState (all_words (scan_files fs)) ((name f, e) :: errors (scan_files fs))
  end.
Proof.
  unfold scan_files. simpl. rewrite scan_files_fold.
  unfold scan_file. now destruct (read_text f).
Qed.

Lemma scan_files_readable (fs : list md_file) :
  all_words (scan_files fs) = all_words (scan_files (filter is_readable fs))
  /\ errors (scan_files fs) = flat_map failure_of fs
  /\ errors (scan_files (filter is_readable fs)) = [].
Proof.
  induction fs as [|f fs (IH1 & IH2 & IH3)]; [now repeat split|].
  cbn [filter flat_map]. rewrite scan_files_cons.
  destruct (read_text f) as [content|e] eqn:E.
  - assert (Hr : is_readable f = true) by (unfold is_readable; now rewrite E).
    assert (Hf : failure_of f = []) by (unfold failure_of; now rewrite E).
    rewrite Hr, Hf, scan_files_cons, E. simpl. repeat split; congruence.
  - assert (Hr : is_readable f = false) by (unfold is_readable; now rewrite E).
    assert (Hf : failure_of f = [(name f, e)]) by (unfold failure_of; now rewrite E).
    rewrite Hr, Hf. simpl. repeat split; congruence.
Qed.

(** C8.  The term list of a corpus is the term list of its readable files;
    each unreadable file leaves one entry in the recorded failures and
    nothing else; the analyzer is a total function, so no failure stops
    it. *)
Theorem find_frequent_words_skips_unreadable (markdown_files : list md_file) :
  find_frequent_words markdown_files
  = find_frequent_words (filter is_readable markdown_files)
  /\ all_words (scan_files markdown_files)
     = flat_map (fun f => match read_text f with
                          | ReadOk content => extract_words (extract_body_text content)
                          | ReadError _ => []
                          end) markdown_files
  /\ errors (scan_files markdown_files) = flat_map failure_of markdown_files.
Proof.
  destruct (scan_files_readable markdown_files) as (H1 & H2 & _).
  split; [|split].
  - unfold find_frequent_words. now rewrite H1.
  - clear. induction markdown_files as [|f fs IH]; [reflexivity|].
    rewrite scan_files_cons. cbn [flat_map].
    destruct (read_text f); simpl; now rewrite IH.
  - exact H2.
Qed.

Example find_frequent_words_sample :
  find_frequent_words sample_corpus = [(txt "casa", 2)]
  /\ errors (scan_files sample_corpus) = [(txt "b.md", txt "invalid start byte")].
Proof. split; reflexivity. Qed.

(** ** Character tables *)

Ltac all_chars c :=
  destruct c as [[] [] [] [] [] [] [] []]; vm_compute; try reflexivity; try discriminate.

Lemma char_lower_idem (c : ascii) : char_lower (char_lower c) = char_lower c.
Proof. all_chars c. Qed.

Lemma char_isword_lower (c : ascii) : char_isword (char_lower c) = char_isword c.
Proof. all_chars c. Qed.

Lemma char_isword_not_space (c : ascii) :
  char_isword c = true -> char_isspace c = false.
Proof. all_chars c. Qed.


Lemma lbracket_not_word : char_isword "[" = false.
Proof. reflexivity. Qed.

Lemma rbracket_not_word : char_isword "]" = false.
Proof. reflexivity. Qed.

(** ** The tokens of [re.findall] *)

Lemma span_word_firstn (s : text) :
  forallb char_isword (firstn (span_word s) s) = true.
Proof.
  induction s as [|c s IH]; simpl; [reflexivity|].
  destruct (char_isword c) eqn:E; simpl; [now rewrite E | reflexivity].
Qed.

(** A token is a non-empty run of word characters of the text. *)
Lemma findall_go_tokens (pre s : text) :
  Forall (fun t => t <> [] /\ forallb char_isword t = true /\ incl t s)
         (findall_go pre s).
Proof.
  funelim (findall_go pre s).
  - constructor.
  - apply andb_true_iff in Heq as [_ Hc]. constructor.
    + split; [discriminate|]. split.
      * simpl. now rewrite Hc, span_word_firstn.
      * intros x [<-|Hx]; [now left | right].
        rewrite <- (firstn_skipn (span_word s') s'). apply in_or_app. now left.
    + eapply Forall_impl; [|exact H]. intros t (H1 & H2 & H3).
      repeat split; try assumption.
      intros x Hx. right. rewrite <- (firstn_skipn (span_word s') s').
      apply in_or_app. right. now apply H3.
  - eapply Forall_impl; [|exact H]. intros t (H1 & H2 & H3).
    repeat split; try assumption. intros x Hx. right. now apply H3.
Qed.

(** ** Normalization leaves a token of a lowered text as it is *)

Lemma str_lower_fixed (t : text) :
  (forall c, In c t -> char_lower c = c) -> str_lower t = t.
Proof.
  intros H. unfold str_lower. rewrite <- (map_id t) at 2.
  apply map_ext_in. exact H.
Qed.

Lemma lstrip_word (t : text) :
  isword_opt (hd_error t) = true -> lstrip t = t.
Proof.
  destruct t as [|c t]; simpl; [discriminate|].
  intros H. now rewrite (char_isword_not_space c H).
Qed.

Lemma drop_nonword_word (t : text) :
  isword_opt (hd_error t) = true -> drop_nonword t = t.
Proof. destruct t as [|c t]; simpl; [discriminate|]. now intros ->. Qed.

Lemma forallb_word_hd (t : text) :
  t <> [] -> forallb char_isword t = true -> isword_opt (hd_error t) = true.
Proof.
  destruct t as [|c t]; [congruence|]. simpl. intros _ H.
  now apply andb_true_iff in H as [H _].
Qed.

Lemma forallb_word_last (t : text) :
  t <> [] -> forallb char_isword t = true -> isword_opt (hd_error (rev t)) = true.
Proof.
  intros Hne H. apply forallb_word_hd.
  - intros Hr. apply Hne. apply (f_equal (@rev ascii)) in Hr.
    now rewrite rev_involutive in Hr.
  - rewrite forallb_forall in *. intros x Hx. apply H. now apply in_rev.
Qed.

Lemma str_strip_word (t : text) :
  t <> [] -> forallb char_isword t = true -> str_strip t = t.
Proof.
  intros Hne H. unfold str_strip.
  rewrite (lstrip_word t) by now apply forallb_word_hd.
  rewrite lstrip_word by now apply forallb_word_last.
  apply rev_involutive.
Qed.

Lemma re_sub_trailing_nonword_word (t : text) :
  t <> [] -> forallb char_isword t = true -> re_sub_trailing_nonword t = t.
Proof.
  intros Hne H. unfold re_sub_trailing_nonword.
  rewrite drop_nonword_word by now apply forallb_word_last.
  apply rev_involutive.
Qed.

Lemma normalize_word_token (s t : text) :
  In t (re_findall_words (str_lower s)) -> normalize_word t = t.
Proof.
  intros Hin. unfold re_findall_words in Hin.
  pose proof (findall_go_tokens [] (str_lower s)) as Hall.
  rewrite Forall_forall in Hall. destruct (Hall t Hin) as (Hne & Hw & Hincl).
  unfold normalize_word. rewrite (str_lower_fixed t).
  - rewrite str_strip_word by assumption.
    now apply re_sub_trailing_nonword_word.
  - intros c Hc. apply Hincl in Hc. unfold str_lower in Hc.
    apply in_map_iff in Hc as (c' & <- & _). apply char_lower_idem.
Qed.

Lemma extract_words_loop (f : text -> text) (words acc : list text) :
  fold_left
    (fun filtered word =>
       let normalized := f word in
       if keep_word normalized then filtered ++ [normalized] else filtered)
    words acc
  = acc ++ filter keep_word (map f words).
Proof.
  revert acc; induction words as [|w words IH]; intros acc; simpl.
  - now rewrite app_nil_r.
  - rewrite IH. destruct (keep_word (f w)); [|reflexivity].
    now rewrite <- app_assoc.
Qed.

Lemma extract_words_filter (s : text) :
  extract_words s = filter keep_word (re_findall_words (str_lower s)).
Proof.
  unfold extract_words. rewrite (extract_words_loop normalize_word). simpl.
  f_equal. rewrite <- (map_id (re_findall_words (str_lower s))) at 2.
  apply map_ext_in. intros t Ht. now apply (normalize_word_token s).
Qed.

Lemma in_stopwords_spec (w : text) : in_stopwords w = true <-> In w STOPWORDS.
Proof.
  unfold in_stopwords. rewrite existsb_exists. split.
  - intros (x & Hx & E). apply text_eqb_true in E. now subst.
  - intros H. exists w. split; [exact H | apply text_eqb_refl].
Qed.

(** C7.  The terms are the tokens of the lowered text that pass the three
    tests, in the order of the text and as often as they occur; each of
    them is a run of word characters of the lowered text, is its own
    lowercase form, has no trailing non-word character left to strip, has
    at least [MIN_WORD_LENGTH] characters, all of them alphabetic, and is
    not a stopword. *)
Theorem extract_words_spec (s : text) :
  extract_words s = filter keep_word (re_findall_words (str_lower s))
  /\ Forall (fun w =>
               In w (re_findall_words (str_lower s))
               /\ w <> [] /\ forallb char_isword w = true
               /\ str_lower w = w
               /\ re_sub_trailing_nonword w = w
               /\ normalize_word w = w
               /\ MIN_WORD_LENGTH <= length w
               /\ forallb char_isalpha w = true
               /\ ~ In w STOPWORDS)
            (extract_words s).
Proof.
  split; [apply extract_words_filter|].
  rewrite extract_words_filter. apply Forall_forall. intros w Hw.
  apply filter_In in Hw as [Hin Hk].
  pose proof (findall_go_tokens [] (str_lower s)) as Hall.
  rewrite Forall_forall in Hall. destruct (Hall w Hin) as (Hne & Hword & Hincl).
  unfold keep_word in Hk.
  apply andb_true_iff in Hk as [Hk Halpha].
  apply andb_true_iff in Hk as [Hlen Hstop].
  apply Nat.leb_le in Hlen. apply negb_true_iff in Hstop.
  repeat split; try assumption.
  - apply str_lower_fixed. intros c Hc. apply Hincl in Hc. unfold str_lower in Hc.
    apply in_map_iff in Hc as (c' & <- & _). apply char_lower_idem.
  - now apply re_sub_trailing_nonword_word.
  - now apply (normalize_word_token s).
  - unfold str_isalpha in Halpha. destruct w; [congruence | exact Halpha].
  - intros Hs. apply in_stopwords_spec in Hs. congruence.
Qed.

Example extract_words_sample :
  extract_words (txt "The Sistema, sistema. x_data 1234 abcd9 Casa para idea REDES")
  = [txt "sistema"; txt "sistema"; txt "casa"; txt "redes"].
Proof. reflexivity. Qed.

(** ** Contexts of a match *)

Lemma last_char_snoc (pre : text) (c : ascii) : last_char (pre ++ [c]) = Some c.
Proof. unfold last_char. now rewrite rev_app_distr. Qed.

Lemma last_char_app (pre o : text) : o <> [] -> last_char (pre ++ o) = last_char o.
Proof.
  intros Ho. destruct (exists_last Ho) as (o' & c & ->).
  now rewrite app_assoc, !last_char_snoc.
Qed.

Lemma last_char_nil : last_char [] = None.
Proof. reflexivity. Qed.

Lemma guarded_unfold (pre post : text) :
  guarded pre post = ends_open pre || starts_close post.
Proof. reflexivity. Qed.

Lemma contains_short (p l : text) :
  length p = 2 -> length l <= 2 -> contains p l = true -> l = p.
Proof.
  destruct p as [|p1 [|p2 [|? ?]]]; try discriminate. intros _.
  destruct l as [|a [|b [|? ?]]]; simpl; intros Hl; try lia;
    rewrite ?andb_false_r, ?orb_false_r; try discriminate.
  - rewrite !andb_true_r. intros H. apply andb_true_iff in H as [H1 H2].
    apply ascii_eqb_true in H1, H2. congruence.
Qed.

Lemma ends_open_true (pre : text) :
  ends_open pre = true <-> exists p, pre = p ++ txt "[[".
Proof.
  unfold ends_open. split.
  - intros H. apply contains_short in H; [|reflexivity|rewrite length_skipn; lia].
    exists (firstn (length pre - 2) pre). rewrite <- H. now rewrite firstn_skipn.
  - intros [p ->]. rewrite length_app. simpl length.
    replace (length p + 2 - 2) with (length p) by lia.
    now rewrite skipn_app, skipn_all, Nat.sub_diag.
Qed.

Lemma starts_close_true (post : text) :
  starts_close post = true <-> exists q, post = txt "]]" ++ q.
Proof.
  unfold starts_close. split.
  - intros H. apply contains_short in H; [|reflexivity|rewrite length_firstn; lia].
    exists (skipn 2 post). rewrite <- H. now rewrite firstn_skipn.
  - intros [q ->]. reflexivity.
Qed.

Lemma ends_open_snoc2 (pre : text) : ends_open (pre ++ txt "[[") = true.
Proof. apply ends_open_true. now exists pre. Qed.

Lemma ends_open_last (pre : text) :
  ends_open pre = true -> last_char pre = Some "["%char.
Proof.
  intros H. apply ends_open_true in H as [p ->].
  change (txt "[[") with (["["%char] ++ ["["%char]).
  now rewrite app_assoc, last_char_snoc.
Qed.

Lemma ends_open_snoc (pre : text) (d : ascii) :
  ends_open (pre ++ [d]) = true <->
  d = "["%char /\ last_char pre = Some "["%char.
Proof.
  rewrite ends_open_true. split.
  - intros [p H]. change (txt "[[") with (["["%char] ++ ["["%char]) in H.
    rewrite app_assoc in H. apply app_inj_tail in H as [-> <-].
    split; [reflexivity | apply last_char_snoc].
  - intros [-> H]. unfold last_char in H.
    destruct (rev pre) as [|x l] eqn:E; [discriminate|]. injection H as ->.
    exists (rev l). apply (f_equal (@rev ascii)) in E.
    rewrite rev_involutive in E. rewrite E. simpl.
    now rewrite <- app_assoc.
Qed.

(** ** Word terms *)

Lemma is_word_term_true (w : text) :
  is_word_term w = true <-> w <> [] /\ forallb char_isword w = true.
Proof.
  destruct w as [|x w]; simpl.
  - split; [discriminate | intros [H _]; congruence].
  - split; [intros H; split; [discriminate | exact H] | now intros [_ H]].
Qed.

Lemma char_ci_eqb_word (a b : ascii) :
  char_ci_eqb a b = true -> char_isword b = char_isword a.
Proof.
  unfold char_ci_eqb. intros H. apply ascii_eqb_true in H.
  now rewrite <- (char_isword_lower a), <- (char_isword_lower b), H.
Qed.

Lemma match_literal_ci_app (w s t : text) :
  length w <= length s -> match_literal_ci w (s ++ t) = match_literal_ci w s.
Proof.
  revert s; induction w as [|x w IH]; intros [|y s]; simpl; intros H;
    try reflexivity; try lia.
  rewrite IH by lia. reflexivity.
Qed.

(** A word term that matches in front of a separator covers the whole run
    of word characters. *)
Lemma match_literal_ci_run (w o tail : text) :
  w <> [] -> forallb char_isword w = true ->
  forallb char_isword o = true ->
  isword_opt (hd_error tail) = false ->
  match_literal_ci w (o ++ tail) = true ->
  isword_opt (hd_error (skipn (length w) (o ++ tail))) = false ->
  length w = length o.
Proof.
  revert o; induction w as [|x w IH]; intros o Hne Hw Ho Ht Hm Ha; [congruence|].
  simpl in Hw. apply andb_true_iff in Hw as [Hx Hw].
  destruct o as [|y o].
  - simpl in Hm. destruct tail as [|d tail]; [discriminate|].
    apply andb_true_iff in Hm as [Hm _]. apply char_ci_eqb_word in Hm.
    simpl in Ht. congruence.
  - simpl in Hm. apply andb_true_iff in Hm as [_ Hm].
    simpl in Ho. apply andb_true_iff in Ho as [Hy Ho].
    simpl in Ha. destruct w as [|x' w].
    + simpl in Ha. destruct o as [|z o]; [reflexivity|].
      simpl in Ha, Ho. apply andb_true_iff in Ho as [Hz _]. congruence.
    + simpl. f_equal. apply IH; try assumption. discriminate.
Qed.

Lemma match_literal_ci_last (w s pre : text) :
  w <> [] -> forallb char_isword w = true ->
  match_literal_ci w s = true ->
  isword_opt (last_char (pre ++ firstn (length w) s)) = true.
Proof.
  revert s pre; induction w as [|x w IH]; intros s pre Hne Hw Hm; [congruence|].
  simpl in Hw. apply andb_true_iff in Hw as [Hx Hw].
  destruct s as [|y s]; [discriminate|]. simpl in Hm.
  apply andb_true_iff in Hm as [Hxy Hm]. apply char_ci_eqb_word in Hxy.
  destruct w as [|x' w].
  - simpl. rewrite last_char_snoc. simpl. congruence.
  - change (pre ++ firstn (length (x :: x' :: w)) (y :: s))
      with (pre ++ [y] ++ firstn (length (x' :: w)) s).
    rewrite app_assoc. apply IH; try assumption. discriminate.
Qed.

(** The pattern of a word term, spelled out. *)
Lemma match_word_pattern_word (w pre rest : text) :
  is_word_term w = true ->
  match_word_pattern w pre rest =
  negb (isword_opt (last_char pre))
  && match_literal_ci w rest
  && negb (isword_opt (hd_error (skipn (length w) rest))).
Proof.
  intros Hw. apply is_word_term_true in Hw as [Hne Hw].
  unfold match_word_pattern.
  destruct (match_literal_ci w rest) eqn:Hm;
    [|now rewrite !andb_false_r].
  rewrite !andb_true_r. unfold at_boundary.
  rewrite (match_literal_ci_last w rest pre Hne Hw Hm).
  destruct w as [|x w]; [congruence|]. destruct rest as [|y s]; [discriminate|].
  simpl in Hm, Hw. apply andb_true_iff in Hm as [Hxy _].
  apply andb_true_iff in Hw as [Hx _]. apply char_ci_eqb_word in Hxy.
  cbn [hd_error isword_opt]. rewrite Hxy, Hx.
  now destruct (isword_opt (last_char pre)), (isword_opt _).
Qed.

Lemma match_word_pattern_token (w pre o tail : text) :
  is_word_term w = true ->
  forallb char_isword o = true ->
  isword_opt (hd_error tail) = false ->
  match_word_pattern w pre (o ++ tail) =
  negb (isword_opt (last_char pre)) && ci_equal w o.
Proof.
  intros Hw Ho Ht. rewrite match_word_pattern_word by assumption.
  apply is_word_term_true in Hw as [Hne Hw]. unfold ci_equal.
  destruct (isword_opt (last_char pre)); [reflexivity|]. cbn [negb andb].
  destruct (Nat.eqb_spec (length w) (length o)) as [E|E].
  - rewrite match_literal_ci_app by lia.
    rewrite E, skipn_app, skipn_all, Nat.sub_diag. cbn [skipn app].
    rewrite Ht. now rewrite andb_true_r.
  - cbn [andb].
    destruct (match_literal_ci w (o ++ tail)) eqn:Hm; [|reflexivity].
    destruct (isword_opt (hd_error (skipn (length w) (o ++ tail)))) eqn:Ha;
      [reflexivity|].
    exfalso. apply E. now apply (match_literal_ci_run w o tail).
Qed.

(** ** The substitution of a word term, token by token *)

Lemma sub_go_nil_word (w pre : text) : is_word_term w = true -> sub_go w pre [] = [].
Proof.
  intros Hw. rewrite sub_go_nil, match_word_pattern_word by assumption.
  destruct w; [discriminate|]. now rewrite andb_false_r.
Qed.

Lemma match_word_pattern_sep (w pre : text) (d : ascii) (r : text) :
  is_word_term w = true -> char_isword d = false ->
  match_word_pattern w pre (d :: r) = false.
Proof.
  intros Hw Hd. rewrite match_word_pattern_word by assumption.
  destruct w as [|x w]; [discriminate|]. simpl in Hw.
  apply andb_true_iff in Hw as [Hx _]. simpl.
  destruct (char_ci_eqb x d) eqn:E; [|now rewrite andb_false_r].
  apply char_ci_eqb_word in E. congruence.
Qed.

Lemma match_word_pattern_inside (w pre rest : text) :
  is_word_term w = true -> isword_opt (last_char pre) = true ->
  match_word_pattern w pre rest = false.
Proof.
  intros Hw Hp. rewrite match_word_pattern_word by assumption. now rewrite Hp.
Qed.

Lemma sub_go_sep (w pre : text) (d : ascii) (r : text) :
  is_word_term w = true -> char_isword d = false ->
  sub_go w pre (d :: r) = d :: sub_go w (pre ++ [d]) r.
Proof. intros Hw Hd. apply sub_go_nomatch. now apply match_word_pattern_sep. Qed.

Lemma sub_go_run (w o post pre : text) :
  is_word_term w = true ->
  forallb char_isword o = true ->
  isword_opt (last_char pre) = true ->
  sub_go w pre (o ++ post) = o ++ sub_go w (pre ++ o) post.
Proof.
  intros Hw. revert pre; induction o as [|c o IH]; intros pre Ho Hp.
  - now rewrite app_nil_r.
  - simpl in Ho. apply andb_true_iff in Ho as [Hc Ho]. simpl.
    rewrite sub_go_nomatch by now apply match_word_pattern_inside.
    rewrite IH; [|assumption|now rewrite last_char_snoc].
    now rewrite <- app_assoc.
Qed.

Lemma sub_go_token (w pre o post : text) :
  is_word_term w = true ->
  o <> [] -> forallb char_isword o = true ->
  isword_opt (hd_error post) = false ->
  isword_opt (last_char pre) = false ->
  sub_go w pre (o ++ post) =
  (if ci_equal w o && negb (guarded pre post)
   then txt "[[" ++ o ++ txt "]]" else o)
  ++ sub_go w (pre ++ o) post.
Proof.
  intros Hw Hne Ho Hpost Hpre.
  pose proof (match_word_pattern_token w pre o post Hw Ho Hpost) as Hm.
  rewrite Hpre in Hm. cbn [negb andb] in Hm.
  destruct (ci_equal w o) eqn:E.
  - assert (Hl : length w = length o).
    { unfold ci_equal in E. apply andb_true_iff in E as [E _].
      now apply Nat.eqb_eq in E. }
    rewrite sub_go_step; [|destruct w; [discriminate|discriminate]|exact Hm].
    rewrite Hl, firstn_app, firstn_all, Nat.sub_diag, firstn_O, app_nil_r.
    rewrite skipn_app, skipn_all, Nat.sub_diag. cbn [skipn app andb].
    now destruct (guarded pre post).
  - cbn [andb]. destruct o as [|c o]; [congruence|].
    simpl in Ho. apply andb_true_iff in Ho as [Hc Ho]. simpl.
    rewrite sub_go_nomatch by exact Hm.
    rewrite sub_go_run; [|assumption|assumption|now rewrite last_char_snoc].
    now rewrite <- app_assoc.
Qed.

(** ** Induction over the tokens of a text *)

Lemma span_word_skipn (s : text) :
  isword_opt (hd_error (skipn (span_word s) s)) = false.
Proof.
  induction s as [|c s IH]; simpl; [reflexivity|].
  destruct (char_isword c) eqn:E; simpl; [exact IH | exact E].
Qed.

Lemma token_ind (P : text -> Prop) :
  P [] ->
  (forall d r, char_isword d = false -> P r -> P (d :: r)) ->
  (forall o post, o <> [] -> forallb char_isword o = true ->
                  isword_opt (hd_error post) = false -> P post -> P (o ++ post)) ->
  forall s, P s.
Proof.
  intros Hnil Hsep Htok s.
  assert (H : forall n s, length s <= n -> P s).
  { clear s. induction n as [|n IH]; intros [|c s] Hl; try exact Hnil;
      [simpl in Hl; lia|].
    simpl in Hl. destruct (char_isword c) eqn:E.
    - rewrite <- (firstn_skipn (span_word s) s).
      change (c :: firstn (span_word s) s ++ skipn (span_word s) s)
        with ((c :: firstn (span_word s) s) ++ skipn (span_word s) s).
      apply Htok.
      + discriminate.
      + simpl. now rewrite E, span_word_firstn.
      + apply span_word_skipn.
      + apply IH. rewrite length_skipn. lia.
    - apply Hsep; [exact E|]. apply IH. lia. }
  now apply (H (length s)).
Qed.

(** ** Guarded matches *)

Lemma all_guarded_nil (w pre : text) : w <> [] -> all_guarded w pre [].
Proof.
  intros Hw a b H Hm. symmetry in H. apply app_eq_nil in H as [-> ->].
  apply match_word_pattern_length in Hm. destruct w; [congruence|].
  simpl in Hm. lia.
Qed.

Lemma all_guarded_cons (w pre : text) (c : ascii) (r : text) :
  (match_word_pattern w pre (c :: r) = true ->
   guarded pre (skipn (length w) (c :: r)) = true) ->
  all_guarded w (pre ++ [c]) r ->
  all_guarded w pre (c :: r).
Proof.
  intros H0 Hr [|x a] b H Hm.
  - simpl in H. subst b. rewrite app_nil_r in *. now apply H0.
  - simpl in H. injection H as <- ->.
    change (pre ++ c :: a) with (pre ++ [c] ++ a) in *.
    rewrite app_assoc in *. now apply (Hr a b).
Qed.

Lemma all_guarded_cons_inv (w pre : text) (c : ascii) (r : text) :
  all_guarded w pre (c :: r) -> all_guarded w (pre ++ [c]) r.
Proof.
  intros H a b -> Hm. rewrite <- app_assoc in *.
  now apply (H (c :: a) b).
Qed.

Lemma all_guarded_app_inv (w pre o r : text) :
  all_guarded w pre (o ++ r) -> all_guarded w (pre ++ o) r.
Proof.
  revert pre; induction o as [|c o IH]; intros pre H.
  - now rewrite app_nil_r.
  - simpl in H. apply all_guarded_cons_inv in H. apply IH in H.
    now rewrite <- app_assoc in H.
Qed.

Lemma all_guarded_sep (w pre : text) (d : ascii) (r : text) :
  is_word_term w = true -> char_isword d = false ->
  all_guarded w (pre ++ [d]) r -> all_guarded w pre (d :: r).
Proof.
  intros Hw Hd Hr. apply all_guarded_cons; [|exact Hr].
  now rewrite match_word_pattern_sep.
Qed.

Lemma all_guarded_run (w pre o r : text) :
  is_word_term w = true ->
  forallb char_isword o = true ->
  isword_opt (last_char pre) = true ->
  all_guarded w (pre ++ o) r -> all_guarded w pre (o ++ r).
Proof.
  intros Hw. revert pre; induction o as [|c o IH]; intros pre Ho Hp Hr.
  - now rewrite app_nil_r in Hr.
  - simpl in Ho. apply andb_true_iff in Ho as [Hc Ho]. simpl.
    apply all_guarded_cons.
    + now rewrite match_word_pattern_inside.
    + apply IH; [assumption|now rewrite last_char_snoc|].
      now rewrite <- app_assoc.
Qed.

Lemma all_guarded_token (w pre o tail : text) :
  is_word_term w = true ->
  o <> [] -> forallb char_isword o = true ->
  (match_word_pattern w pre (o ++ tail) = true ->
   guarded pre (skipn (length w) (o ++ tail)) = true) ->
  all_guarded w (pre ++ o) tail ->
  all_guarded w pre (o ++ tail).
Proof.
  intros Hw Hne Ho H0 Hr. destruct o as [|c o]; [congruence|].
  simpl in Ho. apply andb_true_iff in Ho as [Hc Ho]. simpl.
  apply all_guarded_cons; [exact H0|].
  apply all_guarded_run; [assumption|assumption|now rewrite last_char_snoc|].
  now rewrite <- app_assoc.
Qed.

(** A text in which every match is guarded is left as it is. *)
Lemma sub_go_inert (w : text) :
  w <> [] ->
  forall rest pre, all_guarded w pre rest -> sub_go w pre rest = rest.
Proof.
  intros Hw rest.
  assert (H : forall n rest pre, length rest <= n ->
                all_guarded w pre rest -> sub_go w pre rest = rest).
  { clear rest. induction n as [|n IH]; intros rest pre Hl Hg.
    - destruct rest; [|simpl in Hl; lia]. rewrite sub_go_nil.
      destruct (match_word_pattern w pre []) eqn:E; [|reflexivity].
      apply match_word_pattern_length in E. destruct w; [congruence|].
      simpl in E. lia.
    - destruct rest as [|c r].
      + rewrite sub_go_nil.
        destruct (match_word_pattern w pre []) eqn:E; [|reflexivity].
        apply match_word_pattern_length in E. destruct w; [congruence|].
        simpl in E. lia.
      + destruct (match_word_pattern w pre (c :: r)) eqn:E.
        * rewrite sub_go_step by assumption.
          pose proof (Hg [] (c :: r) eq_refl) as Hg0.
          rewrite app_nil_r in Hg0. rewrite (Hg0 E).
          rewrite IH.
          -- apply firstn_skipn.
          -- rewrite length_skipn. simpl in *. destruct w; [congruence|].
             simpl. lia.
          -- apply all_guarded_app_inv. now rewrite firstn_skipn.
        * rewrite sub_go_nomatch by assumption. f_equal.
          apply IH; [simpl in Hl; lia|]. now apply all_guarded_cons_inv. }
  intros pre. now apply (H (length rest)).
Qed.

(** ** What a substitution leaves behind *)

Lemma last_char_word (pre o : text) :
  o <> [] -> forallb char_isword o = true ->
  isword_opt (last_char (pre ++ o)) = true.
Proof.
  intros Hne Ho. rewrite last_char_app by assumption.
  now apply forallb_word_last.
Qed.

Lemma sub_go_hd (w pre post : text) :
  is_word_term w = true ->
  isword_opt (hd_error post) = false ->
  isword_opt (hd_error (sub_go w pre post)) = false.
Proof.
  intros Hw Hp. destruct post as [|d post].
  - now rewrite sub_go_nil_word.
  - simpl in Hp. now rewrite sub_go_sep.
Qed.

Lemma sub_go_starts_close (w pre post : text) :
  is_word_term w = true ->
  starts_close post = true -> starts_close (sub_go w pre post) = true.
Proof.
  intros Hw H. apply starts_close_true in H as [q ->].
  change (txt "]]" ++ q) with ("]"%char :: "]"%char :: q).
  now rewrite !sub_go_sep.
Qed.

Lemma ci_equal_length (w o : text) : ci_equal w o = true -> length w = length o.
Proof.
  unfold ci_equal. intros H. apply andb_true_iff in H as [H _].
  now apply Nat.eqb_eq.
Qed.

(** After the substitution of [w], a match of [w'] is guarded when it was
    guarded before or was a match of [w] as well.  [pre] is what the scan
    has read and [pre'] what it has written. *)
Lemma sub_go_guarded (w w' : text) :
  is_word_term w = true -> is_word_term w' = true ->
  forall rest pre pre',
    (isword_opt (hd_error rest) = true ->
     isword_opt (last_char pre) = false /\ isword_opt (last_char pre') = false) ->
    (last_char pre = Some "["%char -> last_char pre' = Some "["%char) ->
    (ends_open pre = true -> ends_open pre' = true) ->
    (forall a b, rest = a ++ b ->
       match_word_pattern w' (pre ++ a) b = true ->
       guarded (pre ++ a) (skipn (length w') b) = true
       \/ match_word_pattern w (pre ++ a) b = true) ->
    all_guarded w' pre' (sub_go w pre rest).
Proof.
  intros Hw Hw'.
  assert (Hne' : w' <> []) by (intros ->; discriminate).
  intros rest. pattern rest. apply token_ind; clear rest;
    [|intros d r Hd IH|intros o post Hne Ho Hpost IH];
    intros pre pre' C1 C2 C3 Hyp.
  - rewrite sub_go_nil_word by assumption. now apply all_guarded_nil.
  - rewrite sub_go_sep by assumption.
    apply all_guarded_sep; [assumption|assumption|].
    apply IH.
    + intros _. now rewrite !last_char_snoc.
    + rewrite !last_char_snoc. auto.
    + rewrite !ends_open_snoc. intros [-> Hl]. auto.
    + intros a b -> Hm. rewrite <- app_assoc in *. now apply (Hyp (d :: a) b).
  - assert (Hhd : isword_opt (hd_error (o ++ post)) = true).
    { destruct o as [|c o]; [congruence|]. simpl in *.
      now apply andb_true_iff in Ho as [Hc _]. }
    destruct (C1 Hhd) as [Hp Hp'].
    rewrite sub_go_token by assumption.
    set (out := sub_go w (pre ++ o) post).
    assert (Hout : forall chunk, all_guarded w' (pre' ++ chunk) out).
    { intros chunk. apply IH.
      - rewrite Hpost. discriminate.
      - intros Hl. pose proof (last_char_word pre o Hne Ho) as Hlw.
        rewrite Hl in Hlw. discriminate.
      - intros He. apply ends_open_last in He.
        pose proof (last_char_word pre o Hne Ho) as Hlw.
        rewrite He in Hlw. discriminate.
      - intros a b -> Hm. rewrite <- app_assoc in *.
        apply (Hyp (o ++ a) b); [now rewrite app_assoc | exact Hm]. }
    destruct (ci_equal w o && negb (guarded pre post)) eqn:Ech.
    + change ((txt "[[" ++ o ++ txt "]]") ++ out)
        with ("["%char :: "["%char :: (o ++ txt "]]") ++ out).
      rewrite <- app_assoc.
      apply all_guarded_sep; [assumption|reflexivity|].
      apply all_guarded_sep; [assumption|reflexivity|].
      rewrite <- app_assoc. change ([ "["%char ] ++ [ "["%char ]) with (txt "[[").
      apply all_guarded_token; try assumption.
      * intros _. rewrite guarded_unfold, ends_open_snoc2. reflexivity.
      * change (txt "]]" ++ out) with ("]"%char :: "]"%char :: out).
        apply all_guarded_sep; [assumption|reflexivity|].
        apply all_guarded_sep; [assumption|reflexivity|].
        rewrite <- !app_assoc. change ([ "]"%char ] ++ [ "]"%char ]) with (txt "]]").
        exact (Hout (txt "[[" ++ o ++ txt "]]")).
    + apply all_guarded_token; try assumption; [|apply Hout].
      assert (Hoh : isword_opt (hd_error out) = false) by now apply sub_go_hd.
      rewrite match_word_pattern_token by assumption.
      rewrite Hp'. cbn [negb andb]. intros Hci.
      rewrite (ci_equal_length _ _ Hci), skipn_app, skipn_all, Nat.sub_diag.
      cbn [skipn app].
      assert (Hg : guarded pre post = true).
      { destruct (Hyp [] (o ++ post) eq_refl) as [Hg|Hm].
        - rewrite app_nil_r, match_word_pattern_token by assumption.
          now rewrite Hp.
        - rewrite app_nil_r in Hg.
          now rewrite (ci_equal_length _ _ Hci), skipn_app, skipn_all,
            Nat.sub_diag in Hg.
        - rewrite app_nil_r, match_word_pattern_token in Hm by assumption.
          rewrite Hp in Hm. cbn [negb andb] in Hm. rewrite Hm in Ech.
          cbn [andb] in Ech. now apply negb_false_iff in Ech. }
      rewrite guarded_unfold in *. apply orb_true_iff in Hg as [Hg|Hg].
      * now rewrite (C3 Hg).
      * unfold out. rewrite (sub_go_starts_close w (pre ++ o) post Hw Hg).
        apply orb_true_r.
Qed.

Lemma re_sub_word_guarded_self (w x : text) :
  is_word_term w = true -> all_guarded w [] (re_sub_word w x).
Proof.
  intros Hw. apply sub_go_guarded; try assumption; try discriminate.
  - intros _. now split.
  - intros a b _ Hm. now right.
Qed.

Lemma re_sub_word_guarded_other (w w' x : text) :
  is_word_term w = true -> is_word_term w' = true ->
  all_guarded w' [] x -> all_guarded w' [] (re_sub_word w x).
Proof.
  intros Hw Hw' Hg. apply sub_go_guarded; try assumption; try discriminate.
  - intros _. now split.
  - intros a b Hx Hm. left. now apply (Hg a b).
Qed.

Lemma fold_re_sub_guarded (ws : list text) (w' : text) :
  forallb is_word_term ws = true -> is_word_term w' = true ->
  forall m, all_guarded w' [] m \/ In w' ws ->
  all_guarded w' []
    (fold_left (fun modified_part word => re_sub_word word modified_part) ws m).
Proof.
  intros Hws Hw'. induction ws as [|w ws IH]; intros m H; simpl.
  - destruct H as [H|[]]. exact H.
  - simpl in Hws. apply andb_true_iff in Hws as [Hw Hws].
    apply IH; [exact Hws|].
    destruct H as [H|[->|H]].
    + left. now apply re_sub_word_guarded_other.
    + left. now apply re_sub_word_guarded_self.
    + now right.
Qed.

Lemma forallb_sort_desc {A : Type} (key : A -> nat) (f : A -> bool) (l : list A) :
  forallb f l = true -> forallb f (sort_desc key l) = true.
Proof.
  rewrite !forallb_forall. intros H x Hx. apply H.
  exact (proj1 (sort_desc_In key x l) Hx).
Qed.

(** After the annotation of a plain part every match of every term is
    guarded. *)
Lemma annotate_part_guarded (words : list text) (x : text) :
  forallb is_word_term words = true ->
  match_wikilink x = None ->
  forall w, In w words -> all_guarded w [] (annotate_part words x).
Proof.
  intros Hws Hx w Hw. unfold annotate_part. rewrite Hx.
  apply fold_re_sub_guarded.
  - now apply forallb_sort_desc.
  - rewrite forallb_forall in Hws. now apply Hws.
  - right. exact (proj2 (sort_desc_In _ w words) Hw).
Qed.

(** ** Guarded matches in a part of a text *)

Lemma hd_error_app_ne (s t : text) : s <> [] -> hd_error (s ++ t) = hd_error s.
Proof. now destruct s. Qed.

Lemma match_word_pattern_app (w p b t : text) :
  w <> [] ->
  isword_opt (hd_error t) = false ->
  match_word_pattern w p b = true ->
  match_word_pattern w p (b ++ t) = true.
Proof.
  intros Hw Ht Hm. pose proof (match_word_pattern_length _ _ _ Hm) as Hl.
  unfold match_word_pattern in *.
  apply andb_true_iff in Hm as [Hm H3]. apply andb_true_iff in Hm as [H1 H2].
  assert (Hb : b <> []) by (destruct b, w; simpl in *; try congruence; lia).
  rewrite match_literal_ci_app, H2 by assumption.
  unfold at_boundary in *. rewrite hd_error_app_ne, H1 by assumption.
  rewrite firstn_app, skipn_app.
  replace (length w - length b) with 0 by lia.
  rewrite firstn_O, app_nil_r. cbn [skipn andb].
  destruct (skipn (length w) b) as [|e s] eqn:E.
  - cbn [app]. rewrite Ht. cbn [hd_error isword_opt] in H3. exact H3.
  - exact H3.
Qed.

Lemma starts_close_app (s t : text) :
  (t = [] \/ exists r, t = "["%char :: r) ->
  starts_close (s ++ t) = true -> starts_close s = true.
Proof.
  intros Ht H. apply starts_close_true in H as [q H].
  apply starts_close_true.
  destruct s as [|e1 [|e2 s]].
  - destruct Ht as [->|[r ->]]; discriminate.
  - destruct Ht as [->|[r ->]]; discriminate.
  - exists s. injection H as -> ->. reflexivity.
Qed.

(** Guardedness goes over to a prefix that stands before an opening
    bracket or at the end. *)
Lemma all_guarded_prefix (w pre x1 x2 : text) :
  w <> [] ->
  (x2 = [] \/ exists r, x2 = "["%char :: r) ->
  all_guarded w pre (x1 ++ x2) -> all_guarded w pre x1.
Proof.
  intros Hw Hx2 H a b -> Hm.
  assert (Hw2 : isword_opt (hd_error x2) = false)
    by (destruct Hx2 as [->|[r ->]]; reflexivity).
  pose proof (match_word_pattern_length _ _ _ Hm) as Hl.
  pose proof (H a (b ++ x2) (eq_sym (app_assoc a b x2))
                (match_word_pattern_app w (pre ++ a) b x2 Hw Hw2 Hm)) as Hg.
  rewrite skipn_app in Hg. replace (length w - length b) with 0 in Hg by lia.
  cbn [skipn] in Hg. rewrite guarded_unfold in *.
  apply orb_true_iff in Hg as [Hg|Hg]; [now rewrite Hg|].
  apply starts_close_app in Hg; [|exact Hx2]. rewrite Hg. apply orb_true_r.
Qed.

Lemma ends_open_after_close (x1 a : text) :
  last_char x1 = Some "]"%char ->
  ends_open (x1 ++ a) = true -> ends_open a = true.
Proof.
  intros Hx H. destruct a as [|e a] using rev_ind.
  - rewrite app_nil_r in H. apply ends_open_last in H. congruence.
  - clear IHa. rewrite app_assoc in H. apply ends_open_snoc in H as [-> Hl].
    apply ends_open_snoc. split; [reflexivity|].
    destruct a as [|e' a] using rev_ind.
    + rewrite app_nil_r in Hl. congruence.
    + rewrite app_assoc, last_char_snoc in Hl. now rewrite last_char_snoc.
Qed.

(** Guardedness goes over to a suffix that stands after a closing
    bracket. *)
Lemma all_guarded_suffix (w x1 x2 : text) :
  w <> [] ->
  last_char x1 = Some "]"%char ->
  all_guarded w [] (x1 ++ x2) -> all_guarded w [] x2.
Proof.
  intros Hw Hx H a b -> Hm. cbn [app] in *.
  pose proof (match_word_pattern_length _ _ _ Hm) as Hl.
  assert (Hm' : match_word_pattern w (x1 ++ a) b = true).
  { unfold match_word_pattern in *.
    apply andb_true_iff in Hm as [Hm H3]. apply andb_true_iff in Hm as [H1 H2].
    rewrite H2. rewrite andb_true_r.
    assert (Hf : firstn (length w) b <> []).
    { destruct w; [congruence|]. destruct b; [simpl in Hl; lia|]. discriminate. }
    unfold at_boundary in *.
    rewrite <- app_assoc, (last_char_app x1 (a ++ firstn (length w) b))
      by (intros E; apply app_eq_nil in E as [_ E]; congruence).
    rewrite H3, andb_true_r.
    destruct a as [|e a] using rev_ind.
    - rewrite app_nil_r, Hx. exact H1.
    - rewrite app_assoc, last_char_snoc. now rewrite last_char_snoc in H1. }
  pose proof (H (x1 ++ a) b (app_assoc x1 a b)) as Hg. cbn [app] in Hg.
  specialize (Hg Hm'). rewrite guarded_unfold in *.
  apply orb_true_iff in Hg as [Hg|Hg]; [|rewrite Hg; apply orb_true_r].
  now rewrite (ends_open_after_close x1 a Hx Hg).
Qed.

(** ** Matches of the marker pattern in a concatenation *)

Lemma no_rbracket_app (u v : text) :
  no_rbracket (u ++ v) <-> no_rbracket u /\ no_rbracket v.
Proof. unfold no_rbracket. rewrite forallb_app. apply andb_true_iff. Qed.

(** The first closing bracket of a text is where it is. *)
Lemma first_rbracket_unique (u1 v1 u2 v2 : text) :
  no_rbracket u1 -> no_rbracket u2 ->
  u1 ++ "]"%char :: v1 = u2 ++ "]"%char :: v2 ->
  u1 = u2 /\ v1 = v2.
Proof.
  unfold no_rbracket. revert u2; induction u1 as [|a u1 IH]; intros [|b u2] H1 H2 E;
    simpl in *.
  - injection E as ->. now split.
  - injection E as <- _. apply andb_true_iff in H2 as [H2 _]. discriminate.
  - injection E as -> _. apply andb_true_iff in H1 as [H1 _]. discriminate.
  - injection E as -> E. apply andb_true_iff in H1 as [_ H1].
    apply andb_true_iff in H2 as [_ H2].
    destruct (IH u2 H1 H2 E) as [-> ->]. now split.
Qed.

Lemma match_wikilink_marker (c r : text) :
  c <> [] -> no_rbracket c ->
  match_wikilink (txt "[[" ++ c ++ txt "]]" ++ r) = Some (length c + 4).
Proof. intros Hc Hn. apply match_wikilink_Some. now exists c, r. Qed.

Lemma match_wikilink_app (s t : text) (n : nat) :
  match_wikilink s = Some n -> match_wikilink (s ++ t) = Some n.
Proof.
  intros H. apply match_wikilink_Some in H as (c & r & -> & Hc & Hn & ->).
  rewrite <- !app_assoc. now apply match_wikilink_marker.
Qed.

Lemma match_wikilink_split (s : text) (n : nat) :
  match_wikilink s = Some n ->
  exists c, firstn n s = txt "[[" ++ c ++ txt "]]" /\ c <> [] /\ no_rbracket c
            /\ n = length c + 4.
Proof.
  intros H. apply match_wikilink_Some in H as (c & r & -> & Hc & Hn & ->).
  exists c. repeat split; try assumption.
  replace (txt "[[" ++ c ++ txt "]]" ++ r) with ((txt "[[" ++ c ++ txt "]]") ++ r)
    by now rewrite <- !app_assoc.
  rewrite firstn_app.
  replace (length c + 4 - length (txt "[[" ++ c ++ txt "]]")) with 0
    by (rewrite !length_app; simpl; lia).
  rewrite firstn_O, app_nil_r. apply firstn_all2.
  rewrite !length_app. simpl. lia.
Qed.

(** A match that starts in [x] and ends after it ends with the marker that
    follows [x]. *)
Lemma match_wikilink_straddle (x c r : text) (n : nat) :
  c <> [] -> no_rbracket c ->
  match_wikilink (x ++ txt "[[" ++ c ++ txt "]]" ++ r) = Some n ->
  length x < n ->
  n = length x + length c + 4.
Proof.
  intros Hc Hn H Hlt.
  apply match_wikilink_Some in H as (c' & r' & E & Hc' & Hn' & ->).
  assert (El : exists l, txt "[[" ++ c' ++ txt "]]" = x ++ l
                         /\ txt "[[" ++ c ++ txt "]]" ++ r = l ++ r').
  { replace (txt "[[" ++ c' ++ txt "]]" ++ r')
      with ((txt "[[" ++ c' ++ txt "]]") ++ r') in E by now rewrite <- !app_assoc.
    apply app_eq_app in E as [l [[E1 E2]|[E1 E2]]].
    - apply (f_equal (@length ascii)) in E1. rewrite !length_app in E1.
      simpl in E1. lia.
    - exists l. split; [exact E1 | exact E2]. }
  destruct El as (l & E1 & E2).
  assert (Hl2 : exists l1, l = l1 ++ txt "]]" /\ txt "[[" ++ c' = x ++ l1).
  { destruct l as [|e l] using rev_ind.
    - apply (f_equal (@length ascii)) in E1. rewrite app_nil_r, !length_app in E1.
      simpl in E1. lia.
    - clear IHl. destruct l as [|e' l] using rev_ind.
      + simpl in E2. injection E2 as <- _.
        change (txt "[[" ++ c' ++ txt "]]") with (txt "[[" ++ c' ++ ["]"%char] ++ ["]"%char]) in E1.
        rewrite !app_assoc in E1. apply app_inj_tail in E1 as [_ E1]. discriminate.
      + clear IHl. exists l.
        change (txt "[[" ++ c' ++ txt "]]") with (txt "[[" ++ c' ++ ["]"%char] ++ ["]"%char]) in E1.
        rewrite !app_assoc in E1. apply app_inj_tail in E1 as [E1 <-].
        apply app_inj_tail in E1 as [E1 <-]. split.
        * now rewrite <- app_assoc.
        * exact E1. }
  destruct Hl2 as (l1 & -> & E3).
  assert (Hl1 : no_rbracket l1).
  { assert (Hx : no_rbracket (x ++ l1)).
    { rewrite <- E3. apply no_rbracket_app. split; [reflexivity | exact Hn']. }
    now apply no_rbracket_app in Hx. }
  rewrite <- app_assoc in E2.
  replace (txt "[[" ++ c ++ txt "]]" ++ r)
    with ((txt "[[" ++ c) ++ "]"%char :: "]"%char :: r) in E2
    by now rewrite <- app_assoc.
  change (l1 ++ txt "]]" ++ r') with (l1 ++ "]"%char :: "]"%char :: r') in E2.
  apply first_rbracket_unique in E2 as [E2 _];
    [|apply no_rbracket_app; split; [reflexivity | exact Hn]|exact Hl1].
  subst l1. apply (f_equal (@length ascii)) in E3.
  rewrite !length_app in E3. simpl in E3. lia.
Qed.

(** ** A settled text is a fixed point of the annotator *)

Lemma last_char_marker (p c : text) :
  last_char (p ++ txt "[[" ++ c ++ txt "]]") = Some "]"%char.
Proof.
  change (txt "]]") with (["]"%char] ++ ["]"%char]).
  now rewrite !app_assoc, last_char_snoc.
Qed.

Lemma match_wikilink_hd (c0 : ascii) (y : text) (n : nat) :
  match_wikilink (c0 :: y) = Some n -> c0 = "["%char.
Proof.
  intros H. apply match_wikilink_Some in H as (c & r & E & _).
  now injection E as ->.
Qed.

Section Settled.

Variable words : list text.
Hypothesis words_nonempty : forall w, In w words -> w <> [].

Lemma settled_after_inv (p y : text) :
  settled_after words p y ->
  (forall w, In w words -> all_guarded w [] (p ++ y))
  \/ exists x c r,
       y = x ++ txt "[[" ++ c ++ txt "]]" ++ r
       /\ (forall w, In w words -> all_guarded w [] (p ++ x))
       /\ c <> [] /\ no_rbracket c /\ settled_after words [] r.
Proof.
  intros [x Hg|x c r Hg Hc Hn Hr]; [now left|right].
  now exists x, c, r.
Qed.

Lemma match_wikilink_starts (y : text) (n : nat) :
  match_wikilink y = Some n -> exists y', y = "["%char :: y'.
Proof.
  intros H. apply match_wikilink_Some in H as (c & r & -> & _).
  eexists. reflexivity.
Qed.

Lemma split_go_settled (n : nat) :
  forall y acc, length y <= n ->
    settled_after words (rev acc) y ->
    Forall (inert_part words) (split_go acc y).
Proof.
  induction n as [|n IH]; intros y acc Hl Hs.
  - destruct y; [|simpl in Hl; lia]. rewrite split_go_nil.
    constructor; [|constructor]. right.
    apply settled_after_inv in Hs as [Hg|(x & c & r & E & _)].
    + now rewrite app_nil_r in Hg.
    + apply (f_equal (@length ascii)) in E. rewrite !length_app in E.
      simpl in E. lia.
  - destruct (match_wikilink y) as [L|] eqn:E.
    + rewrite (split_go_Some acc _ L E).
      pose proof (match_wikilink_bounds _ _ E) as HL.
      destruct (match_wikilink_starts _ _ E) as (y0 & Hy0).
      destruct (match_wikilink_split _ _ E) as (c' & Hf & Hc' & Hn' & _).
      apply settled_after_inv in Hs.
      constructor; [|constructor].
      * right. intros w Hw.
        assert (Hx : exists x, (forall w, In w words -> all_guarded w [] (rev acc ++ x))
                               /\ (x = [] \/ exists r, x = "["%char :: r)).
        { destruct Hs as [Hg|(x & c & r & Ex & Hg & _)].
          - exists y. split; [exact Hg | right; now exists y0].
          - exists x. split; [exact Hg|].
            destruct x as [|e x]; [now left|right].
            rewrite Hy0 in Ex. injection Ex as ->. now exists x. }
        destruct Hx as (x & Hg & Hx).
        apply (all_guarded_prefix w [] (rev acc) x); auto.
      * left. rewrite Hf.
        rewrite <- (app_nil_r (txt "[[" ++ c' ++ txt "]]")), <- !app_assoc.
        rewrite match_wikilink_marker by assumption. discriminate.
      * apply (IH _ []); [rewrite length_skipn; lia|].
        cbn [rev].
        destruct Hs as [Hg|(x & c & r & Ex & Hg & Hc & Hn & Hr)].
        -- apply settled_plain. intros w Hw. cbn [app].
           apply (all_guarded_suffix w (rev acc ++ firstn L y)).
           ++ auto.
           ++ rewrite Hf. apply last_char_marker.
           ++ rewrite <- app_assoc, firstn_skipn. auto.
        -- destruct (Nat.le_gt_cases L (length x)) as [Hle|Hgt].
           ++ rewrite Ex in *. rewrite skipn_app.
              replace (L - length x) with 0 by lia. cbn [skipn].
              apply settled_marker; try assumption.
              intros w Hw. cbn [app].
              apply (all_guarded_suffix w (rev acc ++ firstn L x)).
              ** auto.
              ** rewrite firstn_app in Hf.
                 replace (L - length x) with 0 in Hf by lia.
                 rewrite firstn_O, app_nil_r in Hf. rewrite Hf.
                 apply last_char_marker.
              ** rewrite <- app_assoc, firstn_skipn. auto.
           ++ rewrite Ex in *.
              pose proof (match_wikilink_straddle x c r L Hc Hn E Hgt) as ->.
              rewrite (app_assoc x), (app_assoc (x ++ txt "[[")), (app_assoc _ (txt "]]")).
              rewrite skipn_app, skipn_all2 by (rewrite !length_app; simpl; lia).
              replace (length x + length c + 4
                       - length (((x ++ txt "[[") ++ c) ++ txt "]]"))
                with 0 by (rewrite !length_app; simpl; lia).
              exact Hr.
    + destruct y as [|c0 y']; [simpl in Hl; apply (IH [] acc); [simpl; lia|exact Hs]|].
      rewrite (split_go_None acc c0 y' E).
      apply IH; [simpl in Hl; lia|]. cbn [rev].
      apply settled_after_inv in Hs as [Hg|(x & c & r & Ex & Hg & Hc & Hn & Hr)].
      * apply settled_plain. intros w Hw. rewrite <- app_assoc. now apply Hg.
      * destruct x as [|e x].
        -- cbn [app] in Ex. rewrite Ex in E.
           rewrite match_wikilink_marker in E by assumption. discriminate.
        -- injection Ex as -> ->. apply settled_marker; try assumption.
           intros w Hw. rewrite <- app_assoc. now apply Hg.
Qed.

Lemma fold_re_sub_inert (part : text) (ws : list text) :
  (forall w, In w ws -> w <> [] /\ all_guarded w [] part) ->
  fold_left (fun modified_part word => re_sub_word word modified_part) ws part
  = part.
Proof.
  induction ws as [|w ws IH]; intros H; simpl; [reflexivity|].
  destruct (H w (or_introl eq_refl)) as [Hw Hg].
  unfold re_sub_word at 2. rewrite (sub_go_inert w Hw part [] Hg).
  apply IH. intros w' Hw'. apply H. now right.
Qed.

Lemma annotate_part_inert (part : text) :
  inert_part words part -> annotate_part words part = part.
Proof.
  unfold annotate_part. intros [H|H].
  - destruct (match_wikilink part); [reflexivity | congruence].
  - destruct (match_wikilink part); [reflexivity|].
    apply fold_re_sub_inert. intros w Hw.
    pose proof (proj1 (sort_desc_In (@length ascii) w words) Hw) as Hw'.
    split; [now apply words_nonempty | now apply H].
Qed.

(** The annotator returns a settled text as it is. *)
Lemma add_wikilinks_settled (y : text) :
  settled words y -> add_wikilinks_to_text y words = y.
Proof.
  intros Hs. unfold add_wikilinks_to_text, re_split_wikilink.
  pose proof (split_go_settled (length y) y [] (le_n _) Hs) as Hall.
  rewrite Forall_forall in Hall.
  rewrite (map_ext_in _ (fun part => part)).
  - rewrite map_id. apply concat_split_go.
  - intros part Hp. apply annotate_part_inert. now apply Hall.
Qed.

End Settled.

(** ** The annotator produces a settled text *)

Lemma match_wikilink_None_prefix (s t : text) :
  match_wikilink (s ++ t) = None -> match_wikilink s = None.
Proof.
  intros H. destruct (match_wikilink s) as [n|] eqn:E; [|reflexivity].
  apply (match_wikilink_app s t) in E. congruence.
Qed.

Lemma annotate_split_settled (words : list text) :
  forallb is_word_term words = true ->
  forall n y acc, length y <= n ->
    (acc = [] \/ match_wikilink (rev acc ++ y) = None) ->
    settled words (concat (map (annotate_part words) (split_go acc y))).
Proof.
  intros Hws. induction n as [|n IH]; intros y acc Hl Hacc.
  - destruct y; [|simpl in Hl; lia]. rewrite split_go_nil. simpl.
    rewrite app_nil_r. apply settled_plain. cbn [app].
    apply annotate_part_guarded; [exact Hws|].
    destruct Hacc as [->|H]; [reflexivity | now rewrite app_nil_r in H].
  - destruct y as [|c0 y'].
    { apply (IH [] acc); [simpl; lia | exact Hacc]. }
    destruct (match_wikilink (c0 :: y')) as [L|] eqn:E.
    + rewrite (split_go_Some acc _ L E).
      pose proof (match_wikilink_bounds _ _ E) as HL.
      destruct (match_wikilink_split _ _ E) as (c' & Hf & Hc' & Hn' & _).
      cbn [map concat].
      assert (Hm : annotate_part words (firstn L (c0 :: y')) = firstn L (c0 :: y')).
      { unfold annotate_part. rewrite Hf.
        rewrite <- (app_nil_r (txt "[[" ++ c' ++ txt "]]")), <- !app_assoc.
        now rewrite match_wikilink_marker. }
      rewrite Hm, Hf, <- !app_assoc.
      apply settled_marker; try assumption.
      * cbn [app]. apply annotate_part_guarded; [exact Hws|].
        destruct Hacc as [->|H]; [reflexivity|].
        now apply match_wikilink_None_prefix in H.
      * apply IH; [rewrite length_skipn; cbn [length] in *; lia | now left].
    + rewrite (split_go_None acc c0 y' E).
      apply IH; [simpl in Hl; lia|]. right. cbn [rev].
      rewrite <- app_assoc. cbn [app].
      destruct Hacc as [->|H]; [exact E | exact H].
Qed.

Lemma forallb_word_term_nonempty (words : list text) :
  forallb is_word_term words = true -> forall w, In w words -> w <> [].
Proof.
  rewrite forallb_forall. intros H w Hw ->. apply H in Hw. discriminate.
Qed.

Lemma add_wikilinks_is_settled (s : text) (words : list text) :
  forallb is_word_term words = true ->
  settled words (add_wikilinks_to_text s words).
Proof.
  intros Hws. unfold add_wikilinks_to_text, re_split_wikilink.
  apply (annotate_split_settled words Hws (length s)); [lia | now left].
Qed.



(** Strings that are no terms.  With the empty string the pattern matches
    at every word boundary, and the "[[]]" it inserts are not recognized by
    the marker pattern; with a string that contains a closing bracket the
    marker of the first pass is not recognized either.  A second pass then
    differs from the first. *)
Example add_wikilinks_not_idempotent_off_terms :
  (add_wikilinks_to_text (txt "a") [txt ""] = txt "[[]]a[[]]"
   /\ add_wikilinks_to_text (add_wikilinks_to_text (txt "a") [txt ""]) [txt ""]
      = txt "[[]][[]]a[[]][[]]")
  /\ (add_wikilinks_to_text (txt "a]b c") [txt "b]] c"; txt "a]b"]
      = txt "[[a]b]] c"
      /\ add_wikilinks_to_text
           (add_wikilinks_to_text (txt "a]b c") [txt "b]] c"; txt "a]b"])
           [txt "b]] c"; txt "a]b"]
         = txt "[[a][[b]] c]]").
Proof. repeat split. Qed.

(** ** Openings that wrap a word *)

Lemma text_cases (r : text) :
  r = []
  \/ (exists d r', r = d :: r' /\ char_isword d = false)
  \/ (exists o post, r = o ++ post /\ o <> [] /\ forallb char_isword o = true
                     /\ isword_opt (hd_error post) = false).
Proof.
  pattern r. apply token_ind; clear r.
  - now left.
  - intros d r Hd _. right; left. now exists d, r.
  - intros o post Hne Ho Hp _. right; right. now exists o, post.
Qed.

Lemma starts_with_open2 (s : text) :
  starts_with (txt "[[") s = true <-> exists r, s = "["%char :: "["%char :: r.
Proof. apply starts_with_true. Qed.

Lemma well_opened_cons (d : ascii) (s : text) :
  well_opened (d :: s) = true <->
  (forall r, d = "["%char -> s = "["%char :: r -> wrap_follows r = true)
  /\ well_opened s = true.
Proof.
  cbn [well_opened]. rewrite andb_true_iff. split; intros [H1 H2]; split; try assumption.
  - intros r -> ->. exact H1.
  - destruct (starts_with (txt "[[") (d :: s)) eqn:E; [|reflexivity].
    apply starts_with_open2 in E as [r E]. injection E as -> ->.
    now apply (H1 r).
Qed.

Lemma well_opened_other (d : ascii) (s : text) :
  d <> "["%char -> well_opened (d :: s) = well_opened s.
Proof.
  intros Hd. cbn [well_opened].
  destruct (starts_with (txt "[[") (d :: s)) eqn:E; [|reflexivity].
  apply starts_with_open2 in E as [r E]. injection E as -> _. congruence.
Qed.

Lemma word_not_lbracket (c : ascii) : char_isword c = true -> c <> "["%char.
Proof. intros H ->. discriminate. Qed.

Lemma well_opened_word_run (o z : text) :
  forallb char_isword o = true -> well_opened (o ++ z) = well_opened z.
Proof.
  induction o as [|c o IH]; intros Ho; [reflexivity|].
  simpl in Ho. apply andb_true_iff in Ho as [Hc Ho].
  change ((c :: o) ++ z) with (c :: o ++ z).
  rewrite well_opened_other by now apply word_not_lbracket. now apply IH.
Qed.

Lemma span_word_run (o z : text) :
  forallb char_isword o = true -> isword_opt (hd_error z) = false ->
  span_word (o ++ z) = length o.
Proof.
  intros Ho Hz. induction o as [|c o IH]; simpl.
  - destruct z as [|d z]; [reflexivity|]. simpl in Hz. simpl. now rewrite Hz.
  - simpl in Ho. apply andb_true_iff in Ho as [Hc Ho]. rewrite Hc.
    f_equal. now apply IH.
Qed.

Lemma wrap_follows_word (o z : text) :
  o <> [] -> forallb char_isword o = true ->
  wrap_follows (o ++ txt "]]" ++ z) = true.
Proof.
  intros Hne Ho. unfold wrap_follows.
  assert (Hs : starts_with (txt "[") (o ++ txt "]]" ++ z) = false).
  { destruct (starts_with (txt "[") (o ++ txt "]]" ++ z)) eqn:E; [|reflexivity].
    apply starts_with_true in E as [r E].
    destruct o as [|c o]; [congruence|]. simpl in Ho.
    apply andb_true_iff in Ho as [Hc _]. injection E as -> _. discriminate. }
  rewrite Hs, span_word_run by (try assumption; reflexivity).
  rewrite skipn_app, skipn_all, Nat.sub_diag. cbn [skipn app].
  rewrite starts_with_app, andb_true_r. destruct o; [congruence|reflexivity].
Qed.

Lemma wrap_follows_bracket_word (o z : text) :
  o <> [] -> forallb char_isword o = true ->
  wrap_follows ("["%char :: o ++ txt "]]" ++ z) = true.
Proof.
  intros Hne Ho. unfold wrap_follows.
  rewrite (proj2 (starts_with_true (txt "[") ("["%char :: o ++ txt "]]" ++ z)))
    by (now exists (o ++ txt "]]" ++ z)).
  cbn [skipn].
  rewrite span_word_run by (try assumption; reflexivity).
  rewrite skipn_app, skipn_all, Nat.sub_diag. cbn [skipn app].
  rewrite starts_with_app, andb_true_r. destruct o; [congruence|reflexivity].
Qed.

Lemma wrap_follows_inv (b : text) :
  wrap_follows b = true ->
  exists o z, o <> [] /\ forallb char_isword o = true
              /\ (b = o ++ txt "]]" ++ z \/ b = "["%char :: o ++ txt "]]" ++ z).
Proof.
  unfold wrap_follows. intros H.
  set (b' := if starts_with (txt "[") b then skipn 1 b else b) in *.
  apply andb_true_iff in H as [H1 H2]. apply Nat.leb_le in H1.
  apply starts_with_skipn in H2.
  exists (firstn (span_word b') b'), (skipn 2 (skipn (span_word b') b')).
  assert (Eb' : b' = firstn (span_word b') b' ++ txt "]]"
                     ++ skipn 2 (skipn (span_word b') b')).
  { rewrite <- (firstn_skipn (span_word b') b') at 1. f_equal. exact H2. }
  split; [|split].
  - intros E. apply (f_equal (@length ascii)) in E. rewrite length_firstn in E.
    simpl in E.
    assert (span_word b' <= length b').
    { clear. induction b' as [|c s IH]; simpl; [lia|].
      destruct (char_isword c); simpl; lia. }
    lia.
  - apply span_word_firstn.
  - unfold b' in *. destruct (starts_with (txt "[") b) eqn:E.
    + right. apply starts_with_skipn in E. rewrite E. cbn [app txt list_ascii_of_string].
      f_equal. exact Eb'.
    + left. exact Eb'.
Qed.

(** A wrapped word goes through a substitution as it is. *)
Lemma sub_go_wrapped (w pre o z : text) :
  is_word_term w = true ->
  isword_opt (last_char pre) = false ->
  o <> [] -> forallb char_isword o = true ->
  sub_go w pre (o ++ txt "]]" ++ z)
  = o ++ txt "]]" ++ sub_go w (pre ++ o ++ txt "]]") z.
Proof.
  intros Hw Hp Hne Ho.
  rewrite sub_go_token; try assumption; [|reflexivity].
  assert (Hg : guarded pre (txt "]]" ++ z) = true).
  { rewrite guarded_unfold.
    replace (starts_close (txt "]]" ++ z)) with true; [apply orb_true_r|].
    symmetry. apply starts_close_true. now exists z. }
  rewrite Hg, andb_false_r.
  change (txt "]]" ++ z) with ("]"%char :: "]"%char :: z).
  rewrite !sub_go_sep by (try assumption; reflexivity).
  rewrite <- !app_assoc. reflexivity.
Qed.

Lemma wrap_follows_sub_go (w pre b : text) :
  is_word_term w = true ->
  isword_opt (last_char pre) = false ->
  wrap_follows b = true -> wrap_follows (sub_go w pre b) = true.
Proof.
  intros Hw Hp H.
  apply wrap_follows_inv in H as (o & z & Hne & Ho & [->| ->]).
  - rewrite sub_go_wrapped by assumption. now apply wrap_follows_word.
  - rewrite sub_go_sep by (try assumption; reflexivity).
    rewrite sub_go_wrapped; try assumption; [|now rewrite last_char_snoc].
    now apply wrap_follows_bracket_word.
Qed.

(** The substitution of a word term keeps a text well opened. *)
Lemma sub_go_well_opened (w : text) :
  is_word_term w = true ->
  forall rest pre,
    (isword_opt (hd_error rest) = true -> isword_opt (last_char pre) = false) ->
    well_opened rest = true ->
    well_opened (sub_go w pre rest) = true.
Proof.
  intros Hw rest. pattern rest. apply token_ind; clear rest;
    [|intros d r Hd IH|intros o post Hne Ho Hpost IH]; intros pre Hctx Hwo.
  - now rewrite sub_go_nil_word.
  - rewrite sub_go_sep by assumption.
    apply well_opened_cons in Hwo as [Hchk Hr].
    apply well_opened_cons. split.
    + intros out' -> Hout.
      destruct (text_cases r) as [->|[(d' & r' & -> & Hd')|(o & post & -> & Hne & Ho & Hpost)]].
      * rewrite sub_go_nil_word in Hout by assumption. discriminate.
      * rewrite sub_go_sep in Hout by assumption. injection Hout as -> <-.
        apply wrap_follows_sub_go; [assumption|now rewrite last_char_snoc|].
        now apply (Hchk r').
      * rewrite sub_go_token in Hout; try assumption;
          [|now rewrite last_char_snoc].
        destruct (ci_equal w o && negb (guarded (pre ++ ["["%char]) post)).
        -- change ((txt "[[" ++ o ++ txt "]]") ++ sub_go w ((pre ++ ["["%char]) ++ o) post)
             with ("["%char :: "["%char :: (o ++ txt "]]") ++ sub_go w ((pre ++ ["["%char]) ++ o) post)
             in Hout.
           injection Hout as <-.
           rewrite <- app_assoc. now apply wrap_follows_bracket_word.
        -- destruct o as [|c o]; [congruence|]. simpl in Ho.
           apply andb_true_iff in Ho as [Hc _]. injection Hout as -> _.
           discriminate.
    + apply IH; [|exact Hr]. intros _. now rewrite last_char_snoc.
  - assert (Hhd : isword_opt (hd_error (o ++ post)) = true).
    { destruct o as [|c o]; [congruence|]. simpl in *.
      now apply andb_true_iff in Ho as [Hc _]. }
    rewrite sub_go_token by (try assumption; now apply Hctx).
    rewrite well_opened_word_run in Hwo by assumption.
    assert (Hout : well_opened (sub_go w (pre ++ o) post) = true).
    { apply IH; [|exact Hwo]. rewrite Hpost. discriminate. }
    destruct (ci_equal w o && negb (guarded pre post)).
    + rewrite <- !app_assoc.
      change (txt "[[" ++ o ++ txt "]]" ++ sub_go w (pre ++ o) post)
        with ("["%char :: "["%char :: o ++ txt "]]" ++ sub_go w (pre ++ o) post).
      apply well_opened_cons. split.
      * intros r _ [= <-]. now apply wrap_follows_word.
      * apply well_opened_cons. split.
        -- intros r _ E. destruct o as [|c o]; [congruence|].
           simpl in Ho. apply andb_true_iff in Ho as [Hc _].
           injection E as -> _. discriminate.
        -- rewrite well_opened_word_run by assumption.
           change (txt "]]" ++ sub_go w (pre ++ o) post)
             with ("]"%char :: "]"%char :: sub_go w (pre ++ o) post).
           rewrite !well_opened_other by discriminate. exact Hout.
    + now rewrite well_opened_word_run.
Qed.

Lemma well_opened_clean (s : text) :
  contains (txt "[[") s = false -> well_opened s = true.
Proof.
  induction s as [|c s IH]; [reflexivity|].
  intros H. cbn [contains] in H. apply orb_false_iff in H as [H1 H2].
  cbn [well_opened]. rewrite H1. now apply IH.
Qed.

Lemma fold_re_sub_well_opened (ws : list text) :
  forallb is_word_term ws = true ->
  forall m, well_opened m = true ->
  well_opened
    (fold_left (fun modified_part word => re_sub_word word modified_part) ws m)
  = true.
Proof.
  induction ws as [|w ws IH]; intros Hws m Hm; [exact Hm|].
  simpl in Hws. apply andb_true_iff in Hws as [Hw Hws]. simpl.
  apply IH; [exact Hws|]. apply sub_go_well_opened; try assumption.
  intros _. reflexivity.
Qed.

(** ** Flat texts *)

Lemma contains_true (p s : text) :
  contains p s = true <-> exists a b, s = a ++ p ++ b.
Proof.
  induction s as [|c s IH].
  - cbn [contains]. rewrite orb_false_r, starts_with_true. split.
    + intros [r E]. now exists [], r.
    + intros (a & b & E). destruct a; [|discriminate]. now exists b.
  - cbn [contains]. rewrite orb_true_iff, starts_with_true, IH. split.
    + intros [[r E]|(a & b & E)].
      * now exists [], r.
      * exists (c :: a), b. now rewrite E.
    + intros ([|x a] & b & E).
      * left. now exists b.
      * right. injection E as _ E. now exists a, b.
Qed.

Lemma contains_app_l (p s t : text) :
  contains p (s ++ t) = false -> contains p s = false.
Proof.
  intros H. destruct (contains p s) eqn:E; [|reflexivity].
  apply contains_true in E as (a & b & ->).
  assert (H' : contains p ((a ++ p ++ b) ++ t) = true).
  { apply contains_true. exists a, (b ++ t). now rewrite <- !app_assoc. }
  congruence.
Qed.

Lemma contains_app_r (p s t : text) :
  contains p (s ++ t) = false -> contains p t = false.
Proof.
  intros H. destruct (contains p t) eqn:E; [|reflexivity].
  apply contains_true in E as (a & b & ->).
  assert (H' : contains p (s ++ a ++ p ++ b) = true).
  { apply contains_true. exists (s ++ a), b. now rewrite <- !app_assoc. }
  congruence.
Qed.

Lemma flat_cons (d : ascii) (s : text) :
  flat (d :: s) = true <->
  (forall r, d = "["%char -> s = "["%char :: r -> closed_run r = true)
  /\ flat s = true.
Proof.
  cbn [flat]. rewrite andb_true_iff. split; intros [H1 H2]; split; try assumption.
  - intros r -> ->. exact H1.
  - destruct (starts_with (txt "[[") (d :: s)) eqn:E; [|reflexivity].
    apply starts_with_open2 in E as [r E]. injection E as -> ->.
    now apply (H1 r).
Qed.

Lemma flat_clean (s : text) : contains (txt "[[") s = false -> flat s = true.
Proof.
  induction s as [|c s IH]; [reflexivity|].
  intros H. cbn [contains] in H. apply orb_false_iff in H as [H1 H2].
  cbn [flat]. rewrite H1. now apply IH.
Qed.

Lemma span_not_rbracket_app_lt (s t : text) :
  span_not_rbracket s < length s ->
  span_not_rbracket (s ++ t) = span_not_rbracket s.
Proof.
  induction s as [|c s IH]; simpl; [lia|].
  destruct (ascii_eqb c "]"); [reflexivity|]. intros H. f_equal. apply IH. lia.
Qed.

Lemma closed_run_app (b t : text) :
  closed_run b = true -> closed_run (b ++ t) = true.
Proof.
  unfold closed_run. intros H. apply andb_true_iff in H as [H1 H2].
  apply Nat.ltb_lt in H1. rewrite span_not_rbracket_app_lt by assumption.
  rewrite firstn_app. replace (span_not_rbracket b - length b) with 0 by lia.
  rewrite firstn_O, app_nil_r, H2, andb_true_r.
  apply Nat.ltb_lt. rewrite length_app. lia.
Qed.

Lemma closed_run_marker (c r : text) :
  no_rbracket c -> contains (txt "[[") c = false ->
  closed_run (c ++ txt "]]" ++ r) = true.
Proof.
  intros Hn Hc. unfold closed_run.
  change (c ++ txt "]]" ++ r) with (c ++ "]"%char :: "]"%char :: r).
  rewrite span_not_rbracket_app by assumption.
  rewrite firstn_app, firstn_all, Nat.sub_diag, firstn_O, app_nil_r, Hc.
  rewrite andb_true_r. apply Nat.ltb_lt. rewrite length_app. simpl. lia.
Qed.

(** Two flat texts make a flat text when no "[[" arises where they meet. *)
Lemma flat_app (x1 x2 : text) :
  flat x1 = true -> flat x2 = true ->
  ~ (last_char x1 = Some "["%char /\ hd_error x2 = Some "["%char) ->
  flat (x1 ++ x2) = true.
Proof.
  induction x1 as [|c x1 IH]; intros H1 H2 Hb; [exact H2|].
  apply flat_cons in H1 as [Hc H1].
  change ((c :: x1) ++ x2) with (c :: x1 ++ x2). apply flat_cons. split.
  - intros r -> E. destruct x1 as [|e x1].
    + exfalso. apply Hb. split; [reflexivity|]. cbn [app] in E. now rewrite E.
    + injection E as -> <-. apply closed_run_app. now apply (Hc x1).
  - apply IH; try assumption. intros [Hl Hh]. apply Hb. split; [|exact Hh].
    destruct x1 as [|e x1]; [discriminate|].
    change (c :: e :: x1) with ([c] ++ e :: x1).
    now rewrite last_char_app.
Qed.

Lemma flat_suffix (a z : text) : flat (a ++ z) = true -> flat z = true.
Proof.
  induction a as [|c a IH]; intros H; [exact H|].
  change ((c :: a) ++ z) with (c :: a ++ z) in H.
  apply flat_cons in H as [_ H]. now apply IH.
Qed.

(** A flat text has no marker with an opening sequence in its content. *)
Lemma flat_not_nested (y : text) : flat y = true -> ~ nested_marker y.
Proof.
  intros Hf (a & c & b & -> & Hne & Hn & Hc).
  apply flat_suffix in Hf.
  change (txt "[[" ++ c ++ txt "]]" ++ b)
    with ("["%char :: "["%char :: c ++ "]"%char :: "]"%char :: b) in Hf.
  apply flat_cons in Hf as [Hf _].
  specialize (Hf _ eq_refl eq_refl). unfold closed_run in Hf.
  rewrite span_not_rbracket_app in Hf by assumption.
  rewrite firstn_app, firstn_all, Nat.sub_diag, firstn_O, app_nil_r, Hc in Hf.
  now rewrite andb_false_r in Hf.
Qed.

Lemma word_no_rbracket (o : text) : forallb char_isword o = true -> no_rbracket o.
Proof.
  unfold no_rbracket. rewrite !forallb_forall. intros H x Hx.
  apply H in Hx. destruct (ascii_eqb x "]") eqn:E; [|reflexivity].
  apply ascii_eqb_true in E. subst x. discriminate.
Qed.

Lemma word_no_lbracket (o : text) (a b : text) :
  forallb char_isword o = true -> o <> a ++ "["%char :: b.
Proof.
  intros H E. rewrite forallb_forall in H.
  assert (Hin : In "["%char o) by (rewrite E; apply in_elt).
  apply H in Hin. discriminate.
Qed.

Lemma wrap_follows_closed (r : text) : wrap_follows r = true -> closed_run r = true.
Proof.
  intros H. apply wrap_follows_inv in H as (o & z & Hne & Ho & [->| ->]).
  - apply closed_run_marker; [now apply word_no_rbracket|].
    destruct (contains (txt "[[") o) eqn:E; [|reflexivity].
    apply contains_true in E as (a & b & E).
    now apply word_no_lbracket in E.
  - change ("["%char :: o ++ txt "]]" ++ z) with (("["%char :: o) ++ txt "]]" ++ z).
    apply closed_run_marker.
    + apply no_rbracket_app with (u := ["["%char]). split; [reflexivity|].
      now apply word_no_rbracket.
    + destruct (contains (txt "[[") ("["%char :: o)) eqn:E; [|reflexivity].
      apply contains_true in E as ([|x a] & b & E).
      * injection E as E.
        destruct (word_no_lbracket o [] b Ho E).
      * injection E as _ E. destruct (word_no_lbracket o a ("["%char :: b) Ho E).
Qed.

Lemma well_opened_flat (x : text) : well_opened x = true -> flat x = true.
Proof.
  induction x as [|c x IH]; [reflexivity|]. intros H.
  apply well_opened_cons in H as [Hc H]. apply flat_cons. split.
  - intros r Hd Hx. apply wrap_follows_closed. now apply (Hc r).
  - now apply IH.
Qed.

Lemma closed_run_marker_end (c : text) :
  no_rbracket c -> contains (txt "[[") c = false ->
  closed_run (c ++ txt "]]") = true.
Proof.
  intros Hn Hc. rewrite <- (app_nil_r (c ++ txt "]]")), <- app_assoc.
  now apply closed_run_marker.
Qed.

(** A marker without an opening sequence after its own is flat. *)
Lemma flat_marker (c : text) :
  no_rbracket c -> contains (txt "[[") (c ++ txt "]]") = false ->
  flat (txt "[[" ++ c ++ txt "]]") = true.
Proof.
  intros Hn Hc.
  change (txt "[[" ++ c ++ txt "]]") with ("["%char :: "["%char :: c ++ txt "]]").
  apply flat_cons. split; [|apply flat_cons; split].
  - intros r _ E. injection E as <-.
    apply (closed_run_marker_end c); [exact Hn | now apply contains_app_l in Hc].
  - intros r _ E. destruct c as [|e c]; [discriminate|].
    injection E as -> <-.
    apply (closed_run_marker_end c).
    + now apply (no_rbracket_app ["["%char] c) in Hn.
    + apply contains_app_l in Hc.
      now apply (contains_app_r (txt "[[") ["["%char] c) in Hc.
  - now apply flat_clean.
Qed.

(** ** The last character of a substitution *)

Lemma sub_go_last (w : text) :
  is_word_term w = true ->
  forall rest pre,
    (isword_opt (hd_error rest) = true -> isword_opt (last_char pre) = false) ->
    (rest <> [] -> sub_go w pre rest <> [])
    /\ (last_char (sub_go w pre rest) = Some "["%char ->
        last_char rest = Some "["%char).
Proof.
  intros Hw rest. pattern rest. apply token_ind; clear rest;
    [|intros d r Hd IH|intros o post Hne Ho Hpost IH]; intros pre Hctx.
  - rewrite sub_go_nil_word by assumption. split; [congruence|discriminate].
  - rewrite sub_go_sep by assumption. split; [discriminate|].
    destruct (IH (pre ++ [d])) as [IH1 IH2];
      [intros _; now rewrite last_char_snoc|].
    destruct r as [|e r].
    + rewrite sub_go_nil_word by assumption. auto.
    + change (d :: sub_go w (pre ++ [d]) (e :: r))
        with ([d] ++ sub_go w (pre ++ [d]) (e :: r)).
      change (d :: e :: r) with ([d] ++ e :: r).
      rewrite !last_char_app by (try discriminate; apply IH1; discriminate).
      exact IH2.
  - assert (Hhd : isword_opt (hd_error (o ++ post)) = true).
    { destruct o as [|c o]; [congruence|]. simpl in *.
      now apply andb_true_iff in Ho as [Hc _]. }
    rewrite sub_go_token by (try assumption; now apply Hctx).
    destruct (IH (pre ++ o)) as [IH1 IH2]; [rewrite Hpost; discriminate|].
    split.
    + intros _ E. apply app_eq_nil in E as [E _].
      destruct (ci_equal w o && negb (guarded pre post)); [discriminate|congruence].
    + destruct post as [|e post].
      * rewrite sub_go_nil_word, !app_nil_r by assumption. intros H. exfalso.
        destruct (ci_equal w o && negb (guarded pre [])).
        -- pose proof (last_char_marker [] o) as Hl. cbn [app] in Hl.
           rewrite Hl in H. discriminate.
        -- pose proof (last_char_word [] o Hne Ho) as Hl. cbn [app] in Hl.
           rewrite H in Hl. discriminate.
      * rewrite !last_char_app by (try discriminate; apply IH1; discriminate).
        exact IH2.
Qed.

Lemma fold_re_sub_last (ws : list text) :
  forallb is_word_term ws = true ->
  forall m,
    last_char
      (fold_left (fun modified_part word => re_sub_word word modified_part) ws m)
    = Some "["%char ->
    last_char m = Some "["%char.
Proof.
  induction ws as [|w ws IH]; intros Hws m H; [exact H|].
  simpl in Hws. apply andb_true_iff in Hws as [Hw Hws]. simpl in H.
  apply IH in H; [|exact Hws].
  apply (sub_go_last w Hw m []); [intros _; reflexivity | exact H].
Qed.

(** ** The output for a well-formed input is flat *)

Lemma last_char_marker_alone (c : text) :
  last_char (txt "[[" ++ c ++ txt "]]") = Some "]"%char.
Proof. exact (last_char_marker [] c). Qed.

Lemma annotate_part_marker (words : list text) (c : text) :
  c <> [] -> no_rbracket c ->
  annotate_part words (txt "[[" ++ c ++ txt "]]") = txt "[[" ++ c ++ txt "]]".
Proof.
  intros Hc Hn. unfold annotate_part.
  rewrite <- (app_nil_r (txt "[[" ++ c ++ txt "]]")), <- !app_assoc.
  now rewrite match_wikilink_marker.
Qed.

Lemma annotate_part_plain_flat (words : list text) (x : text) :
  forallb is_word_term words = true ->
  match_wikilink x = None ->
  clean_part x = true ->
  flat (annotate_part words x) = true
  /\ (last_char (annotate_part words x) = Some "["%char ->
      last_char x = Some "["%char).
Proof.
  intros Hws Hx Hc. unfold clean_part in Hc. rewrite Hx in Hc.
  apply negb_true_iff in Hc. unfold annotate_part. rewrite Hx. split.
  - apply well_opened_flat, fold_re_sub_well_opened.
    + now apply forallb_sort_desc.
    + now apply well_opened_clean.
  - apply fold_re_sub_last. now apply forallb_sort_desc.
Qed.

Lemma annotate_split_flat (words : list text) :
  forallb is_word_term words = true ->
  forall n y acc, length y <= n ->
    (acc = [] \/ match_wikilink (rev acc ++ y) = None) ->
    (forall c acc', acc = c :: acc' -> match_wikilink (c :: y) = None) ->
    forallb clean_part (split_go acc y) = true ->
    flat (concat (map (annotate_part words) (split_go acc y))) = true.
Proof.
  intros Hws. induction n as [|n IH]; intros y acc Hl Hacc Hlast Hclean.
  - destruct y; [|simpl in Hl; lia]. rewrite split_go_nil in *.
    cbn [forallb map concat] in *. rewrite app_nil_r.
    apply andb_true_iff in Hclean as [Hclean _].
    apply annotate_part_plain_flat; try assumption.
    destruct Hacc as [->|H]; [reflexivity | now rewrite app_nil_r in H].
  - destruct (match_wikilink y) as [L|] eqn:E.
    + rewrite (split_go_Some acc _ L E) in *.
      pose proof (match_wikilink_bounds _ _ E) as HL.
      destruct (match_wikilink_split _ _ E) as (c' & Hf & Hc' & Hn' & _).
      cbn [forallb map concat] in *.
      apply andb_true_iff in Hclean as [Hc1 Hclean].
      apply andb_true_iff in Hclean as [Hc2 Hclean].
      assert (Hx : match_wikilink (rev acc) = None).
      { destruct Hacc as [->|H]; [reflexivity|].
        now apply match_wikilink_None_prefix in H. }
      destruct (annotate_part_plain_flat words (rev acc) Hws Hx Hc1) as [Hf1 Hl1].
      rewrite Hf in *. rewrite annotate_part_marker by assumption.
      apply flat_app; [exact Hf1| |].
      * assert (Hm : clean_part (txt "[[" ++ c' ++ txt "]]") = true) by exact Hc2.
        unfold clean_part in Hm.
        rewrite <- (app_nil_r (txt "[[" ++ c' ++ txt "]]")) in Hm at 1.
        rewrite <- !app_assoc, match_wikilink_marker in Hm by assumption.
        apply negb_true_iff in Hm.
        apply flat_app.
        -- now apply flat_marker.
        -- apply IH; [rewrite length_skipn; lia | now left | discriminate | exact Hclean].
        -- intros [Hl2 _]. rewrite last_char_marker_alone in Hl2. discriminate.
      * intros [Hl2 _]. apply Hl1 in Hl2.
        destruct acc as [|c acc']; [discriminate|].
        cbn [rev] in Hl2. rewrite last_char_snoc in Hl2. injection Hl2 as ->.
        specialize (Hlast _ _ eq_refl).
        apply match_wikilink_Some in E as (c2 & r2 & -> & Hc2' & Hn2 & _).
        change ("["%char :: txt "[[" ++ c2 ++ txt "]]" ++ r2)
          with (txt "[[" ++ ("["%char :: c2) ++ txt "]]" ++ r2) in Hlast.
        rewrite match_wikilink_marker in Hlast; [discriminate|discriminate|].
        apply (no_rbracket_app ["["%char] c2). now split.
    + destruct y as [|c0 y']; [apply (IH [] acc); try assumption; simpl; lia|].
      rewrite (split_go_None acc c0 y' E) in *.
      apply IH; [simpl in Hl; lia| | |exact Hclean].
      * right. cbn [rev]. rewrite <- app_assoc. cbn [app].
        destruct Hacc as [->|H]; [exact E | exact H].
      * intros c acc' [= <- <-]. exact E.
Qed.

Lemma add_wikilinks_flat (s : text) (words : list text) :
  forallb is_word_term words = true ->
  well_formed_input s = true ->
  flat (add_wikilinks_to_text s words) = true.
Proof.
  intros Hws Hs. unfold add_wikilinks_to_text, re_split_wikilink.
  apply (annotate_split_flat words Hws (length s)); try assumption;
    [lia | now left | discriminate].
Qed.

(** ** The annotator only adds square brackets *)

Lemma strip_brackets_app (a b : text) :
  strip_brackets (a ++ b) = strip_brackets a ++ strip_brackets b.
Proof. apply filter_app. Qed.

Lemma replace_func_strip (s : text) (i j : nat) :
  strip_brackets (replace_func s i j) = strip_brackets (slice s i j).
Proof.
  unfold replace_func. destruct (_ || _); [reflexivity|].
  now rewrite !strip_brackets_app, app_nil_r.
Qed.

Lemma slice_start (pre rest : text) (k : nat) :
  slice (pre ++ rest) (length pre) (length pre + k) = firstn k rest.
Proof.
  unfold slice. rewrite skipn_app, skipn_all, Nat.sub_diag. cbn [skipn app].
  f_equal. lia.
Qed.

Lemma sub_go_strip (w : text) :
  forall n rest pre, length rest <= n ->
    strip_brackets (sub_go w pre rest) = strip_brackets rest.
Proof.
  induction n as [|n IH]; intros rest pre Hl.
  - destruct rest; [|simpl in Hl; lia]. rewrite sub_go_nil.
    destruct (match_word_pattern w pre []) eqn:E; [|reflexivity].
    rewrite replace_func_strip.
    rewrite <- (app_nil_r pre) at 1. rewrite slice_start. now rewrite firstn_nil.
  - destruct rest as [|c r]; [apply (IH [] pre); simpl; lia|].
    destruct (match_word_pattern w pre (c :: r)) eqn:E.
    + destruct w as [|x w'].
      * rewrite sub_go_match_empty by assumption.
        rewrite strip_brackets_app, replace_func_strip, slice_start.
        cbn [firstn]. change (c :: sub_go [] (pre ++ [c]) r)
          with ([c] ++ sub_go [] (pre ++ [c]) r).
        rewrite strip_brackets_app, IH by (simpl in Hl; lia).
        now rewrite <- strip_brackets_app.
      * rewrite sub_go_match by (try assumption; discriminate).
        rewrite strip_brackets_app, replace_func_strip, slice_start.
        rewrite IH by (rewrite length_skipn; simpl in *; lia).
        now rewrite <- strip_brackets_app, firstn_skipn.
    + rewrite sub_go_nomatch by assumption.
      change (c :: sub_go w (pre ++ [c]) r) with ([c] ++ sub_go w (pre ++ [c]) r).
      rewrite strip_brackets_app, IH by (simpl in Hl; lia).
      now rewrite <- strip_brackets_app.
Qed.

Lemma annotate_part_strip (words : list text) (part : text) :
  strip_brackets (annotate_part words part) = strip_brackets part.
Proof.
  unfold annotate_part. destruct (match_wikilink part); [reflexivity|].
  generalize (sort_desc (@length ascii) words). intros ws. revert part.
  induction ws as [|w ws IH]; intros part; [reflexivity|]. simpl.
  rewrite IH. unfold re_sub_word. now apply (sub_go_strip w (length part)).
Qed.

Lemma annotate_split_strip (words : list text) (acc y : text) :
  strip_brackets (concat (map (annotate_part words) (split_go acc y)))
  = strip_brackets (rev acc ++ y).
Proof.
  rewrite <- (concat_split_go acc y).
  induction (split_go acc y) as [|p l IH]; [reflexivity|].
  cbn [map concat]. now rewrite !strip_brackets_app, annotate_part_strip, IH.
Qed.

(** Apart from square brackets the output is the input. *)
Lemma add_wikilinks_strip (s : text) (words : list text) :
  strip_brackets (add_wikilinks_to_text s words) = strip_brackets s.
Proof. apply (annotate_split_strip words [] s). Qed.

Example add_wikilinks_sample :
  add_wikilinks_to_text (txt "La casa [[red casa]] y [casa") [txt "casa"]
  = txt "La [[casa]] [[red casa]] y [[[casa]]".
Proof. reflexivity. Qed.

(** An opening sequence that opens nothing in the input becomes the
    opening of a marker around the next link: the input has no marker, the
    output is one marker whose content contains "[[". *)
Lemma add_wikilinks_nests_after_stray_opening :
  re_split_wikilink (txt "[[ casa") = [txt "[[ casa"]
  /\ add_wikilinks_to_text (txt "[[ casa") [txt "casa"] = txt "[[ [[casa]]"
  /\ nested_marker (add_wikilinks_to_text (txt "[[ casa") [txt "casa"]).
Proof.
  split; [reflexivity|]. split; [reflexivity|].
  exists [], (txt " [[casa"), []. repeat split. discriminate.
Qed.

(** ** The order of the counter *)

Lemma counter_incr_fst (w : text) (c : list (text * nat)) :
  map fst (counter_incr w c) =
  if existsb (text_eqb w) (map fst c) then map fst c else map fst c ++ [w].
Proof.
  induction c as [|[k n] c IH]; simpl; [reflexivity|].
  rewrite (text_eqb_sym w k). destruct (text_eqb k w); simpl; [reflexivity|].
  rewrite IH. now destruct (existsb (text_eqb w) (map fst c)).
Qed.

Lemma filter_filter_ext {A : Type} (f g h : A -> bool) (l : list A) :
  (forall x, h x = g x && f x) -> filter f (filter g l) = filter h l.
Proof.
  intros H. induction l as [|x l IH]; simpl; [reflexivity|].
  rewrite H. destruct (g x); simpl; [|exact IH].
  destruct (f x); now rewrite IH.
Qed.

Lemma Counter_fst_fold (ws : list text) :
  forall c,
    map fst (fold_left (fun c w => counter_incr w c) ws c) =
    map fst c
    ++ filter (fun x => negb (existsb (text_eqb x) (map fst c)))
              (first_occurrences ws).
Proof.
  induction ws as [|w ws IH]; intros c; simpl.
  - now rewrite app_nil_r.
  - rewrite IH, counter_incr_fst.
    destruct (existsb (text_eqb w) (map fst c)) eqn:E; simpl.
    + f_equal. symmetry. apply filter_filter_ext. intros x.
      destruct (text_eqb w x) eqn:Ex; simpl; [|reflexivity].
      apply text_eqb_true in Ex. subst x. now rewrite E.
    + rewrite <- app_assoc. simpl. f_equal. f_equal.
      symmetry. apply filter_filter_ext. intros x.
      rewrite existsb_app. simpl. rewrite orb_false_r, negb_orb.
      rewrite (text_eqb_sym x w). apply andb_comm.
Qed.

(** The keys of the counter are the words in the order of their first
    occurrence. *)
Lemma Counter_fst (ws : list text) :
  map fst (Counter ws) = first_occurrences ws.
Proof.
  unfold Counter. rewrite Counter_fst_fold. simpl.
  induction (first_occurrences ws) as [|x l IH]; simpl; [reflexivity|].
  now rewrite IH.
Qed.

(** ** The terms the frequency analyzer produces *)

Lemma occurrences_pos_In (w : text) (ws : list text) :
  0 < occurrences w ws -> In w ws.
Proof.
  unfold occurrences. intros H.
  destruct (filter (text_eqb w) ws) as [|x l] eqn:E; [simpl in H; lia|].
  assert (Hx : In x (filter (text_eqb w) ws)) by (rewrite E; left; reflexivity).
  apply filter_In in Hx. destruct Hx as [Hin Heq].
  apply text_eqb_true in Heq. subst x. exact Hin.
Qed.

Lemma In_occurrences_pos (w : text) (ws : list text) :
  In w ws -> 0 < occurrences w ws.
Proof.
  unfold occurrences. intros H.
  assert (Hx : In w (filter (text_eqb w) ws)).
  { apply filter_In. split; [exact H | apply text_eqb_refl]. }
  destruct (filter (text_eqb w) ws); [destruct Hx | simpl; lia].
Qed.

Lemma all_words_flat_map (fs : list md_file) :
  all_words (scan_files fs) = flat_map words_of fs.
Proof.
  induction fs as [|f fs IH]; [reflexivity|].
  rewrite scan_files_cons. simpl. unfold words_of at 1.
  destruct (read_text f); simpl; rewrite IH; reflexivity.
Qed.

Lemma keep_word_true (w : text) :
  keep_word w = true <->
  MIN_WORD_LENGTH <= length w /\ ~ In w STOPWORDS /\ str_isalpha w = true.
Proof.
  unfold keep_word. rewrite !andb_true_iff, negb_true_iff, Nat.leb_le.
  split.
  - intros [[H1 H2] H3]. repeat split; try assumption.
    intros Hin. apply in_stopwords_spec in Hin. congruence.
  - intros (H1 & H2 & H3). repeat split; try assumption.
    destruct (in_stopwords w) eqn:E; [|reflexivity].
    apply in_stopwords_spec in E. contradiction.
Qed.

Lemma extract_words_In (w s : text) :
  In w (extract_words s) ->
  keep_word w = true /\ In w (re_findall_words (str_lower s)).
Proof.
  rewrite extract_words_filter. intros H. apply filter_In in H. tauto.
Qed.

Lemma token_lower_fixed (w s : text) :
  In w (re_findall_words (str_lower s)) ->
  w <> [] /\ forallb char_isword w = true /\ str_lower w = w.
Proof.
  intros H. unfold re_findall_words in H.
  pose proof (findall_go_tokens [] (str_lower s)) as HF.
  rewrite Forall_forall in HF. destruct (HF _ H) as (Hne & Hw & Hincl).
  repeat split; try assumption.
  apply str_lower_fixed. intros c Hc. apply Hincl in Hc.
  unfold str_lower in Hc. apply in_map_iff in Hc. destruct Hc as (d & <- & _).
  apply char_lower_idem.
Qed.

Lemma find_frequent_words_In (fs : list md_file) (w : text) (n : nat) :
  In (w, n) (find_frequent_words fs) ->
  n = occurrences w (all_words (scan_files fs)) /\ MIN_FREQUENCY <= n.
Proof.
  unfold find_frequent_words. intros H.
  apply rank_words_In.
  rewrite <- (firstn_skipn TOP_N_WORDS (rank_words _)).
  apply in_or_app. left. exact H.
Qed.

Lemma all_words_In (fs : list md_file) (w : text) :
  In w (all_words (scan_files fs)) <->
  exists f, In f fs /\ In w (words_of f).
Proof.
  rewrite all_words_flat_map, in_flat_map. reflexivity.
Qed.

Lemma words_of_readable (f : md_file) (w : text) :
  In w (words_of f) -> is_readable f = true.
Proof.
  unfold words_of, is_readable. destruct (read_text f); [reflexivity | intros []].
Qed.

Lemma words_of_In (f : md_file) (w : text) :
  In w (words_of f) ->
  keep_word w = true /\ w <> [] /\ forallb char_isword w = true /\ str_lower w = w.
Proof.
  unfold words_of. destruct (read_text f) as [content|e]; [|intros []].
  intros H. apply extract_words_In in H. destruct H as [Hk Ht].
  apply token_lower_fixed in Ht. tauto.
Qed.

Lemma frequent_word_source (fs : list md_file) (w : text) (n : nat) :
  In (w, n) (find_frequent_words fs) ->
  exists f, In f fs /\ In w (words_of f).
Proof.
  intros H. apply find_frequent_words_In in H. destruct H as [Hn Hmin].
  apply all_words_In. apply occurrences_pos_In.
  unfold MIN_FREQUENCY in Hmin. lia.
Qed.

Lemma frequent_words_word_terms (fs : list md_file) :
  forallb is_word_term (map fst (find_frequent_words fs)) = true.
Proof.
  apply forallb_forall. intros w Hw.
  apply in_map_iff in Hw. destruct Hw as ([w' n] & <- & Hin). simpl.
  apply frequent_word_source in Hin. destruct Hin as (f & _ & Hf).
  apply words_of_In in Hf. apply is_word_term_true. tauto.
Qed.

(** X1.  Every term of the list of [find_frequent_words] is a word some
    readable file contributes: it has at least [MIN_WORD_LENGTH]
    characters, all alphabetic and in lower case, and is no stopword.  In
    particular it is a non-empty string of word characters. *)
Theorem find_frequent_words_terms (markdown_files : list md_file) :
  Forall (fun w =>
            MIN_WORD_LENGTH <= length w
            /\ ~ In w STOPWORDS
            /\ str_isalpha w = true
            /\ str_lower w = w
            /\ is_word_term w = true
            /\ exists f, In f markdown_files /\ is_readable f = true
                         /\ In w (extract_words
                                    (extract_body_text
                                       (match read_text f with
                                        | ReadOk content => content
                                        | ReadError _ => []
                                        end))))
         (map fst (find_frequent_words markdown_files)).
Proof.
  apply Forall_forall. intros w Hw.
  apply in_map_iff in Hw. destruct Hw as ([w' n] & <- & Hin). simpl.
  apply frequent_word_source in Hin. destruct Hin as (f & Hf & Hw).
  pose proof (words_of_In _ _ Hw) as (Hk & Hne & Hword & Hlow).
  apply keep_word_true in Hk. destruct Hk as (Hlen & Hstop & Halpha).
  repeat split; try assumption.
  - apply is_word_term_true. split; assumption.
  - exists f. split; [exact Hf|]. split; [exact (words_of_readable _ _ Hw)|].
    unfold words_of in Hw. destruct (read_text f); [exact Hw | destruct Hw].
Qed.


(** ** The counts of the term list *)

Lemma NoDup_map_filter {A B : Type} (g : A -> B) (f : A -> bool) (l : list A) :
  NoDup (map g l) -> NoDup (map g (filter f l)).
Proof.
  induction l as [|x l IH]; simpl; intros H; [constructor|].
  inversion H as [|? ? Hn Hd]; subst.
  destruct (f x); simpl; [|now apply IH].
  constructor; [|now apply IH].
  intros Hin. apply Hn. apply in_map_iff in Hin. destruct Hin as (y & Hy & Hin).
  apply filter_In in Hin. apply in_map_iff. exists y. tauto.
Qed.

Lemma NoDup_map_insert_desc {A B : Type} (g : A -> B) (key : A -> nat)
  (x : A) (l : list A) :
  ~ In (g x) (map g l) -> NoDup (map g l) ->
  NoDup (map g (insert_desc key x l)).
Proof.
  induction l as [|y l IH]; simpl; intros Hn Hd.
  - constructor; [intros [] | constructor].
  - inversion Hd as [|? ? Hny Hdl]; subst.
    destruct (key x <? key y); simpl.
    + constructor.
      * intros Hin. apply in_map_iff in Hin. destruct Hin as (z & Hz & Hin).
        apply insert_desc_In in Hin. destruct Hin as [-> | Hin].
        -- apply Hn. left. symmetry. exact Hz.
        -- apply Hny. apply in_map_iff. exists z. tauto.
      * apply IH; [|exact Hdl]. intros Hin. apply Hn. right. exact Hin.
    + constructor; [exact Hn | exact Hd].
Qed.

Lemma NoDup_map_sort_desc {A B : Type} (g : A -> B) (key : A -> nat) (l : list A) :
  NoDup (map g l) -> NoDup (map g (sort_desc key l)).
Proof.
  induction l as [|x l IH]; simpl; intros H; [constructor|].
  inversion H as [|? ? Hn Hd]; subst.
  apply NoDup_map_insert_desc; [|now apply IH].
  intros Hin. apply Hn. apply in_map_iff in Hin. destruct Hin as (z & Hz & Hin).
  apply sort_desc_In in Hin. apply in_map_iff. exists z. tauto.
Qed.

Lemma NoDup_firstn {A : Type} (n : nat) (l : list A) :
  NoDup l -> NoDup (firstn n l).
Proof.
  revert n. induction l as [|x l IH]; intros [|n] H; simpl; try constructor.
  - inversion H as [|? ? Hn Hd]; subst. intros Hin. apply Hn.
    rewrite <- (firstn_skipn n l). apply in_or_app. left. exact Hin.
  - inversion H; subst. now apply IH.
Qed.

Lemma rank_words_NoDup (ws : list text) : NoDup (map fst (rank_words ws)).
Proof.
  unfold rank_words. apply NoDup_map_sort_desc, NoDup_map_filter.
  apply (Counter_wf ws).
Qed.

Lemma find_frequent_words_NoDup (fs : list md_file) :
  NoDup (map fst (find_frequent_words fs)).
Proof.
  unfold find_frequent_words. rewrite <- firstn_map.
  apply NoDup_firstn, rank_words_NoDup.
Qed.

(** X3.  Each entry of the result of [find_frequent_words] carries the
    number of times its word occurs in the words of all readable files,
    which is at least [MIN_FREQUENCY]; no word has two entries; and when
    no more than [TOP_N_WORDS] words reach the threshold, every such word
    has its entry. *)
Theorem find_frequent_words_counts (markdown_files : list md_file) :
  let ws := flat_map
              (fun f => match read_text f with
                        | ReadOk content => extract_words (extract_body_text content)
                        | ReadError _ => []
                        end) markdown_files in
  let result := find_frequent_words markdown_files in
  Forall (fun wc => snd wc = occurrences (fst wc) ws /\ MIN_FREQUENCY <= snd wc)
         result
  /\ NoDup (map fst result)
  /\ (length (rank_words ws) <= TOP_N_WORDS ->
      forall w, MIN_FREQUENCY <= occurrences w ws ->
                In (w, occurrences w ws) result).
Proof.
  intros ws result.
  assert (Hws : all_words (scan_files markdown_files) = ws).
  { rewrite all_words_flat_map. reflexivity. }
  repeat split.
  - apply Forall_forall. intros [w n] Hin. simpl.
    apply find_frequent_words_In in Hin. rewrite Hws in Hin. exact Hin.
  - apply find_frequent_words_NoDup.
  - intros Hlen w Hw. unfold result, find_frequent_words. rewrite Hws.
    rewrite firstn_all2 by exact Hlen.
    apply rank_words_In. split; [reflexivity | exact Hw].
Qed.

(** ** The annotator only inserts square brackets *)

Lemma inserts_refl (s : text) : inserts_brackets s s.
Proof. induction s; constructor; assumption. Qed.

Lemma inserts_app (a a' b b' : text) :
  inserts_brackets a a' -> inserts_brackets b b' ->
  inserts_brackets (a ++ b) (a' ++ b').
Proof.
  intros Ha Hb. induction Ha; simpl; [exact Hb | |].
  - now apply inserts_keep.
  - now apply inserts_add.
Qed.

Lemma inserts_trans (a b c : text) :
  inserts_brackets a b -> inserts_brackets b c -> inserts_brackets a c.
Proof.
  intros Hab Hbc. revert a Hab.
  induction Hbc as [|x b c Hbc IH|x b c Hx Hbc IH]; intros a Hab.
  - exact Hab.
  - inversion Hab as [|y a' b' Ha'|y a' b' Hy Ha']; subst.
    + apply inserts_keep. now apply IH.
    + apply inserts_add; [exact Hy | now apply IH].
  - apply inserts_add; [exact Hx | now apply IH].
Qed.

Lemma inserts_wrap (o : text) :
  inserts_brackets o (txt "[[" ++ o ++ txt "]]").
Proof.
  rewrite <- (app_nil_l o) at 1. rewrite <- (app_nil_r o) at 1.
  apply inserts_app; [|apply inserts_app; [apply inserts_refl|]];
    repeat (apply inserts_add; [reflexivity|]); constructor.
Qed.

Lemma inserts_length (s t : text) :
  inserts_brackets s t -> length s <= length t.
Proof. induction 1; simpl; lia. Qed.

Lemma inserts_same_length (s t : text) :
  inserts_brackets s t -> length t <= length s -> s = t.
Proof.
  induction 1 as [|c s t H IH|c s t Hc H IH]; simpl; intros Hl.
  - reflexivity.
  - f_equal. apply IH. lia.
  - apply inserts_length in H. lia.
Qed.

Lemma inserts_strip (s t : text) :
  inserts_brackets s t -> strip_brackets t = strip_brackets s.
Proof.
  unfold strip_brackets.
  induction 1 as [|c s t H IH|c s t Hc H IH]; simpl.
  - reflexivity.
  - rewrite IH. reflexivity.
  - unfold is_bracket in Hc. rewrite Hc. simpl. exact IH.
Qed.

Lemma replace_func_inserts (s : text) (i j : nat) :
  inserts_brackets (slice s i j) (replace_func s i j).
Proof.
  unfold replace_func. destruct (_ || _); [apply inserts_refl | apply inserts_wrap].
Qed.

Lemma sub_go_inserts (w : text) :
  forall n rest pre, length rest <= n ->
    inserts_brackets rest (sub_go w pre rest).
Proof.
  induction n as [|n IH]; intros rest pre Hl.
  - destruct rest; [|simpl in Hl; lia]. rewrite sub_go_nil.
    destruct (match_word_pattern w pre []) eqn:E; [|constructor].
    pose proof (replace_func_inserts pre (length pre) (length pre + length w)) as H.
    rewrite <- (app_nil_r pre) in H at 1. rewrite slice_start, firstn_nil in H.
    exact H.
  - destruct rest as [|c r]; [apply (IH [] pre); simpl; lia|].
    destruct (match_word_pattern w pre (c :: r)) eqn:E.
    + destruct w as [|x w'].
      * rewrite sub_go_match_empty by assumption.
        pose proof (replace_func_inserts (pre ++ c :: r) (length pre)
                      (length pre + length (@nil ascii))) as H.
        rewrite slice_start in H. cbn [length firstn] in H.
        apply (inserts_app [] _ (c :: r) _ H).
        apply inserts_keep. apply IH. simpl in Hl. lia.
      * rewrite sub_go_match by (try assumption; discriminate).
        pose proof (replace_func_inserts (pre ++ c :: r) (length pre)
                      (length pre + length (x :: w'))) as H.
        rewrite slice_start in H.
        rewrite <- (firstn_skipn (length (x :: w')) (c :: r)) at 1.
        apply inserts_app; [exact H|].
        apply IH. rewrite length_skipn. simpl in *. lia.
    + rewrite sub_go_nomatch by assumption.
      apply inserts_keep. apply IH. simpl in Hl. lia.
Qed.

Lemma annotate_part_inserts (words : list text) (part : text) :
  inserts_brackets part (annotate_part words part).
Proof.
  unfold annotate_part. destruct (match_wikilink part); [apply inserts_refl|].
  generalize (sort_desc (@length ascii) words). intros ws. revert part.
  induction ws as [|w ws IH]; intros part; [apply inserts_refl|]. simpl.
  eapply inserts_trans; [|apply IH].
  unfold re_sub_word. now apply (sub_go_inserts w (length part)).
Qed.

Lemma annotate_split_inserts (words : list text) (acc y : text) :
  inserts_brackets (rev acc ++ y)
                   (concat (map (annotate_part words) (split_go acc y))).
Proof.
  rewrite <- (concat_split_go acc y).
  induction (split_go acc y) as [|p l IH]; [constructor|].
  cbn [map concat]. apply inserts_app; [apply annotate_part_inserts | exact IH].
Qed.

Lemma add_wikilinks_inserts (s : text) (words : list text) :
  inserts_brackets s (add_wikilinks_to_text s words).
Proof. apply (annotate_split_inserts words [] s). Qed.

(** X4.  Whatever the terms, the output of the annotator is its input with
    square brackets inserted: every character of the input is kept, in its
    place and in its case, and nothing but "[" and "]" is added.  So the
    output is never shorter, it is the input when it has the same length,
    and without its square brackets it reads as the input does. *)
Theorem add_wikilinks_only_inserts_brackets (s : text) (words_to_link : list text) :
  let out := add_wikilinks_to_text s words_to_link in
  inserts_brackets s out
  /\ length s <= length out
  /\ (length out <= length s -> out = s)
  /\ strip_brackets out = strip_brackets s.
Proof.
  intros out. pose proof (add_wikilinks_inserts s words_to_link) as H.
  fold out in H. repeat split.
  - exact H.
  - now apply inserts_length.
  - intros Hl. symmetry. now apply inserts_same_length.
  - now apply inserts_strip.
Qed.

(** ** What [process_markdown_file] writes *)

Lemma split_frontmatter_None (content body : text) :
  split_frontmatter content = (None, body) -> body = content.
Proof.
  unfold split_frontmatter. destruct (_ <? 3); intros H; now inversion H.
Qed.

(** The text [process_markdown_file] hands to [write_text] when the body
    has changed. *)
Lemma process_markdown_file_result (f : md_file) (words : list text) :
  process_markdown_file f words =
  match read_text f with
  | ReadError _ => (false, f)
  | ReadOk content =>
      let new_body := add_wikilinks_to_text (snd (split_frontmatter content)) words in
      if text_eqb new_body (snd (split_frontmatter content)) then (false, f)
      else write_and_report f
             match fst (split_frontmatter content) with
             | Some frontmatter => frontmatter ++ [newline] ++ new_body
             | None => new_body
             end
  end.
Proof.
  unfold process_markdown_file. destruct (read_text f) as [content|e]; [|reflexivity].
  destruct (split_frontmatter content) as [[fm|] body] eqn:E; cbn [fst snd].
  - destruct (text_eqb _ body); reflexivity.
  - apply split_frontmatter_None in E. subst body.
    destruct (text_eqb _ content); reflexivity.
Qed.

Lemma write_and_report_cases (f : md_file) (s : text) :
  (write_failure f s = None
   /\ write_and_report f s = (true, MdFile (name f) (ReadOk s) (write_failure f)))
  \/ exists message remains,
       write_failure f s = Some (message, remains)
       /\ write_and_report f s = (false, MdFile (name f) remains (write_failure f)).
Proof.
  unfold write_and_report, write_text.
  destruct (write_failure f s) as [[message remains]|].
  - right. now exists message, remains.
  - now left.
Qed.

(** The text written is never the text read. *)
Lemma written_differs (content : text) (words : list text) :
  let body := snd (split_frontmatter content) in
  let new_body := add_wikilinks_to_text body words in
  new_body <> body ->
  match fst (split_frontmatter content) with
  | Some frontmatter => frontmatter ++ [newline] ++ new_body
  | None => new_body
  end <> content.
Proof.
  intros body new_body Hne.
  destruct (split_frontmatter content) as [[fm|] b] eqn:E; cbn [fst snd] in *.
  - apply split_frontmatter_concat in E. subst content body.
    intros Heq. apply app_inv_head in Heq.
    pose proof (inserts_length _ _ (add_wikilinks_inserts b words)) as Hl.
    fold new_body in Hl. apply (f_equal (@length ascii)) in Heq.
    rewrite length_app in Heq. simpl in Heq. lia.
  - apply split_frontmatter_None in E. subst content body. exact Hne.
Qed.

(** The text written is the text read with brackets and at most one line
    break inserted. *)
Lemma written_only_inserted (content : text) (words : list text) :
  only_inserted content
    match fst (split_frontmatter content) with
    | Some frontmatter =>
        frontmatter ++ [newline]
        ++ add_wikilinks_to_text (snd (split_frontmatter content)) words
    | None => add_wikilinks_to_text (snd (split_frontmatter content)) words
    end.
Proof.
  destruct (split_frontmatter content) as [[fm|] body] eqn:E; cbn [fst snd].
  - right. exists fm, body, (add_wikilinks_to_text body words).
    split; [now apply split_frontmatter_concat|].
    split; [reflexivity | apply add_wikilinks_inserts].
  - apply split_frontmatter_None in E. subst body. left.
    apply add_wikilinks_inserts.
Qed.

Lemma process_markdown_file_name (f : md_file) (words : list text) :
  name (snd (process_markdown_file f words)) = name f.
Proof.
  rewrite process_markdown_file_result.
  destruct (read_text f); [|reflexivity].
  cbv zeta. destruct (text_eqb _ _); [reflexivity|].
  unfold write_and_report, write_text.
  now destruct (write_failure f _) as [[? ?]|].
Qed.

Lemma process_markdown_file_write_failure (f : md_file) (words : list text) :
  write_failure (snd (process_markdown_file f words)) = write_failure f.
Proof.
  rewrite process_markdown_file_result.
  destruct (read_text f); [|reflexivity].
  cbv zeta. destruct (text_eqb _ _); [reflexivity|].
  unfold write_and_report, write_text.
  now destruct (write_failure f _) as [[? ?]|].
Qed.

(** What stands behind each value of the flag. *)
Lemma process_markdown_file_cases (f : md_file) (words : list text) :
  process_markdown_file f words = (false, f)
  \/ exists content written,
       read_text f = ReadOk content
       /\ written <> content
       /\ only_inserted content written
       /\ ((write_failure f written = None
            /\ process_markdown_file f words
               = (true, MdFile (name f) (ReadOk written) (write_failure f)))
           \/ exists message remains,
                write_failure f written = Some (message, remains)
                /\ process_markdown_file f words
                   = (false, MdFile (name f) remains (write_failure f))).
Proof.
  rewrite !process_markdown_file_result.
  destruct (read_text f) as [content|e] eqn:Er; [|now left]. cbv zeta.
  destruct (text_eqb _ _) eqn:Eb; [now left|]. right.
  apply text_eqb_false in Eb.
  match goal with
  | |- context [write_and_report f ?w] => exists content, w
  end.
  split; [reflexivity|].
  split; [now apply written_differs|].
  split; [apply written_only_inserted|].
  apply write_and_report_cases.
Qed.

Lemma process_markdown_file_unchanged (f : md_file) (words : list text) :
  writable f ->
  fst (process_markdown_file f words) = false ->
  snd (process_markdown_file f words) = f.
Proof.
  intros Hw.
  destruct (process_markdown_file_cases f words)
    as [-> | (content & written & _ & _ & _ & [[_ ->] | (m & r & Hf & _)])].
  - reflexivity.
  - discriminate.
  - rewrite Hw in Hf. discriminate.
Qed.

Lemma process_markdown_file_changed (f : md_file) (words : list text) :
  fst (process_markdown_file f words) = true ->
  read_text (snd (process_markdown_file f words)) <> read_text f.
Proof.
  destruct (process_markdown_file_cases f words)
    as [-> | (content & written & Hr & Hne & _ & [[_ ->] | (m & r & _ & ->)])].
  - discriminate.
  - intros _. cbn [snd read_text]. rewrite Hr. congruence.
  - discriminate.
Qed.

(** X5.  The flag [process_markdown_file] returns.  It is [True] only
    after a write that went through, and the file then holds a text that
    differs from the one that was read.  It is [False] when the file
    cannot be read or has nothing to change, and the file is then as it
    was; and it is [False] when the write raised, the file then being as
    the failed write left it.  For a file whose writes cannot fail the flag
    is [False] exactly when the file is left as it was and [True] exactly
    when its content is not what it was.  The file keeps its name. *)
Theorem process_markdown_file_flag (f : md_file) (words_to_link : list text) :
  let r := process_markdown_file f words_to_link in
  name (snd r) = name f
  /\ (is_readable f = false -> r = (false, f))
  /\ (fst r = true ->
      exists content written,
        read_text f = ReadOk content /\ written <> content
        /\ write_failure f written = None
        /\ read_text (snd r) = ReadOk written)
  /\ (fst r = false ->
      snd r = f
      \/ exists written message remains,
           write_failure f written = Some (message, remains)
           /\ read_text (snd r) = remains)
  /\ (writable f ->
      (fst r = false <-> snd r = f)
      /\ (fst r = true <-> read_text (snd r) <> read_text f)).
Proof.
  intros r. subst r.
  split; [apply process_markdown_file_name|].
  split.
  { unfold is_readable. rewrite process_markdown_file_result.
    destruct (read_text f); [discriminate | reflexivity]. }
  split.
  { destruct (process_markdown_file_cases f words_to_link)
      as [-> | (content & written & Hr & Hne & _ & [[Hw ->] | (m & r & _ & ->)])];
      try discriminate.
    intros _. now exists content, written. }
  split.
  { destruct (process_markdown_file_cases f words_to_link)
      as [-> | (content & written & Hr & Hne & _ & [[Hw ->] | (m & r & Hf & ->)])].
    - now left.
    - discriminate.
    - intros _. right. now exists written, m, r. }
  intros Hw.
  pose proof (process_markdown_file_unchanged f words_to_link Hw) as Hu.
  pose proof (process_markdown_file_changed f words_to_link) as Hc.
  split.
  - split; [exact Hu|]. intros Heq.
    destruct (fst (process_markdown_file f words_to_link)); [|reflexivity].
    specialize (Hc eq_refl). rewrite Heq in Hc. congruence.
  - split; [exact Hc|]. intros Hne.
    destruct (fst (process_markdown_file f words_to_link)); [reflexivity|].
    rewrite (Hu eq_refl) in Hne. congruence.
Qed.

(** X6.  What [process_markdown_file] hands to [write_text].  Whenever it
    writes, the text is the content it has read with square brackets
    inserted and at most one line break inserted, the text before that
    line break being copied as it is: no character of the note is removed,
    replaced or moved.  That text is what the file holds after a write that
    went through; a file that is not written is left as it was. *)
Theorem process_markdown_file_only_inserts (f : md_file) (words_to_link : list text) :
  let r := process_markdown_file f words_to_link in
  match read_text f with
  | ReadError _ => r = (false, f)
  | ReadOk content =>
      r = (false, f)
      \/ exists written,
           only_inserted content written
           /\ ((fst r = true /\ read_text (snd r) = ReadOk written)
               \/ (fst r = false
                   /\ exists message remains,
                        write_failure f written = Some (message, remains)
                        /\ read_text (snd r) = remains))
  end.
Proof.
  intros r. subst r.
  destruct (process_markdown_file_cases f words_to_link)
    as [E | (content & written & Hr & Hne & Hins & [[Hw E] | (m & r & Hf & E)])].
  - rewrite E. destruct (read_text f); [now left | reflexivity].
  - rewrite Hr, E. right. exists written. split; [exact Hins|]. now left.
  - rewrite Hr, E. right. exists written. split; [exact Hins|]. right.
    split; [reflexivity|]. now exists m, r.
Qed.

Example process_markdown_file_failed_write :
  let f := MdFile (txt "a.md") (ReadOk (txt "una casa"))
                  (fun _ => Some (txt "Permission denied", ReadOk (txt "una casa"))) in
  process_markdown_file f [txt "casa"] = (false, f).
Proof. reflexivity. Qed.

(** ** The run of [main] *)

Lemma read_result_eqb_true (a b : read_result) :
  read_result_eqb a b = true <-> a = b.
Proof.
  destruct a as [x|x], b as [y|y]; simpl; try (split; discriminate);
    rewrite text_eqb_true; split; congruence.
Qed.

Lemma run_fold (words : list text) (fs : list md_file) (st : run_state) :
  fold_left (run_step words) fs st =
  RunState
    (modified_count st
     + length (filter (fun f => fst (process_markdown_file f words)) fs))
    (unchanged_count st
     + length (filter (fun f => negb (fst (process_markdown_file f words))) fs))
    (processed st ++ map (fun f => snd (process_markdown_file f words)) fs).
Proof.
  revert st. induction fs as [|f fs IH]; intros st; simpl.
  - rewrite !Nat.add_0_r, app_nil_r. now destruct st.
  - rewrite IH. unfold run_step.
    destruct (process_markdown_file f words) as [[|] f']; simpl;
      rewrite <- app_assoc; simpl; f_equal; lia.
Qed.

Lemma filter_complement_length {A : Type} (p : A -> bool) (l : list A) :
  length (filter p l) + length (filter (fun x => negb (p x)) l) = length l.
Proof.
  induction l as [|x l IH]; simpl; [reflexivity|].
  destruct (p x); simpl; lia.
Qed.

Lemma content_changed_true (words : list text) (f : md_file) :
  fst (process_markdown_file f words) = true ->
  content_changed (f, snd (process_markdown_file f words)) = true.
Proof.
  intros E. apply process_markdown_file_changed in E.
  unfold content_changed. cbn [fst snd].
  destruct (read_result_eqb _ _) eqn:Er; [|reflexivity].
  apply read_result_eqb_true in Er. congruence.
Qed.

Lemma content_changed_flag (words : list text) (f : md_file) :
  writable f ->
  content_changed (f, snd (process_markdown_file f words))
  = fst (process_markdown_file f words).
Proof.
  intros Hw. destruct (fst (process_markdown_file f words)) eqn:E.
  - now apply content_changed_true.
  - apply (process_markdown_file_unchanged f words Hw) in E. rewrite E.
    unfold content_changed. cbn [fst snd].
    apply negb_false_iff, read_result_eqb_true. reflexivity.
Qed.

Lemma changed_count_le (words : list text) (fs : list md_file) :
  length (filter (fun f => fst (process_markdown_file f words)) fs)
  <= length (filter content_changed
               (combine fs (map (fun f => snd (process_markdown_file f words)) fs))).
Proof.
  induction fs as [|f fs IH]; [apply Nat.le_refl|].
  cbn [map combine filter].
  destruct (fst (process_markdown_file f words)) eqn:E.
  - rewrite (content_changed_true words f E). simpl. lia.
  - destruct (content_changed _); simpl; lia.
Qed.

Lemma changed_count (words : list text) (fs : list md_file) :
  Forall writable fs ->
  length (filter content_changed
            (combine fs (map (fun f => snd (process_markdown_file f words)) fs)))
  = length (filter (fun f => fst (process_markdown_file f words)) fs).
Proof.
  induction 1 as [|f fs Hf Hfs IH]; [reflexivity|].
  cbn [map combine filter]. rewrite (content_changed_flag words f Hf).
  destruct (fst (process_markdown_file f words)); simpl; now rewrite IH.
Qed.

Lemma main_run (f : md_file) (fs : list md_file) (wc : text * nat)
  (wcs : list (text * nat)) :
  find_frequent_words (f :: fs) = wc :: wcs ->
  let words := map fst (wc :: wcs) in
  main (Some (f :: fs)) =
  (Summary
     (Stats (length (f :: fs))
        (length (filter (fun g => fst (process_markdown_file g words)) (f :: fs)))
        (length (filter (fun g => negb (fst (process_markdown_file g words))) (f :: fs)))
        (length words) (wc :: wcs) MIN_WORD_LENGTH MIN_FREQUENCY TOP_N_WORDS),
   Some (map (fun g => snd (process_markdown_file g words)) (f :: fs))).
Proof.
  intros E words. unfold main. rewrite E. fold words.
  rewrite run_fold. reflexivity.
Qed.

(** X7.  The counters of [main].  When the run reaches its summary, the
    counts of modified and of unchanged files add up to the number of
    files; every file counted as modified holds a content that is not what
    it was, so the count of modified files is at most the number of files
    whose content differs afterwards, and it is that number when no write
    can fail; and between 1 and [TOP_N_WORDS] words are linked.  A run that
    stops early, for want of files or of frequent words, leaves the folder
    as it was. *)
Theorem main_summary (markdown_files : list md_file) :
  match main (Some markdown_files) with
  | (Summary s, Some after) =>
      total_files s = length markdown_files
      /\ length after = length markdown_files
      /\ modified_files s + unchanged_files s = total_files s
      /\ modified_files s
         <= length (filter content_changed (combine markdown_files after))
      /\ (Forall writable markdown_files ->
          modified_files s
          = length (filter content_changed (combine markdown_files after)))
      /\ words_linked s = length (top_words s)
      /\ 1 <= words_linked s <= TOP_N_WORDS
  | (NoMarkdownFiles, after) =>
      markdown_files = [] /\ after = Some markdown_files
  | (NoFrequentWords, after) =>
      markdown_files <> [] /\ find_frequent_words markdown_files = []
      /\ after = Some markdown_files
  | (Summary _, None) | (MissingInputDir, _) => False
  end.
Proof.
  destruct markdown_files as [|f fs]; [simpl; tauto|].
  destruct (find_frequent_words (f :: fs)) as [|wc wcs] eqn:E.
  - unfold main. rewrite E. repeat split; try reflexivity; discriminate.
  - rewrite (main_run f fs wc wcs E). cbv zeta.
    cbn [total_files modified_files unchanged_files words_linked top_words].
    split; [reflexivity|].
    split; [apply length_map|]. split; [apply filter_complement_length|].
    split; [apply changed_count_le|].
    split; [intros Hw; symmetry; now apply changed_count|].
    split; [apply length_map|]. rewrite length_map.
    split; [simpl; lia|]. rewrite <- E.
    unfold find_frequent_words. apply firstn_le_length.
Qed.

Example main_sample :
  main (Some sample_dir)
  = (Summary (Stats 3 2 1 1 [(txt "casa", 3)]
                    MIN_WORD_LENGTH MIN_FREQUENCY TOP_N_WORDS),
     Some [ MdFile (txt "a.md")
              (ReadOk (txt "---" ++ [newline] ++ txt "title: x" ++ [newline]
                       ++ txt "---" ++ [newline] ++ [newline] ++ txt "[[casa]]"))
              always_writable;
            MdFile (txt "b.md") (ReadOk (txt "Una [[casa]] grande. Mi [[CASA]]."))
              always_writable;
            MdFile (txt "c.md") (ReadError (txt "invalid start byte"))
              always_writable ]).
Proof. reflexivity. Qed.

(** ** The annotator on a text without markers *)

Lemma link_words_go_run (L : list text) (o post : text) :
  forallb char_isword o = true ->
  forall cur, link_words_go L cur (o ++ post) = link_words_go L (rev o ++ cur) post.
Proof.
  induction o as [|c o IH]; intros Ho cur; [reflexivity|].
  simpl in Ho. apply andb_true_iff in Ho as [Hc Ho].
  cbn [app link_words_go]. rewrite Hc, IH by assumption.
  cbn [rev]. now rewrite <- app_assoc.
Qed.

Lemma link_words_nil (L : list text) : link_words L [] = [].
Proof. reflexivity. Qed.

Lemma link_words_sep (L : list text) (d : ascii) (r : text) :
  char_isword d = false -> link_words L (d :: r) = d :: link_words L r.
Proof. intros Hd. unfold link_words. cbn [link_words_go]. now rewrite Hd. Qed.

Lemma link_words_token (L : list text) (o post : text) :
  o <> [] -> forallb char_isword o = true ->
  isword_opt (hd_error post) = false ->
  link_words L (o ++ post) = link_word L o ++ link_words L post.
Proof.
  intros Hne Ho Hpost. unfold link_words.
  rewrite link_words_go_run, app_nil_r by assumption.
  assert (Hr : rev o <> []).
  { intros E. apply Hne. rewrite <- (rev_involutive o), E. reflexivity. }
  destruct post as [|d r].
  - cbn [link_words_go]. rewrite app_nil_r.
    destruct (rev o) eqn:E; [contradiction|]. now rewrite <- E, rev_involutive.
  - simpl in Hpost. cbn [link_words_go]. rewrite Hpost.
    destruct (rev o) eqn:E; [contradiction|]. now rewrite <- E, rev_involutive.
Qed.

Lemma link_words_hd_sep (L : list text) (post : text) :
  isword_opt (hd_error post) = false ->
  isword_opt (hd_error (link_words L post)) = false.
Proof.
  destruct post as [|d r]; [reflexivity|]. simpl. intros Hd.
  now rewrite link_words_sep.
Qed.

Lemma link_words_hd_close (L : list text) (s : text) :
  hd_error (link_words L s) = Some "]"%char -> hd_error s = Some "]"%char.
Proof.
  destruct (text_cases s) as [-> | [(d & r & -> & Hd) | (o & post & -> & Hne & Ho & Hp)]].
  - discriminate.
  - now rewrite link_words_sep.
  - rewrite link_words_token by assumption.
    destruct o as [|c o]; [contradiction|].
    simpl in Ho. apply andb_true_iff in Ho as [Hc _].
    unfold link_word. destruct (existsb _ L); [discriminate|].
    simpl. intros H. injection H as ->. rewrite rbracket_not_word in Hc.
    discriminate.
Qed.

Lemma no_double_bracket_cons (d : ascii) (r : text) :
  no_double_bracket (d :: r) = true ->
  no_double_bracket r = true
  /\ (d = "["%char -> hd_error r <> Some "["%char)
  /\ (d = "]"%char -> hd_error r <> Some "]"%char).
Proof.
  unfold no_double_bracket. intros H.
  apply andb_true_iff in H as [H1 H2].
  apply negb_true_iff in H1, H2. cbn [contains] in H1, H2.
  apply orb_false_iff in H1 as [S1 C1]. apply orb_false_iff in H2 as [S2 C2].
  rewrite C1, C2. split; [reflexivity|]. split; intros -> Hr;
    destruct r as [|x r]; try discriminate; simpl in Hr; injection Hr as ->;
    discriminate.
Qed.

Lemma no_double_bracket_app_r (o post : text) :
  no_double_bracket (o ++ post) = true -> no_double_bracket post = true.
Proof.
  unfold no_double_bracket. intros H.
  apply andb_true_iff in H as [H1 H2]. apply negb_true_iff in H1, H2.
  apply contains_app_r in H1, H2. now rewrite H1, H2.
Qed.

Lemma sub_go_marker (w pre o z : text) :
  is_word_term w = true ->
  o <> [] -> forallb char_isword o = true ->
  sub_go w pre (txt "[[" ++ o ++ txt "]]" ++ z)
  = txt "[[" ++ o ++ txt "]]" ++ sub_go w (pre ++ txt "[[" ++ o ++ txt "]]") z.
Proof.
  intros Hw Hne Ho.
  change (txt "[[" ++ o ++ txt "]]" ++ z)
    with ("["%char :: "["%char :: o ++ txt "]]" ++ z).
  rewrite !sub_go_sep by (try assumption; apply lbracket_not_word).
  rewrite sub_go_wrapped; try assumption.
  - change (txt "[[" ++ o ++ txt "]]" ++ ?x)
      with ("["%char :: "["%char :: o ++ txt "]]" ++ x).
    do 2 f_equal. rewrite <- !app_assoc. reflexivity.
  - rewrite last_char_snoc. apply lbracket_not_word.
Qed.

Lemma ends_open_nil : ends_open [] = false.
Proof. reflexivity. Qed.

(** One substitution pass over a text in which the words of [L] are
    wrapped wraps the words that equal [w] as well. *)
Lemma sub_go_link_words (w : text) (L : list text) :
  is_word_term w = true ->
  forall s, no_double_bracket s = true ->
  forall pre,
    (isword_opt (hd_error s) = true ->
     isword_opt (last_char pre) = false /\ ends_open pre = false) ->
    (hd_error s = Some "["%char -> last_char pre <> Some "["%char) ->
    sub_go w pre (link_words L s) = link_words (L ++ [w]) s.
Proof.
  intros Hw s. pattern s. apply token_ind; clear s.
  - intros _ pre _ _. rewrite !link_words_nil. now apply sub_go_nil_word.
  - intros d r Hd IH Hn pre _ Hopen.
    apply no_double_bracket_cons in Hn as (Hr & Hno & Hnc).
    rewrite !link_words_sep, sub_go_sep by assumption. f_equal.
    apply IH; [exact Hr | |].
    + intros _. split; [now rewrite last_char_snoc|].
      destruct (ends_open (pre ++ [d])) eqn:E; [|reflexivity].
      apply ends_open_snoc in E as [-> Hl]. now destruct (Hopen eq_refl).
    + intros Hr' Hl. rewrite last_char_snoc in Hl. injection Hl as ->.
      now apply Hno.
  - intros o post Hne Ho Hp IH Hn pre Hpre Hopen.
    apply no_double_bracket_app_r in Hn.
    assert (Hhd : isword_opt (hd_error (o ++ post)) = true).
    { rewrite hd_error_app_ne by assumption. now apply forallb_word_hd. }
    destruct (Hpre Hhd) as [Hlast Hend].
    rewrite !link_words_token by assumption. unfold link_word.
    rewrite existsb_app. cbn [existsb]. rewrite orb_false_r.
    destruct (existsb (fun w0 => ci_equal w0 o) L) eqn:EL; cbn [orb].
    + rewrite <- !app_assoc. rewrite sub_go_marker by assumption.
      do 3 f_equal. apply IH; [exact Hn | |].
      * intros H. congruence.
      * intros _. rewrite !app_assoc, last_char_app by discriminate.
        discriminate.
    + assert (HX : isword_opt (hd_error (link_words L post)) = false)
        by now apply link_words_hd_sep.
      rewrite sub_go_token by assumption.
      assert (Hg : guarded pre (link_words L post) = false).
      { rewrite guarded_unfold, Hend. cbn [orb].
        destruct (starts_close (link_words L post)) eqn:E; [|reflexivity].
        apply starts_close_true in E as [q Hq].
        assert (H1 : hd_error (link_words L post) = Some "]"%char)
          by now rewrite Hq.
        apply link_words_hd_close in H1.
        destruct post as [|d r]; [discriminate|]. simpl in H1. injection H1 as ->.
        rewrite link_words_sep in Hq by apply rbracket_not_word.
        injection Hq as Hq.
        assert (H2 : hd_error (link_words L r) = Some "]"%char)
          by now rewrite Hq.
        apply link_words_hd_close in H2.
        apply no_double_bracket_cons in Hn as (_ & _ & Hnc).
        now destruct (Hnc eq_refl). }
      rewrite Hg. cbn [negb]. rewrite andb_true_r. f_equal.
      apply IH; [exact Hn | |].
      * intros H. congruence.
      * intros _ Hl.
        pose proof (last_char_word pre o Hne Ho) as Hlw.
        rewrite Hl in Hlw. simpl in Hlw. rewrite lbracket_not_word in Hlw.
        discriminate.
Qed.

Lemma fold_re_sub_link_words (s : text) :
  no_double_bracket s = true ->
  forall ws L, forallb is_word_term ws = true ->
    fold_left (fun modified_part word => re_sub_word word modified_part) ws
              (link_words L s)
    = link_words (L ++ ws) s.
Proof.
  intros Hs. induction ws as [|w ws IH]; intros L Hws.
  - now rewrite app_nil_r.
  - simpl in Hws. apply andb_true_iff in Hws as [Hw Hws].
    cbn [fold_left]. unfold re_sub_word.
    rewrite sub_go_link_words; try assumption.
    + rewrite IH by assumption. now rewrite <- app_assoc.
    + intros _. split; reflexivity.
    + intros _. discriminate.
Qed.

Lemma link_words_no_terms (s : text) : link_words [] s = s.
Proof.
  pattern s. apply token_ind; clear s.
  - reflexivity.
  - intros d r Hd IH. now rewrite link_words_sep, IH.
  - intros o post Hne Ho Hp IH. now rewrite link_words_token, IH.
Qed.

Lemma link_words_go_ext (L L' : list text) :
  (forall o, existsb (fun w => ci_equal w o) L = existsb (fun w => ci_equal w o) L') ->
  forall s cur, link_words_go L cur s = link_words_go L' cur s.
Proof.
  intros H. induction s as [|c s IH]; intros cur; cbn [link_words_go];
    unfold link_word; rewrite ?H, ?IH; reflexivity.
Qed.

Lemma existsb_In_ext {A : Type} (f : A -> bool) (l l' : list A) :
  (forall x, In x l <-> In x l') -> existsb f l = existsb f l'.
Proof.
  intros H. destruct (existsb f l) eqn:E, (existsb f l') eqn:E';
    try reflexivity.
  - apply existsb_exists in E as (x & Hx & Hf).
    assert (existsb f l' = true) by (apply existsb_exists; exists x; split;
                                     [now apply H | exact Hf]).
    congruence.
  - apply existsb_exists in E' as (x & Hx & Hf).
    assert (existsb f l = true) by (apply existsb_exists; exists x; split;
                                    [now apply H | exact Hf]).
    congruence.
Qed.

Lemma split_go_plain (s : text) :
  contains (txt "[[") s = false ->
  forall acc, split_go acc s = [rev acc ++ s].
Proof.
  induction s as [|c s IH]; intros Hc acc.
  - now rewrite split_go_nil, app_nil_r.
  - assert (Hm : match_wikilink (c :: s) = None).
    { destruct (match_wikilink (c :: s)) as [n|] eqn:E; [|reflexivity].
      apply match_wikilink_Some in E as (x & r & Hs & _).
      assert (contains (txt "[[") (c :: s) = true).
      { apply contains_true. exists [], (x ++ txt "]]" ++ r). exact Hs. }
      congruence. }
    rewrite split_go_None by assumption.
    cbn [contains] in Hc. apply orb_false_iff in Hc as [_ Hc].
    rewrite IH by assumption. cbn [rev]. now rewrite <- app_assoc.
Qed.

(** X9.  For texts and terms over the code points U+0000..U+00FF.  On a
    text without "[[" and without "]]", and with terms that are non-empty
    strings of word characters, the annotator wraps exactly the whole words
    that equal a term when case is ignored: each such word is wrapped once,
    in its own spelling, a word that merely contains a term is left alone,
    and nothing else changes.  The order of the terms and repeated terms
    make no difference. *)
Theorem add_wikilinks_links_whole_words (s : text) (words_to_link : list text) :
  no_double_bracket s = true ->
  forallb is_word_term words_to_link = true ->
  add_wikilinks_to_text s words_to_link = link_words words_to_link s.
Proof.
  intros Hs Hw.
  assert (Hc : contains (txt "[[") s = false).
  { unfold no_double_bracket in Hs. apply andb_true_iff in Hs as [H _].
    now apply negb_true_iff in H. }
  unfold add_wikilinks_to_text, re_split_wikilink.
  rewrite split_go_plain by assumption. cbn [rev app map concat].
  rewrite app_nil_r. unfold annotate_part.
  destruct (match_wikilink s) as [n|] eqn:E.
  - apply match_wikilink_Some in E as (x & r & Hx & _).
    assert (contains (txt "[[") s = true).
    { apply contains_true. exists [], (x ++ txt "]]" ++ r). exact Hx. }
    congruence.
  - rewrite <- (link_words_no_terms s) at 1.
    rewrite fold_re_sub_link_words; try assumption.
    + cbn [app]. unfold link_words. apply link_words_go_ext.
      intros o. apply existsb_In_ext. intros x. apply sort_desc_In.
    + now apply forallb_sort_desc.
Qed.

Lemma add_wikilinks_links_whole_words_witness :
  no_double_bracket (txt "La Casa [x] y casas, su casa.") = true
  /\ forallb is_word_term [txt "casa"; txt "casas"] = true
  /\ add_wikilinks_to_text (txt "La Casa [x] y casas, su casa.")
                           [txt "casa"; txt "casas"]
     = link_words [txt "casa"; txt "casas"] (txt "La Casa [x] y casas, su casa.")
  /\ link_words [txt "casa"; txt "casas"] (txt "La Casa [x] y casas, su casa.")
     = txt "La [[Casa]] [x] y [[casas]], su [[casa]].".
Proof.
  split; [reflexivity|]. split; [reflexivity|]. split; [|reflexivity].
  apply (add_wikilinks_links_whole_words
           (txt "La Casa [x] y casas, su casa.") [txt "casa"; txt "casas"]);
    reflexivity.
Defined.

(** ** The header of a written document *)

Lemma starts_with_app_long (p y r : text) :
  length p <= length y -> starts_with p (y ++ r) = starts_with p y.
Proof.
  revert y. induction p as [|x p IH]; intros y Hl; [reflexivity|].
  destruct y as [|c y]; [simpl in Hl; lia|].
  simpl. rewrite IH by (simpl in Hl; lia). reflexivity.
Qed.

(** The first occurrence of a separator does not depend on what follows
    it. *)
Lemma find_sep_stable (sep : text) :
  forall s a r, find_sep sep s = Some (a, r) ->
    forall r', find_sep sep (a ++ sep ++ r') = Some (a, r').
Proof.
  induction s as [|c s IH]; intros a r H r'; rewrite find_sep_unfold in H.
  - destruct (starts_with sep []) eqn:E; [|discriminate].
    injection H as <- _. cbn [app]. rewrite find_sep_unfold, starts_with_app.
    now rewrite skipn_app, skipn_all, Nat.sub_diag.
  - destruct (starts_with sep (c :: s)) eqn:E.
    + injection H as <- _. cbn [app]. rewrite find_sep_unfold, starts_with_app.
      now rewrite skipn_app, skipn_all, Nat.sub_diag.
    + destruct (find_sep sep s) as [[a0 r0]|] eqn:Es; [|discriminate].
      injection H as <- <-.
      pose proof (proj1 (find_sep_Some _ _ _ _ Es)) as Hs.
      rewrite find_sep_unfold.
      assert (Hsw : starts_with sep ((c :: a0) ++ sep ++ r') = false).
      { rewrite app_assoc, starts_with_app_long
          by (rewrite length_app; simpl; lia).
        rewrite <- (starts_with_app_long sep ((c :: a0) ++ sep) r0)
          by (rewrite length_app; simpl; lia).
        rewrite <- app_assoc. cbn [app]. now rewrite <- Hs. }
      rewrite Hsw. cbn [app]. now rewrite (IH a0 r0 eq_refl r').
Qed.

(** A document that has a header keeps it, as its header, when its body
    is replaced. *)
Lemma split_frontmatter_rebuild (content header body : text) :
  split_frontmatter content = (Some header, body) ->
  forall body', split_frontmatter (header ++ body') = (Some header, body').
Proof.
  rewrite split_frontmatter_cases.
  destruct (find_sep (txt "---") content) as [[a r]|] eqn:E1; [|discriminate].
  destruct (find_sep (txt "---") r) as [[b c]|] eqn:E2; [|discriminate].
  intros H body'.
  assert (Hh : header = a ++ txt "---" ++ b ++ txt "---") by congruence.
  subst header. clear H.
  rewrite split_frontmatter_cases.
  replace ((a ++ txt "---" ++ b ++ txt "---") ++ body')
    with (a ++ txt "---" ++ (b ++ txt "---" ++ body'))
    by now rewrite <- !app_assoc.
  rewrite (find_sep_stable _ _ _ _ E1), (find_sep_stable _ _ _ _ E2).
  reflexivity.
Qed.

Lemma inserts_app_inv (a t : text) :
  forall s, inserts_brackets s (a ++ t) ->
    exists s1 s2, s = s1 ++ s2 /\ inserts_brackets s1 a /\ inserts_brackets s2 t.
Proof.
  induction a as [|c a IH]; intros s H.
  - exists [], s. repeat split; [constructor | exact H].
  - cbn [app] in H. inversion H as [|x s' t' H'|x s' t' Hx H']; subst.
    + destruct (IH _ H') as (s1 & s2 & -> & H1 & H2).
      exists (c :: s1), s2. repeat split; [now constructor | exact H2].
    + destruct (IH _ H') as (s1 & s2 & -> & H1 & H2).
      exists s1, s2. repeat split; [now constructor | exact H2].
Qed.

Lemma inserts_block (x r : text) :
  forallb (fun c => negb (is_bracket c)) x = true ->
  forall s, inserts_brackets s (x ++ r) ->
    exists r', s = x ++ r' /\ inserts_brackets r' r.
Proof.
  induction x as [|c x IH]; intros Hx s H.
  - exists s. split; [reflexivity | exact H].
  - simpl in Hx. apply andb_true_iff in Hx as [Hc Hx].
    cbn [app] in H. inversion H as [|y s' t' H'|y s' t' Hy H']; subst.
    + destruct (IH Hx _ H') as (r' & -> & Hr). exists r'. now split.
    + rewrite Hy in Hc. discriminate.
Qed.

Lemma app_eq_suffix {A : Type} (p q p' q' : list A) :
  p ++ q = p' ++ q' -> length p <= length p' -> exists u, q = u ++ q'.
Proof.
  revert p'. induction p as [|x p IH]; intros p' H Hl.
  - exists p'. exact H.
  - destruct p' as [|y p']; [simpl in Hl; lia|].
    injection H as _ H. apply (IH p' H). simpl in Hl. lia.
Qed.

(** Inserting square brackets into a document without a header gives a
    document without a header. *)
Lemma split_frontmatter_inserts (s t : text) :
  inserts_brackets s t ->
  fst (split_frontmatter s) = None ->
  split_frontmatter t = (None, t).
Proof.
  intros Hst Hs. rewrite split_frontmatter_cases.
  destruct (find_sep (txt "---") t) as [[a r]|] eqn:E1; [|reflexivity].
  destruct (find_sep (txt "---") r) as [[b c]|] eqn:E2; [|reflexivity].
  exfalso.
  apply find_sep_Some in E1 as [Ht _]. apply find_sep_Some in E2 as [Hr _].
  subst t r.
  apply inserts_app_inv in Hst as (a' & s2 & -> & Ha & H2).
  apply inserts_block in H2 as (r' & -> & Hr'); [|reflexivity].
  apply inserts_app_inv in Hr' as (b' & s3 & -> & Hb & H3).
  apply inserts_block in H3 as (c' & -> & Hc'); [|reflexivity].
  rewrite split_frontmatter_cases in Hs.
  destruct (find_sep (txt "---") (a' ++ txt "---" ++ b' ++ txt "---" ++ c'))
    as [[a2 r2]|] eqn:F1.
  - apply find_sep_Some in F1 as [Hs2 Hmin].
    specialize (Hmin a' (b' ++ txt "---" ++ c') eq_refl).
    destruct (find_sep (txt "---") r2) as [[b2 c2]|] eqn:F2; [discriminate|].
    assert (Hsuf : exists u, r2 = u ++ txt "---" ++ c').
    { apply (app_eq_suffix (a2 ++ txt "---") r2 (a' ++ txt "---" ++ b')).
      - rewrite <- !app_assoc. rewrite <- Hs2. reflexivity.
      - rewrite !length_app. simpl. lia. }
    destruct Hsuf as (u & Hu).
    exact (find_sep_None _ _ F2 u c' Hu).
  - exact (find_sep_None _ _ F1 a' (b' ++ txt "---" ++ c') eq_refl).
Qed.

(** What [process_markdown_file] writes is cut by a second run where the
    first run cut the document: the header is the same, and the body is
    the annotated body, after a line break when there is a header. *)
Lemma split_frontmatter_written (content : text) (words : list text) :
  let new_body := add_wikilinks_to_text (snd (split_frontmatter content)) words in
  match fst (split_frontmatter content) with
  | Some frontmatter =>
      split_frontmatter (frontmatter ++ [newline] ++ new_body)
      = (Some frontmatter, newline :: new_body)
  | None => split_frontmatter new_body = (None, new_body)
  end.
Proof.
  intros new_body. subst new_body.
  destruct (split_frontmatter content) as [[fm|] body] eqn:E; cbn [fst snd].
  - apply (split_frontmatter_rebuild content fm body E).
  - pose proof (split_frontmatter_None _ _ E) as Hb. subst body.
    apply (split_frontmatter_inserts content).
    + apply add_wikilinks_inserts.
    + now rewrite E.
Qed.

(** ** The words of an annotated text *)

Lemma read_chars_app (st : list text * text) (a b : text) :
  read_chars st (a ++ b) = read_chars (read_chars st a) b.
Proof. apply fold_left_app. Qed.

Lemma read_chars_sep (st : list text * text) (d : ascii) (r : text) :
  char_isword d = false ->
  read_chars st (d :: r) = read_chars (close_word st, []) r.
Proof. intros Hd. unfold read_chars. cbn [fold_left]. unfold read_char. now rewrite Hd. Qed.

Lemma read_chars_run (o : text) :
  forallb char_isword o = true ->
  forall out cur, read_chars (out, cur) o = (out, rev o ++ cur).
Proof.
  induction o as [|c o IH]; intros Ho out cur; [reflexivity|].
  simpl in Ho. apply andb_true_iff in Ho as [Hc Ho].
  unfold read_chars. cbn [fold_left]. unfold read_char at 2. rewrite Hc.
  cbn [fst snd]. fold (read_chars (out, c :: cur) o). rewrite IH by assumption.
  cbn [rev]. now rewrite <- app_assoc.
Qed.

Lemma close_word_token (out : list text) (o : text) :
  o <> [] -> close_word (out, rev o) = out ++ [o].
Proof.
  intros Hne. unfold close_word. cbn [fst snd].
  destruct (rev o) eqn:E.
  - exfalso. apply Hne. rewrite <- (rev_involutive o), E. reflexivity.
  - now rewrite <- E, rev_involutive.
Qed.

Lemma read_chars_token (out : list text) (o post : text) :
  o <> [] -> forallb char_isword o = true ->
  isword_opt (hd_error post) = false ->
  close_word (read_chars (out, []) (o ++ post))
  = close_word (read_chars (out ++ [o], []) post).
Proof.
  intros Hne Ho Hp. rewrite read_chars_app, read_chars_run, app_nil_r by assumption.
  destruct post as [|d r].
  - cbn [read_chars fold_left]. now rewrite close_word_token.
  - simpl in Hp. rewrite !read_chars_sep by assumption.
    now rewrite close_word_token.
Qed.

Lemma findall_go_sep (pre : text) (d : ascii) (r : text) :
  char_isword d = false -> findall_go pre (d :: r) = findall_go (pre ++ [d]) r.
Proof. intros Hd. simp findall_go. rewrite Hd, andb_false_r. reflexivity. Qed.

Lemma findall_go_take (pre : text) (c : ascii) (s' : text) :
  at_boundary pre (c :: s') && char_isword c = true ->
  findall_go pre (c :: s') =
  (c :: firstn (span_word s') s')
  :: findall_go (pre ++ c :: firstn (span_word s') s') (skipn (span_word s') s').
Proof. intros H. simp findall_go. rewrite H. reflexivity. Qed.

Lemma findall_go_token (pre o post : text) :
  o <> [] -> forallb char_isword o = true ->
  isword_opt (hd_error post) = false ->
  isword_opt (last_char pre) = false ->
  findall_go pre (o ++ post) = o :: findall_go (pre ++ o) post.
Proof.
  intros Hne Ho Hp Hpre. destruct o as [|c o]; [contradiction|].
  simpl in Ho. apply andb_true_iff in Ho as [Hc Ho].
  cbn [app]. rewrite findall_go_take.
  - rewrite span_word_run by assumption.
    rewrite firstn_app, firstn_all, Nat.sub_diag, skipn_app, skipn_all, Nat.sub_diag.
    cbn [firstn skipn app]. now rewrite app_nil_r.
  - unfold at_boundary. rewrite Hpre. cbn [hd_error isword_opt]. now rewrite Hc.
Qed.

(** [re.findall] yields the maximal runs of word characters. *)
Lemma findall_go_runs :
  forall s pre out,
    (isword_opt (hd_error s) = true -> isword_opt (last_char pre) = false) ->
    out ++ findall_go pre s = close_word (read_chars (out, []) s).
Proof.
  intros s. pattern s. apply token_ind; clear s.
  - intros pre out _. simp findall_go. now rewrite app_nil_r.
  - intros d r Hd IH pre out _. rewrite findall_go_sep, read_chars_sep by assumption.
    apply IH. intros _. now rewrite last_char_snoc.
  - intros o post Hne Ho Hp IH pre out Hpre.
    rewrite findall_go_token; try assumption.
    + rewrite read_chars_token by assumption.
      transitivity ((out ++ [o]) ++ findall_go (pre ++ o) post);
        [now rewrite <- app_assoc | apply IH; intros H; congruence].
    + apply Hpre. rewrite hd_error_app_ne by assumption. now apply forallb_word_hd.
Qed.

Lemma re_findall_words_runs (s : text) : re_findall_words s = word_runs s.
Proof.
  unfold re_findall_words, word_runs.
  rewrite <- (findall_go_runs s [] []); [reflexivity | reflexivity].
Qed.

Lemma read_chars_cons (st : list text * text) (c : ascii) (t : text) :
  read_chars st (c :: t) = read_chars (read_char st c) t.
Proof. reflexivity. Qed.

Lemma close_word_lower (st : list text * text) :
  close_word (map str_lower (fst st), str_lower (snd st))
  = map str_lower (close_word st).
Proof.
  destruct st as [out cur]. unfold close_word. cbn [fst snd].
  destruct cur as [|x cur]; [reflexivity|].
  change (str_lower (x :: cur)) with (char_lower x :: str_lower cur).
  cbv iota. rewrite map_app. cbn [map]. do 2 f_equal.
  change (char_lower x :: str_lower cur) with (map char_lower (x :: cur)).
  unfold str_lower. symmetry. apply map_rev.
Qed.

Lemma read_char_lower (st : list text * text) (c : ascii) :
  read_char (map str_lower (fst st), str_lower (snd st)) (char_lower c)
  = (map str_lower (fst (read_char st c)), str_lower (snd (read_char st c))).
Proof.
  unfold read_char. rewrite char_isword_lower.
  destruct (char_isword c); cbn [fst snd]; [reflexivity|].
  now rewrite close_word_lower.
Qed.

Lemma read_chars_lower (t : text) :
  forall st,
    read_chars (map str_lower (fst st), str_lower (snd st)) (str_lower t)
    = (map str_lower (fst (read_chars st t)), str_lower (snd (read_chars st t))).
Proof.
  induction t as [|c t IH]; intros st; [reflexivity|].
  cbn [str_lower map]. rewrite !read_chars_cons, read_char_lower.
  apply (IH (read_char st c)).
Qed.

Lemma word_runs_lower (t : text) :
  word_runs (str_lower t) = map str_lower (word_runs t).
Proof.
  unfold word_runs.
  rewrite <- close_word_lower. f_equal. exact (read_chars_lower t ([], [])).
Qed.

Lemma extract_words_runs (s : text) :
  extract_words s = filter keep_word (map str_lower (word_runs s)).
Proof.
  now rewrite extract_words_filter, re_findall_words_runs, word_runs_lower.
Qed.

Lemma close_word_nil (out : list text) : close_word (out, []) = out.
Proof. reflexivity. Qed.

Lemma close_word_closed (st : list text * text) :
  close_word (close_word st, []) = close_word st.
Proof. reflexivity. Qed.

Lemma read_chars_snd_sep (st : list text * text) (x : text) (d : ascii) :
  char_isword d = false -> snd (read_chars st (x ++ [d])) = [].
Proof. intros Hd. now rewrite read_chars_app, read_chars_sep. Qed.

(** Two states of the reading that close to the same words are the same
    to a text that begins with a separator. *)
Lemma read_chars_closed (st1 st2 : list text * text) (d : ascii) (z : text) :
  close_word st1 = close_word st2 -> char_isword d = false ->
  read_chars st1 (d :: z) = read_chars st2 (d :: z).
Proof. intros H Hd. rewrite !read_chars_sep by assumption. now rewrite H. Qed.

Lemma sub_go_reads (w : text) :
  is_word_term w = true ->
  forall rest pre st,
    (isword_opt (hd_error rest) = true ->
     isword_opt (last_char pre) = false /\ snd st = []) ->
    close_word (read_chars st (sub_go w pre rest))
    = close_word (read_chars st rest).
Proof.
  intros Hw rest. pattern rest. apply token_ind; clear rest.
  - intros pre st _. now rewrite sub_go_nil_word.
  - intros d r Hd IH pre st _.
    rewrite sub_go_sep, !read_chars_sep by assumption.
    apply IH. intros _. split; [now rewrite last_char_snoc | reflexivity].
  - intros o post Hne Ho Hp IH pre st Hc.
    assert (Hhd : isword_opt (hd_error (o ++ post)) = true).
    { rewrite hd_error_app_ne by assumption. now apply forallb_word_hd. }
    destruct (Hc Hhd) as [Hlast Hst]. destruct st as [out cur].
    cbn [snd] in Hst. subst cur.
    rewrite sub_go_token by assumption.
    rewrite (read_chars_token out o post) by assumption.
    assert (HY : isword_opt (hd_error (sub_go w (pre ++ o) post)) = false)
      by now apply sub_go_hd.
    assert (HIH : close_word (read_chars (out ++ [o], []) (sub_go w (pre ++ o) post))
                  = close_word (read_chars (out ++ [o], []) post)).
    { apply IH. intros H. congruence. }
    destruct (ci_equal w o && negb (guarded pre post)).
    + rewrite <- !app_assoc.
      change (txt "[[" ++ o ++ txt "]]" ++ sub_go w (pre ++ o) post)
        with ("["%char :: "["%char :: o ++ txt "]]" ++ sub_go w (pre ++ o) post).
      rewrite !read_chars_sep by apply lbracket_not_word.
      rewrite !close_word_nil.
      rewrite (read_chars_token out o) by (try assumption; reflexivity).
      change (txt "]]" ++ sub_go w (pre ++ o) post)
        with ("]"%char :: "]"%char :: sub_go w (pre ++ o) post).
      rewrite !read_chars_sep by apply rbracket_not_word.
      rewrite !close_word_nil. exact HIH.
    + rewrite (read_chars_token out o) by assumption. exact HIH.
Qed.

Lemma fold_re_sub_reads (ws : list text) :
  forallb is_word_term ws = true ->
  forall part st, snd st = [] ->
    close_word (read_chars st
      (fold_left (fun modified_part word => re_sub_word word modified_part) ws part))
    = close_word (read_chars st part).
Proof.
  induction ws as [|w ws IH]; intros Hws part st Hst; [reflexivity|].
  simpl in Hws. apply andb_true_iff in Hws as [Hw Hws].
  cbn [fold_left]. rewrite IH by assumption.
  unfold re_sub_word. apply sub_go_reads; [exact Hw|].
  intros _. split; [reflexivity | exact Hst].
Qed.

Lemma annotate_part_reads (words : list text) (part : text) (st : list text * text) :
  forallb is_word_term words = true -> snd st = [] ->
  close_word (read_chars st (annotate_part words part))
  = close_word (read_chars st part).
Proof.
  intros Hws Hst. unfold annotate_part.
  destruct (match_wikilink part); [reflexivity|].
  apply fold_re_sub_reads; [now apply forallb_sort_desc | exact Hst].
Qed.

Lemma annotate_split_reads (words : list text) :
  forallb is_word_term words = true ->
  forall n y acc st, length y <= n -> snd st = [] ->
    close_word (read_chars st (concat (map (annotate_part words) (split_go acc y))))
    = close_word (read_chars st (rev acc ++ y)).
Proof.
  intros Hws. induction n as [|n IH]; intros y acc st Hl Hst.
  - destruct y; [|simpl in Hl; lia]. rewrite split_go_nil. cbn [map concat].
    rewrite !app_nil_r. now apply annotate_part_reads.
  - destruct y as [|c0 y'].
    { apply (IH [] acc); [simpl; lia | exact Hst]. }
    destruct (match_wikilink (c0 :: y')) as [L|] eqn:E.
    + rewrite (split_go_Some acc _ L E).
      pose proof (match_wikilink_bounds _ _ E) as HL.
      destruct (match_wikilink_split _ _ E) as (c' & Hf & Hc' & Hn' & _).
      cbn [map concat].
      assert (Hm : annotate_part words (firstn L (c0 :: y')) = firstn L (c0 :: y')).
      { unfold annotate_part. rewrite Hf.
        rewrite <- (app_nil_r (txt "[[" ++ c' ++ txt "]]")), <- !app_assoc.
        now rewrite match_wikilink_marker. }
      rewrite Hm. rewrite <- (firstn_skipn L (c0 :: y')) at 3.
      assert (Hi : exists M1, firstn L (c0 :: y') = "["%char :: M1)
        by (rewrite Hf; eexists; reflexivity).
      assert (Hii : exists M2, firstn L (c0 :: y') = M2 ++ ["]"%char]).
      { rewrite Hf. exists (txt "[[" ++ c' ++ ["]"%char]).
        rewrite <- !app_assoc. reflexivity. }
      remember (firstn L (c0 :: y')) as M eqn:HM.
      remember (skipn L (c0 :: y')) as rest eqn:Hrest.
      rewrite !read_chars_app.
      assert (Hswap : read_chars (read_chars st (annotate_part words (rev acc))) M
                      = read_chars (read_chars st (rev acc)) M).
      { destruct Hi as [M1 Hi]. rewrite Hi.
        apply read_chars_closed; [now apply annotate_part_reads
                                 | apply lbracket_not_word]. }
      rewrite Hswap. apply (IH rest []).
      * subst rest. rewrite length_skipn. cbn [length] in *. lia.
      * destruct Hii as [M2 Hii]. rewrite Hii.
        apply read_chars_snd_sep, rbracket_not_word.
    + rewrite (split_go_None acc c0 y' E).
      rewrite (IH y' (c0 :: acc) st) by (try assumption; simpl in Hl; lia).
      cbn [rev]. now rewrite <- app_assoc.
Qed.

Lemma add_wikilinks_runs (s : text) (words : list text) :
  forallb is_word_term words = true ->
  word_runs (add_wikilinks_to_text s words) = word_runs s.
Proof.
  intros Hws.
  apply (annotate_split_reads words Hws (length s) s [] ([], []));
    [lia | reflexivity].
Qed.

Lemma add_wikilinks_extract_words (s : text) (words : list text) :
  forallb is_word_term words = true ->
  extract_words (add_wikilinks_to_text s words) = extract_words s.
Proof.
  intros Hws. now rewrite !extract_words_runs, add_wikilinks_runs.
Qed.

(** X10.  For texts and terms over the code points U+0000..U+00FF.  With
    terms that are non-empty strings of word characters, the annotator does
    not change what the tokenizer reads: an annotated text yields the same
    words as the text itself, in the same order. *)
Theorem annotation_keeps_extracted_words (s : text) (words_to_link : list text) :
  forallb is_word_term words_to_link = true ->
  extract_words (add_wikilinks_to_text s words_to_link) = extract_words s.
Proof.
  intros Hws. rewrite !extract_words_runs. do 2 f_equal.
  now apply add_wikilinks_runs.
Qed.

Lemma annotation_keeps_extracted_words_witness :
  forallb is_word_term [txt "casa"; txt "red"] = true
  /\ extract_words
       (add_wikilinks_to_text (txt "La casa, [[red casa]] y Casa[[ red")
                              [txt "casa"; txt "red"])
     = extract_words (txt "La casa, [[red casa]] y Casa[[ red").
Proof.
  split; [reflexivity|].
  apply (annotation_keeps_extracted_words
           (txt "La casa, [[red casa]] y Casa[[ red") [txt "casa"; txt "red"]).
  reflexivity.
Defined.

(** ** A second run *)

Lemma space_not_word (c : ascii) : char_isspace c = true -> char_isword c = false.
Proof.
  intros H. destruct (char_isword c) eqn:E; [|reflexivity].
  apply char_isword_not_space in E. congruence.
Qed.

Lemma word_runs_sep (d : ascii) (x : text) :
  char_isword d = false -> word_runs (d :: x) = word_runs x.
Proof. intros Hd. unfold word_runs. now rewrite read_chars_sep. Qed.

Lemma word_runs_snoc (d : ascii) (x : text) :
  char_isword d = false -> word_runs (x ++ [d]) = word_runs x.
Proof.
  intros Hd. unfold word_runs. now rewrite read_chars_app, read_chars_sep.
Qed.

Lemma word_runs_lstrip (x : text) : word_runs (lstrip x) = word_runs x.
Proof.
  induction x as [|c x IH]; [reflexivity|]. cbn [lstrip].
  destruct (char_isspace c) eqn:E; [|reflexivity].
  rewrite IH. symmetry. now apply word_runs_sep, space_not_word.
Qed.

Lemma word_runs_rstrip (y : text) :
  word_runs (rev (lstrip y)) = word_runs (rev y).
Proof.
  induction y as [|c y IH]; [reflexivity|]. cbn [lstrip].
  destruct (char_isspace c) eqn:E; [|reflexivity].
  rewrite IH. cbn [rev]. symmetry. now apply word_runs_snoc, space_not_word.
Qed.

Lemma word_runs_strip (x : text) : word_runs (str_strip x) = word_runs x.
Proof.
  unfold str_strip. now rewrite word_runs_rstrip, rev_involutive, word_runs_lstrip.
Qed.

Lemma extract_words_strip (x : text) :
  extract_words (str_strip x) = extract_words x.
Proof. now rewrite !extract_words_runs, word_runs_strip. Qed.

Lemma extract_words_sep (d : ascii) (x : text) :
  char_isword d = false -> extract_words (d :: x) = extract_words x.
Proof. intros Hd. now rewrite !extract_words_runs, word_runs_sep. Qed.

(** The words a file contributes are the same after
    [process_markdown_file], when its writes go through. *)
Lemma words_of_processed (f : md_file) (words : list text) :
  forallb is_word_term words = true ->
  writable f ->
  words_of (snd (process_markdown_file f words)) = words_of f.
Proof.
  intros Hws Hw. rewrite process_markdown_file_result.
  destruct (read_text f) as [content|e] eqn:Er; [|reflexivity]. cbv zeta.
  destruct (text_eqb _ _); [reflexivity|].
  unfold write_and_report, write_text. rewrite Hw. cbn [snd].
  unfold words_of. cbn [read_text]. rewrite Er.
  rewrite !extract_body_text_split, !extract_words_strip.
  pose proof (split_frontmatter_written content words) as Hs. cbv zeta in Hs.
  destruct (fst (split_frontmatter content)) as [fm|]; rewrite Hs; cbn [snd].
  - rewrite extract_words_sep by reflexivity.
    now apply add_wikilinks_extract_words.
  - now apply add_wikilinks_extract_words.
Qed.

Lemma ends_open_cons (d : ascii) (a : text) :
  ends_open a = true -> ends_open (d :: a) = true.
Proof.
  intros H. apply ends_open_true in H as [p ->].
  apply ends_open_true. now exists (d :: p).
Qed.

Lemma last_char_cons_sep (d : ascii) (a : text) :
  char_isword d = false ->
  isword_opt (last_char (d :: a)) = isword_opt (last_char a).
Proof.
  intros Hd. destruct a as [|c a].
  - simpl. exact Hd.
  - change (d :: c :: a) with ([d] ++ c :: a).
    now rewrite last_char_app by discriminate.
Qed.

Lemma all_guarded_shift (w : text) (d : ascii) (x : text) :
  is_word_term w = true -> char_isword d = false ->
  all_guarded w [] x -> all_guarded w [d] x.
Proof.
  intros Hw Hd H a b Hx Hm.
  specialize (H a b Hx). cbn [app] in *.
  rewrite guarded_unfold.
  assert (Hm' : match_word_pattern w a b = true).
  { rewrite match_word_pattern_word in * by assumption.
    now rewrite last_char_cons_sep in Hm. }
  specialize (H Hm'). rewrite guarded_unfold in H.
  apply orb_true_iff in H as [H|H].
  - now rewrite ends_open_cons.
  - rewrite H. apply orb_true_r.
Qed.

Lemma all_guarded_after_sep (w : text) (d : ascii) (x : text) :
  is_word_term w = true -> char_isword d = false ->
  all_guarded w [] x -> all_guarded w [] (d :: x).
Proof.
  intros Hw Hd H. apply all_guarded_sep; try assumption.
  cbn [app]. now apply all_guarded_shift.
Qed.

Lemma settled_after_sep (words : list text) (d : ascii) (y : text) :
  forallb is_word_term words = true -> char_isword d = false ->
  settled words y -> settled words (d :: y).
Proof.
  intros Hws Hd Hy. unfold settled in *.
  assert (Hterm : forall w, In w words -> is_word_term w = true).
  { intros w Hw. rewrite forallb_forall in Hws. now apply Hws. }
  destruct (settled_after_inv words [] y Hy) as [H | (x & c & r & -> & H & Hc & Hn & Hr)].
  - apply settled_plain. intros w Hw. cbn [app] in *.
    apply all_guarded_after_sep; auto.
  - change (d :: x ++ txt "[[" ++ c ++ txt "]]" ++ r)
      with ((d :: x) ++ txt "[[" ++ c ++ txt "]]" ++ r).
    apply settled_marker; try assumption.
    intros w Hw. cbn [app] in *. apply all_guarded_after_sep; auto.
Qed.

Lemma process_markdown_file_fixed (g : md_file) (words : list text) (c : text) :
  read_text g = ReadOk c ->
  add_wikilinks_to_text (snd (split_frontmatter c)) words
  = snd (split_frontmatter c) ->
  process_markdown_file g words = (false, g).
Proof.
  intros Hr Hfix. rewrite process_markdown_file_result, Hr. cbv zeta.
  now rewrite Hfix, text_eqb_refl.
Qed.

Lemma process_markdown_file_twice (f : md_file) (words : list text) :
  forallb is_word_term words = true ->
  writable f ->
  process_markdown_file (snd (process_markdown_file f words)) words
  = (false, snd (process_markdown_file f words)).
Proof.
  intros Hws Hw.
  assert (Hne : forall w, In w words -> w <> [])
    by now apply forallb_word_term_nonempty.
  rewrite (process_markdown_file_result f).
  destruct (read_text f) as [content|e] eqn:Er.
  - cbv zeta.
    destruct (text_eqb _ _) eqn:Eb; cbn [snd].
    + apply text_eqb_true in Eb.
      now apply (process_markdown_file_fixed f words content).
    + unfold write_and_report, write_text. rewrite Hw. cbn [snd].
      eapply process_markdown_file_fixed; [reflexivity|].
      pose proof (split_frontmatter_written content words) as Hs. cbv zeta in Hs.
      destruct (fst (split_frontmatter content)) as [fm|]; rewrite Hs; cbn [snd].
      * apply add_wikilinks_settled; [exact Hne|].
        apply settled_after_sep; [exact Hws | reflexivity|].
        now apply add_wikilinks_is_settled.
      * apply add_wikilinks_settled; [exact Hne|].
        now apply add_wikilinks_is_settled.
  - cbn [snd]. rewrite process_markdown_file_result, Er. reflexivity.
Qed.

(** X11.  Texts and terms are over the code points U+0000..U+00FF, the
    terms non-empty strings of word characters, and the writes to the file
    go through.  Then [process_markdown_file] does nothing to a file it has
    processed: the second call returns [False] and leaves the file as the
    first call left it; and the words the file contributes to the count
    are the same before and after the first call. *)
Theorem process_markdown_file_second_run (f : md_file) (words_to_link : list text) :
  forallb is_word_term words_to_link = true ->
  writable f ->
  let f' := snd (process_markdown_file f words_to_link) in
  process_markdown_file f' words_to_link = (false, f')
  /\ match read_text f, read_text f' with
     | ReadOk content, ReadOk content' =>
         extract_words (extract_body_text content')
         = extract_words (extract_body_text content)
     | ReadError e, ReadError e' => e' = e
     | _, _ => False
     end.
Proof.
  intros Hws Hw f'. split; [now apply process_markdown_file_twice|].
  pose proof (words_of_processed f words_to_link Hws Hw) as Hwo.
  fold f' in Hwo. unfold words_of in Hwo.
  pose proof (process_markdown_file_result f words_to_link) as Hr.
  subst f'.
  destruct (read_text f) as [content|e] eqn:Er.
  - cbv zeta in Hr. destruct (text_eqb _ _).
    + rewrite Hr in *. cbn [snd] in *. rewrite Er in *. exact Hwo.
    + unfold write_and_report, write_text in Hr. rewrite Hw in Hr.
      rewrite Hr in *. cbn [snd read_text] in *. exact Hwo.
  - rewrite Hr. cbn [snd]. now rewrite Er.
Qed.

Lemma process_markdown_file_second_run_witness :
  let f := MdFile (txt "a.md") (ReadOk sample_note) always_writable in
  forallb is_word_term [txt "casa"] = true
  /\ writable f
  /\ process_markdown_file (snd (process_markdown_file f [txt "casa"])) [txt "casa"]
     = (false, snd (process_markdown_file f [txt "casa"])).
Proof.
  split; [reflexivity|]. split; [intros s; reflexivity|].
  apply (process_markdown_file_second_run
           (MdFile (txt "a.md") (ReadOk sample_note) always_writable) [txt "casa"]).
  - reflexivity.
  - intros s. reflexivity.
Defined.

Lemma find_frequent_words_processed (fs : list md_file) (words : list text) :
  forallb is_word_term words = true ->
  Forall writable fs ->
  find_frequent_words (map (fun g => snd (process_markdown_file g words)) fs)
  = find_frequent_words fs.
Proof.
  intros Hws Hw. unfold find_frequent_words.
  rewrite !all_words_flat_map. do 2 f_equal.
  induction Hw as [|f fs Hf Hfs IH]; [reflexivity|].
  cbn [map flat_map]. now rewrite IH, words_of_processed.
Qed.

Lemma filter_none {A : Type} (p : A -> bool) (l : list A) :
  (forall x, In x l -> p x = false) -> filter p l = [].
Proof.
  induction l as [|x l IH]; intros H; [reflexivity|].
  simpl. rewrite (H x) by now left. apply IH. intros y Hy. apply H. now right.
Qed.

Lemma filter_all {A : Type} (p : A -> bool) (l : list A) :
  (forall x, In x l -> p x = true) -> filter p l = l.
Proof.
  induction l as [|x l IH]; intros H; [reflexivity|].
  simpl. rewrite (H x) by now left. f_equal. apply IH. intros y Hy. apply H. now right.
Qed.

(** X12.  Texts are over the code points U+0000..U+00FF and the writes to
    the files go through.  Then a second run of [main] changes nothing: on
    the folder a first run has left it finds the same frequent words,
    counts no file as modified, and leaves every file as it is; and a run
    that stopped early stops in the same way. *)
Theorem main_second_run (markdown_files : list md_file) :
  Forall writable markdown_files ->
  match main (Some markdown_files) with
  | (Summary s, after) =>
      exists s',
        main after = (Summary s', after)
        /\ top_words s' = top_words s
        /\ modified_files s' = 0
        /\ unchanged_files s' = total_files s
  | (stop, after) => main after = (stop, after)
  end.
Proof.
  intros Hwr.
  destruct markdown_files as [|f fs]; try reflexivity.
  destruct (find_frequent_words (f :: fs)) as [|wc wcs] eqn:E.
  - unfold main. rewrite E. cbv iota beta. rewrite E. reflexivity.
  - rewrite (main_run f fs wc wcs E). cbv zeta.
    pose proof (frequent_words_word_terms (f :: fs)) as Hws. rewrite E in Hws.
    set (words := map fst (wc :: wcs)) in *.
    set (P := fun g => snd (process_markdown_file g words)).
    assert (E' : find_frequent_words (map P (f :: fs)) = wc :: wcs).
    { unfold P. rewrite find_frequent_words_processed by assumption. exact E. }
    assert (Hfix : forall g, In g (map P (f :: fs)) ->
                             process_markdown_file g words = (false, g)).
    { intros g Hg. apply in_map_iff in Hg as (g0 & <- & Hg0).
      unfold P. apply process_markdown_file_twice; [exact Hws|].
      rewrite Forall_forall in Hwr. now apply Hwr. }
    change (map P (f :: fs)) with (P f :: map P fs) in *.
    assert (Hmap : map (fun g => snd (process_markdown_file g words))
                       (P f :: map P fs) = P f :: map P fs).
    { rewrite <- (map_id (P f :: map P fs)) at 2.
      apply map_ext_in. intros g Hg. now rewrite (Hfix g Hg). }
    rewrite (main_run (P f) (map P fs) wc wcs E'). cbv zeta. fold words.
    rewrite Hmap.
    eexists. split; [reflexivity|]. split; [reflexivity|]. split.
    + cbn [modified_files]. rewrite filter_none; [reflexivity|].
      intros g Hg. now rewrite (Hfix g Hg).
    + cbn [unchanged_files total_files]. rewrite filter_all.
      * cbn [length]. now rewrite length_map.
      * intros g Hg. now rewrite (Hfix g Hg).
Qed.

Lemma main_second_run_witness :
  Forall writable sample_dir
  /\ exists s',
       main (snd (main (Some sample_dir))) = (Summary s', snd (main (Some sample_dir)))
       /\ top_words s' = [(txt "casa", 3)]
       /\ modified_files s' = 0
       /\ unchanged_files s' = 3.
Proof.
  assert (Hw : Forall writable sample_dir)
    by (repeat constructor; intros s; reflexivity).
  split; [exact Hw|].
  exact (main_second_run sample_dir Hw).
Defined.

(** ** [normalize_word] *)

Lemma lstrip_split (y : text) : exists p, y = p ++ lstrip y.
Proof.
  induction y as [|c y [p IH]]; [now exists []|]. cbn [lstrip].
  destruct (char_isspace c); [|now exists []].
  exists (c :: p). cbn [app]. now rewrite <- IH.
Qed.

Lemma lstrip_hd (y : text) :
  match lstrip y with
  | [] => True
  | c :: _ => char_isspace c = false
  end.
Proof.
  induction y as [|c y IH]; [exact I|]. cbn [lstrip].
  destruct (char_isspace c) eqn:E; [exact IH | exact E].
Qed.

Lemma lstrip_fixed (y : text) :
  match y with [] => True | c :: _ => char_isspace c = false end ->
  lstrip y = y.
Proof. destruct y as [|c y]; [reflexivity|]. cbn [lstrip]. now intros ->. Qed.

Lemma drop_nonword_split (y : text) : exists p, y = p ++ drop_nonword y.
Proof.
  induction y as [|c y [p IH]]; [now exists []|]. cbn [drop_nonword].
  destruct (char_isword c); [now exists []|].
  exists (c :: p). cbn [app]. now rewrite <- IH.
Qed.

Lemma drop_nonword_hd (y : text) :
  drop_nonword y = [] \/ isword_opt (hd_error (drop_nonword y)) = true.
Proof.
  induction y as [|c y IH]; [now left|]. cbn [drop_nonword].
  destruct (char_isword c) eqn:E; [right; exact E | exact IH].
Qed.

(** [str.strip] cuts a block out of the text that is empty or begins with
    a character that is no white space. *)
Lemma str_strip_split (l : text) :
  exists p q, l = p ++ str_strip l ++ q
              /\ match str_strip l with
                 | [] => True
                 | c :: _ => char_isspace c = false
                 end.
Proof.
  unfold str_strip.
  destruct (lstrip_split l) as [p1 H1].
  destruct (lstrip_split (rev (lstrip l))) as [p2 H2].
  pose proof (lstrip_hd l) as Hhd.
  remember (lstrip l) as a eqn:Ha.
  remember (lstrip (rev a)) as b eqn:Hb.
  assert (Ea : a = rev b ++ rev p2).
  { rewrite <- rev_app_distr, <- H2. now rewrite rev_involutive. }
  exists p1, (rev p2). split; [now rewrite <- Ea|].
  destruct (rev b) as [|c r] eqn:Er; [exact I|].
  rewrite Ea in Hhd. exact Hhd.
Qed.

(** X13.  [normalize_word] is idempotent; its result is in lower case, is
    cut out of the lowered word in one block, and is empty or ends with a
    word character. *)
Theorem normalize_word_idempotent (word : text) :
  let n := normalize_word word in
  normalize_word n = n
  /\ str_lower n = n
  /\ (n = [] \/ isword_opt (last_char n) = true)
  /\ exists p q, str_lower word = p ++ n ++ q.
Proof.
  intros n.
  assert (En : n = rev (drop_nonword (rev (str_strip (str_lower word)))))
    by reflexivity.
  clearbody n.
  destruct (str_strip_split (str_lower word)) as (p & q & Hl & Hhd).
  remember (str_strip (str_lower word)) as s eqn:Hs.
  destruct (drop_nonword_split (rev s)) as [p3 H3].
  pose proof (drop_nonword_hd (rev s)) as Hc.
  remember (drop_nonword (rev s)) as c eqn:Ec.
  subst n.
  assert (Es : s = rev c ++ rev p3).
  { rewrite <- rev_app_distr, <- H3. now rewrite rev_involutive. }
  assert (Hlow : str_lower (rev c) = rev c).
  { apply str_lower_fixed. intros x Hx.
    assert (Hin : In x (str_lower word)).
    { rewrite Hl, Es. apply in_or_app. right. apply in_or_app. left.
      apply in_or_app. now left. }
    unfold str_lower in Hin. apply in_map_iff in Hin as (y & <- & _).
    apply char_lower_idem. }
  assert (Hlast : c = [] \/ isword_opt (last_char (rev c)) = true).
  { destruct Hc as [Hc|Hc]; [now left | right].
    unfold last_char. now rewrite rev_involutive. }
  split; [|split; [exact Hlow | split]].
  - destruct Hc as [-> | Hc]; [reflexivity|].
    unfold normalize_word. cbv zeta. rewrite Hlow.
    assert (Hstrip : str_strip (rev c) = rev c).
    { unfold str_strip. rewrite (lstrip_fixed (rev c)).
      - rewrite rev_involutive, lstrip_word by exact Hc. reflexivity.
      - destruct (rev c) as [|x r] eqn:Er; [exact I|].
        rewrite Es in Hhd. exact Hhd. }
    rewrite Hstrip. unfold re_sub_trailing_nonword.
    now rewrite rev_involutive, drop_nonword_word.
  - destruct Hlast as [-> | H]; [now left | now right].
  - exists p, (rev p3 ++ q). rewrite Hl, Es. now rewrite <- !app_assoc.
Qed.

(** ** A text without occurrences of the terms *)

Lemma word_runs_after (out : list text) (s : text) :
  close_word (read_chars (out, []) s) = out ++ word_runs s.
Proof.
  rewrite <- re_findall_words_runs. unfold re_findall_words.
  symmetry. apply findall_go_runs. reflexivity.
Qed.

Lemma word_runs_token (o post : text) :
  o <> [] -> forallb char_isword o = true ->
  isword_opt (hd_error post) = false ->
  word_runs (o ++ post) = o :: word_runs post.
Proof.
  intros Hne Ho Hp. unfold word_runs at 1.
  rewrite read_chars_token by assumption. apply (word_runs_after [o]).
Qed.

Lemma word_runs_app_sep (a : text) (d : ascii) (z : text) :
  char_isword d = false ->
  word_runs (a ++ d :: z) = word_runs a ++ word_runs (d :: z).
Proof.
  intros Hd. rewrite (word_runs_sep d z Hd). unfold word_runs at 1.
  rewrite read_chars_app, read_chars_sep by assumption.
  apply word_runs_after.
Qed.

Lemma word_runs_sep_app (x : text) (d : ascii) (t : text) :
  char_isword d = false ->
  word_runs ((x ++ [d]) ++ t) = word_runs (x ++ [d]) ++ word_runs t.
Proof.
  intros Hd. unfold word_runs at 1 2. rewrite read_chars_app.
  pose proof (read_chars_snd_sep ([], []) x d Hd) as Hs.
  destruct (read_chars ([], []) (x ++ [d])) as [out cur]. cbn [snd] in Hs.
  subst cur. rewrite close_word_nil. apply word_runs_after.
Qed.

Lemma sub_go_no_token (w : text) :
  is_word_term w = true ->
  forall rest pre,
    (forall o, In o (word_runs rest) -> ci_equal w o = false) ->
    sub_go w pre rest = rest.
Proof.
  intros Hw rest. pattern rest. apply token_ind; clear rest.
  - intros pre _. now apply sub_go_nil_word.
  - intros d r Hd IH pre H. rewrite sub_go_sep by assumption. f_equal.
    apply IH. intros o Ho. apply H. now rewrite word_runs_sep.
  - intros o post Hne Ho Hp IH pre H.
    rewrite word_runs_token in H by assumption.
    assert (HIH : sub_go w (pre ++ o) post = post).
    { apply IH. intros o' Ho'. apply H. now right. }
    destruct (isword_opt (last_char pre)) eqn:El.
    + rewrite sub_go_run by assumption. now rewrite HIH.
    + rewrite sub_go_token by assumption.
      rewrite (H o) by now left. cbn [andb]. now rewrite HIH.
Qed.

Lemma annotate_part_no_token (words : list text) (part : text) :
  forallb is_word_term words = true ->
  (forall w o, In w words -> In o (word_runs part) -> ci_equal w o = false) ->
  annotate_part words part = part.
Proof.
  intros Hws H. unfold annotate_part. destruct (match_wikilink part); [reflexivity|].
  assert (Hs : forall w, In w (sort_desc (@length ascii) words) ->
                         is_word_term w = true
                         /\ forall o, In o (word_runs part) -> ci_equal w o = false).
  { intros w Hw. apply sort_desc_In in Hw. split.
    - rewrite forallb_forall in Hws. now apply Hws.
    - intros o Ho. now apply H. }
  induction (sort_desc (@length ascii) words) as [|w ws IH]; [reflexivity|].
  cbn [fold_left]. unfold re_sub_word at 2.
  destruct (Hs w (or_introl eq_refl)) as [Hw Hno].
  rewrite sub_go_no_token by assumption.
  apply IH. intros w' Hw'. apply Hs. now right.
Qed.

Lemma annotate_split_no_token (words : list text) :
  forallb is_word_term words = true ->
  forall n y acc, length y <= n ->
    (forall w o, In w words -> In o (word_runs (rev acc ++ y)) ->
                 ci_equal w o = false) ->
    concat (map (annotate_part words) (split_go acc y)) = rev acc ++ y.
Proof.
  intros Hws. induction n as [|n IH]; intros y acc Hl H.
  - destruct y; [|simpl in Hl; lia]. rewrite split_go_nil. cbn [map concat].
    rewrite !app_nil_r in *. now apply annotate_part_no_token.
  - destruct y as [|c0 y'].
    { apply (IH [] acc); [simpl; lia | exact H]. }
    destruct (match_wikilink (c0 :: y')) as [L|] eqn:E.
    + rewrite (split_go_Some acc _ L E).
      pose proof (match_wikilink_bounds _ _ E) as HL.
      destruct (match_wikilink_split _ _ E) as (c' & Hf & Hc' & Hn' & _).
      cbn [map concat].
      assert (Hm : annotate_part words (firstn L (c0 :: y')) = firstn L (c0 :: y')).
      { unfold annotate_part. rewrite Hf.
        rewrite <- (app_nil_r (txt "[[" ++ c' ++ txt "]]")), <- !app_assoc.
        now rewrite match_wikilink_marker. }
      rewrite Hm. rewrite <- (firstn_skipn L (c0 :: y')) in H.
      rewrite <- (firstn_skipn L (c0 :: y')) at 3.
      assert (Hi : exists M1, firstn L (c0 :: y') = "["%char :: M1)
        by (rewrite Hf; eexists; reflexivity).
      assert (Hii : exists M2, firstn L (c0 :: y') = M2 ++ ["]"%char]).
      { rewrite Hf. exists (txt "[[" ++ c' ++ ["]"%char]).
        rewrite <- !app_assoc. reflexivity. }
      remember (firstn L (c0 :: y')) as M eqn:HM.
      remember (skipn L (c0 :: y')) as rest eqn:Hrest.
      assert (Hruns : word_runs (rev acc ++ M ++ rest)
                      = word_runs (rev acc) ++ word_runs M ++ word_runs rest).
      { destruct Hi as [M1 Hi]. destruct Hii as [M2 Hii].
        rewrite Hi at 1. cbn [app].
        rewrite word_runs_app_sep by apply lbracket_not_word.
        f_equal. change ("["%char :: M1 ++ rest) with (("["%char :: M1) ++ rest).
        rewrite <- Hi, Hii. apply word_runs_sep_app, rbracket_not_word. }
      rewrite Hruns in H.
      rewrite annotate_part_no_token; [|exact Hws|].
      * do 2 f_equal. apply (IH rest []).
        -- subst rest. rewrite length_skipn. cbn [length] in *. lia.
        -- intros w o Hw Ho. apply (H w o Hw). cbn [rev app] in Ho.
           apply in_or_app. right. apply in_or_app. now right.
      * intros w o Hw Ho. apply (H w o Hw). apply in_or_app. now left.
    + rewrite (split_go_None acc c0 y' E).
      rewrite (IH y' (c0 :: acc)); [| simpl in Hl; lia |].
      * cbn [rev]. now rewrite <- app_assoc.
      * cbn [rev]. rewrite <- app_assoc. exact H.
Qed.

(** X14.  For texts and terms over the code points U+0000..U+00FF.  With
    terms that are non-empty strings of word characters, a text none of
    whose words equals a term when case is ignored goes through the
    annotator unchanged, whatever markers and brackets it holds; a word
    that merely contains a term does not count. *)
Theorem add_wikilinks_without_occurrence (s : text) (words_to_link : list text) :
  forallb is_word_term words_to_link = true ->
  forallb (fun o => negb (existsb (fun w => ci_equal w o) words_to_link))
          (re_findall_words s) = true ->
  add_wikilinks_to_text s words_to_link = s.
Proof.
  intros Hws Hno.
  apply (annotate_split_no_token words_to_link Hws (length s) s []); [lia|].
  intros w o Hw Ho. cbn [rev app] in Ho. rewrite <- re_findall_words_runs in Ho.
  rewrite forallb_forall in Hno. specialize (Hno o Ho).
  apply negb_true_iff in Hno.
  destruct (ci_equal w o) eqn:E; [|reflexivity].
  assert (existsb (fun w0 => ci_equal w0 o) words_to_link = true)
    by (apply existsb_exists; now exists w).
  congruence.
Qed.

Lemma add_wikilinks_without_occurrence_witness :
  forallb is_word_term [txt "casa"; txt "red"] = true
  /\ forallb (fun o => negb (existsb (fun w => ci_equal w o) [txt "casa"; txt "red"]))
             (re_findall_words (txt "Las casas [[de Redes]] y [x] redes."))
     = true
  /\ add_wikilinks_to_text (txt "Las casas [[de Redes]] y [x] redes.")
                           [txt "casa"; txt "red"]
     = txt "Las casas [[de Redes]] y [x] redes.".
Proof.
  split; [reflexivity|]. split; [reflexivity|].
  apply (add_wikilinks_without_occurrence
           (txt "Las casas [[de Redes]] y [x] redes.") [txt "casa"; txt "red"]);
    reflexivity.
Defined.

(** ** Runs of brackets *)

Lemma run_after_app (c : ascii) (k : nat) (a b : text) :
  run_after c k (a ++ b) = run_after c (run_after c k a) b.
Proof. apply fold_left_app. Qed.

Lemma run_after_cons (c : ascii) (k : nat) (x : ascii) (a : text) :
  run_after c k (x :: a) = run_after c (if ascii_eqb x c then S k else 0) a.
Proof. reflexivity. Qed.

Lemma run_after_snoc (c : ascii) (k : nat) (a : text) (x : ascii) :
  run_after c k (a ++ [x]) = if ascii_eqb x c then S (run_after c k a) else 0.
Proof. rewrite run_after_app. reflexivity. Qed.

Lemma last_char_inv (a : text) (x : ascii) :
  last_char a = Some x -> exists a0, a = a0 ++ [x].
Proof.
  unfold last_char. destruct (rev a) as [|y l] eqn:E; [discriminate|].
  simpl. intros H. injection H as ->. exists (rev l).
  rewrite <- (rev_involutive a), E. reflexivity.
Qed.

Lemma run_after_last (k : nat) (a : text) (x : ascii) :
  last_char a = Some x -> x <> "["%char -> run_after "[" k a = 0.
Proof.
  intros H Hx. apply last_char_inv in H as [a0 ->].
  rewrite run_after_snoc. apply ascii_eqb_false in Hx. now rewrite Hx.
Qed.

Lemma run_after_word (k : nat) (o : text) :
  o <> [] -> forallb char_isword o = true -> run_after "[" k o = 0.
Proof.
  intros Hne Ho. pose proof (last_char_word [] o Hne Ho) as H. cbn [app] in H.
  destruct (last_char o) as [x|] eqn:E; [|discriminate].
  apply (run_after_last k o x E). simpl in H. now apply word_not_lbracket.
Qed.

Lemma run_after_wrap (k : nat) (o : text) :
  run_after "[" k (txt "[[" ++ o ++ txt "]]") = 0.
Proof.
  apply (run_after_last k _ "]"%char); [apply last_char_marker_alone | discriminate].
Qed.

Lemma run_after_pos (a : text) (k : nat) :
  1 <= run_after "[" k a ->
  (a = [] /\ 1 <= k)
  \/ exists a0, a = a0 ++ ["["%char]
                /\ run_after "[" k a = S (run_after "[" k a0).
Proof.
  induction a as [|x a0 _] using rev_ind; intros H; [now left|right].
  rewrite run_after_snoc in *. destruct (ascii_eqb x "[") eqn:E; [|lia].
  apply ascii_eqb_true in E. subst x. now exists a0.
Qed.

Lemma ends_open_run (a : text) : ends_open a = true <-> 2 <= open_run a.
Proof.
  unfold open_run. split.
  - intros H. apply ends_open_true in H as [p ->].
    rewrite run_after_app. cbn. lia.
  - intros H. destruct (run_after_pos a 0) as [[_ H0] | (a0 & -> & E)]; [lia | lia |].
    rewrite E in H.
    destruct (run_after_pos a0 0) as [[_ H0] | (a1 & -> & _)]; [lia | lia |].
    apply ends_open_true. exists a1. now rewrite <- app_assoc.
Qed.

Lemma close_run_app0 (y t : text) :
  close_run t = 0 -> close_run (y ++ t) = close_run y.
Proof.
  intros H. induction y as [|c y IH]; [exact H|]. cbn [app close_run].
  now rewrite IH.
Qed.

Lemma close_run_app_eq (u t t' : text) :
  close_run t' = close_run t -> close_run (u ++ t') = close_run (u ++ t).
Proof.
  intros H. induction u as [|c u IH]; [exact H|]. cbn [app close_run].
  now rewrite IH.
Qed.

Lemma close_run_word (o t : text) :
  o <> [] -> forallb char_isword o = true -> close_run (o ++ t) = 0.
Proof.
  destruct o as [|c o]; [congruence|]. intros _ H. simpl in H.
  apply andb_true_iff in H as [Hc _]. cbn [app close_run].
  destruct (ascii_eqb c "]") eqn:E; [|reflexivity].
  apply ascii_eqb_true in E. subst c. rewrite rbracket_not_word in Hc. discriminate.
Qed.

Lemma starts_close_run (t : text) : starts_close t = true <-> 2 <= close_run t.
Proof.
  split.
  - intros H. apply starts_close_true in H as [q ->]. cbn. lia.
  - intros H. apply starts_close_true.
    destruct t as [|c [|c' t]]; cbn [close_run] in H.
    + lia.
    + destruct (ascii_eqb c "]"); lia.
    + destruct (ascii_eqb c "]") eqn:E; [|lia].
      destruct (ascii_eqb c' "]") eqn:E'; [|lia].
      apply ascii_eqb_true in E, E'. subst. now exists t.
Qed.

(** ** What a substitution does to the runs of brackets *)

Lemma sub_go_run_after (w : text) :
  is_word_term w = true ->
  forall rest pre k,
    run_after "[" k (sub_go w pre rest) = run_after "[" k rest.
Proof.
  intros Hw rest. pattern rest. apply token_ind; clear rest.
  - intros pre k. now rewrite sub_go_nil_word.
  - intros d r Hd IH pre k. rewrite sub_go_sep by assumption.
    rewrite !run_after_cons. apply IH.
  - intros o post Hne Ho Hp IH pre k.
    rewrite (run_after_app _ k o), (run_after_word k o) by assumption.
    destruct (isword_opt (last_char pre)) eqn:El.
    + rewrite sub_go_run by assumption.
      rewrite run_after_app, (run_after_word k o) by assumption. apply IH.
    + rewrite sub_go_token by assumption.
      destruct (ci_equal w o && negb (guarded pre post)).
      * rewrite run_after_app, run_after_wrap. apply IH.
      * rewrite run_after_app, (run_after_word k o) by assumption. apply IH.
Qed.

Lemma sub_go_close_run (w : text) :
  is_word_term w = true ->
  forall rest pre, close_run (sub_go w pre rest) = close_run rest.
Proof.
  intros Hw rest. pattern rest. apply token_ind; clear rest.
  - intros pre. now rewrite sub_go_nil_word.
  - intros d r Hd IH pre. rewrite sub_go_sep by assumption.
    cbn [close_run]. now rewrite IH.
  - intros o post Hne Ho Hp IH pre.
    rewrite (close_run_word o post) by assumption.
    destruct (isword_opt (last_char pre)) eqn:El.
    + rewrite sub_go_run by assumption. now apply close_run_word.
    + rewrite sub_go_token by assumption.
      destruct (ci_equal w o && negb (guarded pre post)).
      * reflexivity.
      * now apply close_run_word.
Qed.

Lemma annotate_part_run_after (words : list text) (part : text) (k : nat) :
  forallb is_word_term words = true ->
  run_after "[" k (annotate_part words part) = run_after "[" k part.
Proof.
  intros Hws. unfold annotate_part. destruct (match_wikilink part); [reflexivity|].
  apply (forallb_sort_desc (@length ascii)) in Hws.
  revert part. induction (sort_desc (@length ascii) words) as [|w ws IH];
    intros part; [reflexivity|].
  simpl in Hws. apply andb_true_iff in Hws as [Hw Hws].
  cbn [fold_left]. rewrite IH by assumption.
  unfold re_sub_word. now apply sub_go_run_after.
Qed.

Lemma annotate_part_close_run (words : list text) (part : text) :
  forallb is_word_term words = true ->
  close_run (annotate_part words part) = close_run part.
Proof.
  intros Hws. unfold annotate_part. destruct (match_wikilink part); [reflexivity|].
  apply (forallb_sort_desc (@length ascii)) in Hws.
  revert part. induction (sort_desc (@length ascii) words) as [|w ws IH];
    intros part; [reflexivity|].
  simpl in Hws. apply andb_true_iff in Hws as [Hw Hws].
  cbn [fold_left]. rewrite IH by assumption.
  unfold re_sub_word. now apply sub_go_close_run.
Qed.

(** ** A guarded word through the substitutions *)

Lemma inserts_nil_inv (x : text) : inserts_brackets x [] -> x = [].
Proof. intros H. apply inserts_length in H. destruct x; [reflexivity | simpl in H; lia]. Qed.

Lemma last_char_cons (d : ascii) (x : text) :
  x <> [] -> last_char (d :: x) = last_char x.
Proof. intros H. change (d :: x) with ([d] ++ x). now apply last_char_app. Qed.

(** The substitution over a text that ends with a separator, in front of
    any text [r]: what it makes of the first text, and how it goes on. *)
Lemma sub_go_prefix (w r : text) :
  is_word_term w = true ->
  forall x pre,
    isword_opt (last_char x) = false ->
    exists X,
      sub_go w pre (x ++ r) = X ++ sub_go w (pre ++ x) r
      /\ inserts_brackets x X
      /\ (forall k, run_after "[" k X = run_after "[" k x)
      /\ isword_opt (last_char X) = false.
Proof.
  intros Hw x. pattern x. apply token_ind; clear x.
  - intros pre _. exists []. rewrite app_nil_r. repeat split. constructor.
  - intros d x1 Hd IH pre Hl.
    assert (Hl1 : isword_opt (last_char x1) = false).
    { destruct x1 as [|e x1]; [reflexivity|].
      now rewrite last_char_cons in Hl by discriminate. }
    destruct (IH (pre ++ [d]) Hl1) as (X1 & E & Hi & Hk & HX).
    exists (d :: X1). cbn [app]. rewrite sub_go_sep by assumption.
    rewrite E, <- app_assoc. cbn [app]. repeat split.
    + now constructor.
    + intros k. rewrite !run_after_cons. apply Hk.
    + destruct X1 as [|e X1]; [simpl; exact Hd|].
      now rewrite last_char_cons by discriminate.
  - intros o x1 Hne Ho Hp IH pre Hl.
    assert (Hx1 : x1 <> []).
    { intros ->. rewrite app_nil_r in Hl.
      pose proof (last_char_word [] o Hne Ho) as H. cbn [app] in H. congruence. }
    assert (Hl1 : isword_opt (last_char x1) = false)
      by now rewrite last_char_app in Hl.
    destruct (IH (pre ++ o) Hl1) as (X1 & E & Hi & Hk & HX).
    assert (HX1 : X1 <> []).
    { intros ->. apply inserts_nil_inv in Hi. contradiction. }
    assert (Hp' : isword_opt (hd_error (x1 ++ r)) = false)
      by now rewrite hd_error_app_ne.
    assert (Hgoal : forall T,
               inserts_brackets o T ->
               (forall k, run_after "[" k T = 0) ->
               sub_go w pre ((o ++ x1) ++ r)
               = T ++ sub_go w (pre ++ o) (x1 ++ r) ->
               exists X,
                 sub_go w pre ((o ++ x1) ++ r) = X ++ sub_go w (pre ++ o ++ x1) r
                 /\ inserts_brackets (o ++ x1) X
                 /\ (forall k, run_after "[" k X = run_after "[" k (o ++ x1))
                 /\ isword_opt (last_char X) = false).
    { intros T HT HkT ET. exists (T ++ X1). rewrite ET, E, <- !app_assoc.
      repeat split.
      - now apply inserts_app.
      - intros k. rewrite !run_after_app, HkT, (run_after_word k o) by assumption.
        apply Hk.
      - now rewrite last_char_app. }
    destruct (isword_opt (last_char pre)) eqn:El.
    + apply (Hgoal o); [apply inserts_refl | intros k; now apply run_after_word|].
      rewrite <- app_assoc. now apply sub_go_run.
    + rewrite <- (app_assoc o x1 r) in *.
      pose proof (sub_go_token w pre o (x1 ++ r) Hw Hne Ho Hp' El) as ET.
      destruct (ci_equal w o && negb (guarded pre (x1 ++ r))).
      * apply (Hgoal (txt "[[" ++ o ++ txt "]]"));
          [apply inserts_wrap | intros k; apply run_after_wrap|].
        exact ET.
      * apply (Hgoal o); [apply inserts_refl | intros k; now apply run_after_word|].
        exact ET.
Qed.

Lemma kept_around_refl (x y : text) : kept_around x y x y.
Proof. repeat split; apply inserts_refl. Qed.

Lemma kept_around_trans (x y x1 y1 x2 y2 : text) :
  kept_around x y x1 y1 -> kept_around x1 y1 x2 y2 -> kept_around x y x2 y2.
Proof.
  intros (A1 & B1 & C1 & D1) (A2 & B2 & C2 & D2). repeat split.
  - eapply inserts_trans; eassumption.
  - eapply inserts_trans; eassumption.
  - intros k. now rewrite C2, C1.
  - now rewrite D2, D1.
Qed.

(** One substitution leaves a guarded word as it is, and guarded. *)
Lemma sub_go_keeps_guarded (w o : text) :
  is_word_term w = true ->
  o <> [] -> forallb char_isword o = true ->
  forall x y,
    isword_opt (last_char x) = false -> isword_opt (hd_error y) = false ->
    guarded x y = true ->
    exists x' y',
      sub_go w [] (x ++ o ++ y) = x' ++ o ++ y'
      /\ kept_around x y x' y'
      /\ isword_opt (last_char x') = false
      /\ isword_opt (hd_error y') = false
      /\ guarded x' y' = true.
Proof.
  intros Hw Hne Ho x y Hlx Hhy Hg.
  destruct (sub_go_prefix w (o ++ y) Hw x [] Hlx) as (X & E & Hi & Hk & HX).
  cbn [app] in E.
  pose proof (sub_go_token w x o y Hw Hne Ho Hhy Hlx) as ET.
  rewrite Hg in ET. cbn [negb] in ET. rewrite andb_false_r in ET.
  exists X, (sub_go w (x ++ o) y). split; [now rewrite E, ET|].
  split; [|split; [exact HX | split; [now apply sub_go_hd|]]].
  - repeat split; try assumption.
    + now apply (sub_go_inserts w (length y)).
    + now apply sub_go_close_run.
  - rewrite guarded_unfold in *. apply orb_true_iff in Hg as [Hg|Hg].
    + apply orb_true_iff. left. apply ends_open_run. unfold open_run.
      rewrite Hk. now apply ends_open_run.
    + apply orb_true_iff. right. now apply sub_go_starts_close.
Qed.

Lemma fold_keeps_guarded (o : text) :
  o <> [] -> forallb char_isword o = true ->
  forall ws, forallb is_word_term ws = true ->
  forall x y,
    isword_opt (last_char x) = false -> isword_opt (hd_error y) = false ->
    guarded x y = true ->
    exists x' y',
      fold_left (fun modified_part word => re_sub_word word modified_part) ws
                (x ++ o ++ y)
      = x' ++ o ++ y'
      /\ kept_around x y x' y'.
Proof.
  intros Hne Ho. induction ws as [|w ws IH]; intros Hws x y Hlx Hhy Hg.
  - exists x, y. split; [reflexivity | apply kept_around_refl].
  - simpl in Hws. apply andb_true_iff in Hws as [Hw Hws].
    destruct (sub_go_keeps_guarded w o Hw Hne Ho x y Hlx Hhy Hg)
      as (x1 & y1 & E1 & K1 & Hl1 & Hh1 & Hg1).
    destruct (IH Hws x1 y1 Hl1 Hh1 Hg1) as (x2 & y2 & E2 & K2).
    exists x2, y2. split.
    + cbn [fold_left]. unfold re_sub_word at 2. now rewrite E1.
    + eapply kept_around_trans; eassumption.
Qed.

(** A guarded word of a part is not wrapped. *)
Lemma annotate_part_keeps_guarded (words : list text) (o x y : text) :
  forallb is_word_term words = true ->
  o <> [] -> forallb char_isword o = true ->
  isword_opt (last_char x) = false -> isword_opt (hd_error y) = false ->
  guarded x y = true ->
  exists x' y',
    annotate_part words (x ++ o ++ y) = x' ++ o ++ y'
    /\ kept_around x y x' y'.
Proof.
  intros Hws Hne Ho Hlx Hhy Hg. unfold annotate_part.
  destruct (match_wikilink (x ++ o ++ y)).
  - exists x, y. split; [reflexivity | apply kept_around_refl].
  - apply fold_keeps_guarded; try assumption.
    now apply forallb_sort_desc.
Qed.

(** ** A guarded word through the annotator *)

Lemma split_go_word_run (o : text) :
  forallb char_isword o = true ->
  forall acc t, split_go acc (o ++ t) = split_go (rev o ++ acc) t.
Proof.
  induction o as [|c o IH]; intros Ho acc t; [reflexivity|].
  simpl in Ho. apply andb_true_iff in Ho as [Hc Ho]. cbn [app].
  assert (E : match_wikilink (c :: o ++ t) = None).
  { destruct (match_wikilink (c :: o ++ t)) as [n|] eqn:E; [|reflexivity].
    apply match_wikilink_hd in E. subst c.
    rewrite lbracket_not_word in Hc. discriminate. }
  rewrite (split_go_None acc c _ E), IH by assumption.
  cbn [rev]. now rewrite <- app_assoc.
Qed.

Lemma annotate_marker (words : list text) (s : text) (L : nat) :
  match_wikilink s = Some L ->
  annotate_part words (firstn L s) = firstn L s
  /\ (exists M1, firstn L s = "["%char :: M1)
  /\ last_char (firstn L s) = Some "]"%char.
Proof.
  intros E. destruct (match_wikilink_split _ _ E) as (c' & Hf & Hc' & Hn' & _).
  rewrite Hf. split; [|split].
  - now apply annotate_part_marker.
  - eexists. reflexivity.
  - apply last_char_marker_alone.
Qed.

(** The output of the annotator from a position on: the part that is
    being read, and what follows it, which is empty or begins with a
    marker. *)
Lemma annotate_split_head (words : list text) :
  forall y acc, exists y1 y2 R,
    concat (map (annotate_part words) (split_go acc y))
    = annotate_part words (rev acc ++ y1) ++ R
    /\ y = y1 ++ y2
    /\ inserts_brackets y2 R
    /\ close_run R = 0 /\ close_run y2 = 0.
Proof.
  induction y as [|c y IH]; intros acc.
  - exists [], [], []. rewrite split_go_nil. cbn [map concat].
    rewrite !app_nil_r. repeat split. constructor.
  - destruct (match_wikilink (c :: y)) as [L|] eqn:E.
    + rewrite (split_go_Some acc _ L E). cbn [map concat].
      destruct (annotate_marker words _ L E) as (Hm & [M1 HM] & _).
      exists [], (c :: y),
        (firstn L (c :: y)
         ++ concat (map (annotate_part words) (split_go [] (skipn L (c :: y))))).
      rewrite Hm, app_nil_r. split; [reflexivity|]. split; [reflexivity|].
      split; [|split].
      * rewrite <- (firstn_skipn L (c :: y)) at 1.
        apply inserts_app; [apply inserts_refl|].
        apply (annotate_split_inserts words [] (skipn L (c :: y))).
      * rewrite HM. reflexivity.
      * apply match_wikilink_hd in E. subst c. reflexivity.
    + rewrite (split_go_None acc c y E).
      destruct (IH (c :: acc)) as (y1 & y2 & R & E1 & -> & Hi & HR & Hy2).
      exists (c :: y1), y2, R. split; [|now repeat split].
      rewrite E1. cbn [rev]. now rewrite <- app_assoc.
Qed.

Lemma annotate_split_close_run (words : list text) :
  forallb is_word_term words = true ->
  forall y acc,
    close_run (concat (map (annotate_part words) (split_go acc y)))
    = close_run (rev acc ++ y).
Proof.
  intros Hws y acc.
  destruct (annotate_split_head words y acc) as (y1 & y2 & R & E & -> & _ & HR & Hy2).
  rewrite E, (close_run_app0 _ R), annotate_part_close_run by assumption.
  now rewrite app_assoc, (close_run_app0 _ y2).
Qed.

Lemma annotate_split_keeps_guarded (words : list text) (o b : text) :
  forallb is_word_term words = true ->
  o <> [] -> forallb char_isword o = true ->
  isword_opt (hd_error b) = false ->
  forall n a acc, length a < n ->
    isword_opt (last_char (rev acc ++ a)) = false ->
    guarded (rev acc ++ a) b = true ->
    exists a' b',
      concat (map (annotate_part words) (split_go acc (a ++ o ++ b)))
      = a' ++ o ++ b'
      /\ kept_around (rev acc ++ a) b a' b'.
Proof.
  intros Hws Hne Ho Hhb. induction n as [|n IH]; intros a acc Hl Hla Hg; [lia|].
  destruct (match_wikilink (a ++ o ++ b)) as [L|] eqn:E.
  - rewrite (split_go_Some acc _ L E). cbn [map concat].
    pose proof (match_wikilink_bounds _ _ E) as HL.
    destruct (annotate_marker words _ L E) as (Hm & _ & HlM).
    rewrite Hm.
    destruct (Nat.le_gt_cases L (length a)) as [Hle|Hgt].
    + (* the marker stands before the word *)
      assert (HfM : firstn L (a ++ o ++ b) = firstn L a).
      { rewrite firstn_app. replace (L - length a) with 0 by lia.
        now rewrite firstn_O, app_nil_r. }
      assert (HsM : skipn L (a ++ o ++ b) = skipn L a ++ o ++ b).
      { rewrite skipn_app. now replace (L - length a) with 0 by lia. }
      rewrite HfM in *. rewrite HsM.
      assert (Ea : rev acc ++ a = (rev acc ++ firstn L a) ++ skipn L a)
        by now rewrite <- app_assoc, firstn_skipn.
      destruct (IH (skipn L a) []) as (a2 & b' & E2 & I1 & I2 & I3 & I4).
      * rewrite length_skipn. lia.
      * cbn [rev app]. destruct (skipn L a) as [|e t] eqn:Es; [reflexivity|].
        rewrite Ea, last_char_app in Hla by discriminate. exact Hla.
      * cbn [rev app]. rewrite guarded_unfold in *.
        apply orb_true_iff in Hg as [Hg|Hg]; apply orb_true_iff; [left|now right].
        apply (ends_open_after_close (rev acc ++ firstn L a)).
        -- now rewrite last_char_app
             by (intros H0; rewrite H0 in HlM; discriminate).
        -- now rewrite <- Ea.
      * cbn [rev app] in *.
        exists (annotate_part words (rev acc) ++ firstn L a ++ a2), b'.
        split; [rewrite E2; now rewrite <- !app_assoc|].
        repeat split.
        -- rewrite Ea, <- app_assoc.
           apply inserts_app; [apply annotate_part_inserts|].
           apply inserts_app; [apply inserts_refl | exact I1].
        -- exact I2.
        -- intros k. rewrite Ea, <- app_assoc, !run_after_app.
           now rewrite annotate_part_run_after, I3.
        -- exact I4.
    + (* the marker holds the word *)
      assert (Hlen : length a + length o <= L).
      { destruct (Nat.le_gt_cases (length a + length o) L) as [H|H]; [exact H|].
        exfalso.
        assert (HfM : firstn L (a ++ o ++ b) = a ++ firstn (L - length a) o).
        { rewrite firstn_app, firstn_all2 by lia. f_equal.
          rewrite firstn_app. replace (L - length a - length o) with 0 by lia.
          now rewrite firstn_O, app_nil_r. }
        rewrite HfM in HlM.
        assert (Hw : isword_opt (last_char (a ++ firstn (L - length a) o)) = true).
        { apply last_char_word.
          - destruct o as [|c o']; [contradiction|].
            destruct (L - length a) as [|m] eqn:Em; [lia | discriminate].
          - rewrite forallb_forall in *. intros x Hx. apply Ho.
            rewrite <- (firstn_skipn (L - length a) o). apply in_or_app. now left. }
        rewrite HlM in Hw. simpl in Hw. rewrite rbracket_not_word in Hw.
        discriminate. }
      set (m := L - (length a + length o)).
      assert (HfM : firstn L (a ++ o ++ b) = a ++ o ++ firstn m b).
      { rewrite (app_assoc a o b), firstn_app, firstn_all2
          by (rewrite length_app; lia).
        rewrite length_app. fold m. now rewrite <- app_assoc. }
      assert (HsM : skipn L (a ++ o ++ b) = skipn m b).
      { rewrite (app_assoc a o b), skipn_app, skipn_all2
          by (rewrite length_app; lia).
        rewrite length_app. fold m. reflexivity. }
      rewrite HfM, HsM.
      exists (annotate_part words (rev acc) ++ a),
             (firstn m b
              ++ concat (map (annotate_part words) (split_go [] (skipn m b)))).
      split; [now rewrite <- !app_assoc|]. repeat split.
      * apply inserts_app; [apply annotate_part_inserts | apply inserts_refl].
      * rewrite <- (firstn_skipn m b) at 1.
        apply inserts_app; [apply inserts_refl|].
        apply (annotate_split_inserts words [] (skipn m b)).
      * intros k. rewrite !run_after_app. now rewrite annotate_part_run_after.
      * rewrite <- (firstn_skipn m b) at 3. apply close_run_app_eq.
        now rewrite annotate_split_close_run.
  - destruct a as [|c0 a].
    + cbn [app]. rewrite split_go_word_run by assumption.
      rewrite app_nil_r in Hla, Hg.
      destruct (annotate_split_head words b (rev o ++ acc))
        as (y1 & y2 & R & E1 & -> & Hi & HR & Hy2).
      rewrite E1, rev_app_distr, rev_involutive, <- app_assoc.
      destruct (annotate_part_keeps_guarded words o (rev acc) y1)
        as (x' & y' & Ep & I1 & I2 & I3 & I4); try assumption.
      * destruct y1 as [|e y1]; [reflexivity | exact Hhb].
      * rewrite guarded_unfold in *.
        apply orb_true_iff in Hg as [Hg|Hg]; apply orb_true_iff; [now left|right].
        apply starts_close_run. apply starts_close_run in Hg.
        now rewrite close_run_app0 in Hg.
      * exists x', (y' ++ R). rewrite Ep, <- !app_assoc.
        split; [reflexivity|]. rewrite app_nil_r. repeat split.
        -- exact I1.
        -- now apply inserts_app.
        -- exact I3.
        -- now rewrite !close_run_app0, I4.
    + change ((c0 :: a) ++ o ++ b) with (c0 :: a ++ o ++ b) in *.
      rewrite (split_go_None acc c0 _ E).
      assert (Er : rev (c0 :: acc) ++ a = rev acc ++ c0 :: a)
        by (cbn [rev]; now rewrite <- app_assoc).
      destruct (IH a (c0 :: acc)) as (a' & b' & E1 & K).
      * simpl in Hl. lia.
      * now rewrite Er.
      * now rewrite Er.
      * exists a', b'. split; [exact E1|]. now rewrite <- Er.
Qed.

(** ** Markers of the input are kept *)

Lemma annotate_split_keeps_marker (words : list text) (c b : text) :
  c <> [] -> no_rbracket c ->
  forall n a acc, length a < n ->
  exists a' b',
    concat (map (annotate_part words)
                (split_go acc (a ++ txt "[[" ++ c ++ txt "]]" ++ b)))
    = a' ++ txt "[[" ++ c ++ txt "]]" ++ b'
    /\ inserts_brackets (rev acc ++ a) a'
    /\ inserts_brackets b b'
    /\ (forallb is_word_term words = true ->
        (forall k, run_after "[" k a' = run_after "[" k (rev acc ++ a))
        /\ close_run b' = close_run b).
Proof.
  intros Hc Hn. induction n as [|n IH]; intros a acc Hl; [lia|].
  destruct (match_wikilink (a ++ txt "[[" ++ c ++ txt "]]" ++ b)) as [L|] eqn:E.
  - rewrite (split_go_Some acc _ L E). cbn [map concat].
    pose proof (match_wikilink_bounds _ _ E) as HL.
    destruct (annotate_marker words _ L E) as (Hm & _ & _). rewrite Hm.
    destruct (Nat.le_gt_cases L (length a)) as [Hle|Hgt].
    + rewrite skipn_app, firstn_app. replace (L - length a) with 0 by lia.
      cbn [skipn]. rewrite firstn_O, app_nil_r.
      destruct (IH (skipn L a) []) as (a' & b' & E1 & I1 & I2 & I3);
        [rewrite length_skipn; lia|].
      cbn [rev app] in *.
      assert (Ea : rev acc ++ a = rev acc ++ firstn L a ++ skipn L a)
        by now rewrite firstn_skipn.
      exists (annotate_part words (rev acc) ++ firstn L a ++ a'), b'.
      split; [rewrite E1; now rewrite <- !app_assoc|].
      split; [|split; [exact I2|]].
      * rewrite Ea. apply inserts_app; [apply annotate_part_inserts|].
        apply inserts_app; [apply inserts_refl | exact I1].
      * intros Hws. destruct (I3 Hws) as [I4 I5]. split; [|exact I5].
        intros k. rewrite Ea, !run_after_app.
        now rewrite annotate_part_run_after, I4.
    + pose proof (match_wikilink_straddle a c b L Hc Hn E Hgt) as ->.
      assert (Hcut : a ++ txt "[[" ++ c ++ txt "]]" ++ b
                     = (a ++ txt "[[" ++ c ++ txt "]]") ++ b)
        by now rewrite <- !app_assoc.
      assert (Hlen : length (a ++ txt "[[" ++ c ++ txt "]]")
                     = length a + length c + 4)
        by (rewrite !length_app; simpl; lia).
      rewrite Hcut, firstn_app, skipn_app, <- Hlen.
      rewrite firstn_all, skipn_all, Nat.sub_diag.
      cbn [firstn skipn app]. rewrite app_nil_r.
      exists (annotate_part words (rev acc) ++ a),
             (concat (map (annotate_part words) (split_go [] b))).
      split; [now rewrite <- !app_assoc|].
      split; [|split].
      * apply inserts_app; [apply annotate_part_inserts | apply inserts_refl].
      * apply (annotate_split_inserts words [] b).
      * intros Hws. split.
        -- intros k. rewrite !run_after_app. now rewrite annotate_part_run_after.
        -- now rewrite annotate_split_close_run.
  - destruct a as [|c0 a].
    + cbn [app] in E. rewrite match_wikilink_marker in E by assumption.
      discriminate.
    + change ((c0 :: a) ++ txt "[[" ++ c ++ txt "]]" ++ b)
        with (c0 :: a ++ txt "[[" ++ c ++ txt "]]" ++ b) in *.
      rewrite (split_go_None acc c0 _ E).
      assert (Er : rev (c0 :: acc) ++ a = rev acc ++ c0 :: a)
        by (cbn [rev]; now rewrite <- app_assoc).
      destruct (IH a (c0 :: acc)) as (a' & b' & E1 & I1 & I2 & I3);
        [simpl in Hl; lia|].
      exists a', b'. split; [exact E1|]. rewrite <- Er.
      split; [exact I1|]. split; [exact I2 | exact I3].
Qed.

(** C2, as the code has it, for texts and terms over the code points
    U+0000..U+00FF.  When "[[" occurs in the input only as the opening of a
    marker and every term is a non-empty string of word characters, the
    output has no marker whose content contains an opening sequence.  And
    for every input and every term list, a marker of the input stands
    unchanged in the output, between what the text before it and the text
    after it have become, which are these two texts with square brackets
    inserted; with terms that are non-empty strings of word characters no
    bracket is inserted next to the marker. *)
Theorem markers_flat_and_kept (s : text) (words_to_link : list text) :
  (forallb is_word_term words_to_link = true ->
   well_formed_input s = true ->
   ~ nested_marker (add_wikilinks_to_text s words_to_link))
  /\ (forall a c b,
        s = a ++ txt "[[" ++ c ++ txt "]]" ++ b -> c <> [] -> no_rbracket c ->
        exists a' b',
          add_wikilinks_to_text s words_to_link = a' ++ txt "[[" ++ c ++ txt "]]" ++ b'
          /\ inserts_brackets a a'
          /\ inserts_brackets b b'
          /\ (forallb is_word_term words_to_link = true ->
              open_run a' = open_run a /\ close_run b' = close_run b)).
Proof.
  split.
  - intros Hws Hs. apply flat_not_nested. now apply add_wikilinks_flat.
  - intros a c b -> Hc Hn. unfold add_wikilinks_to_text, re_split_wikilink.
    destruct (annotate_split_keeps_marker words_to_link c b Hc Hn (S (length a)) a [])
      as (a' & b' & E & I1 & I2 & I3); [lia|].
    exists a', b'. split; [exact E|]. split; [exact I1|]. split; [exact I2|].
    intros Hws. destruct (I3 Hws) as [I4 I5]. split; [apply I4 | exact I5].
Qed.

Lemma markers_flat_and_kept_witness :
  forallb is_word_term [txt "casa"] = true
  /\ well_formed_input (txt "La casa [[red casa]] y [casa") = true
  /\ ~ nested_marker
       (add_wikilinks_to_text (txt "La casa [[red casa]] y [casa") [txt "casa"])
  /\ exists a' b',
       add_wikilinks_to_text (txt "La casa [[red casa]] y [casa") [txt "casa"]
       = a' ++ txt "[[" ++ txt "red casa" ++ txt "]]" ++ b'
       /\ inserts_brackets (txt "La casa ") a'
       /\ inserts_brackets (txt " y [casa") b'
       /\ (forallb is_word_term [txt "casa"] = true ->
           open_run a' = open_run (txt "La casa ")
           /\ close_run b' = close_run (txt " y [casa")).
Proof.
  destruct (markers_flat_and_kept (txt "La casa [[red casa]] y [casa") [txt "casa"])
    as [H1 H2].
  split; [reflexivity|]. split; [reflexivity|]. split.
  - apply H1; reflexivity.
  - apply (H2 (txt "La casa ") (txt "red casa") (txt " y [casa"));
      [reflexivity | discriminate | reflexivity].
Defined.

(** ** The lookaround guard over the whole text *)

Lemma match_literal_ci_word (w o : text) :
  length w = length o -> forallb char_isword w = true ->
  match_literal_ci w o = true -> forallb char_isword o = true.
Proof.
  revert o. induction w as [|x w IH]; intros [|y o] Hl Hw Hm;
    try discriminate; [reflexivity|].
  simpl in *. apply andb_true_iff in Hw as [Hx Hw].
  apply andb_true_iff in Hm as [Hxy Hm].
  apply char_ci_eqb_word in Hxy. rewrite Hxy, Hx. cbn [andb].
  apply IH; [lia | assumption | assumption].
Qed.

(** C10.  The terms are non-empty strings of word characters, as the
    terms of the analyzer are.  Where the pattern of a term matches in the
    text (a whole-word occurrence [o] of the term, between [a] and [b]) and
    the two characters before the match contain "[[" or the two after it
    contain "]]", the annotator does not wrap the occurrence, whether it
    stands in a marker or not: the output is [a' ++ o ++ b'], where [a']
    and [b'] are [a] and [b] with square brackets inserted, [a'] ends with
    as many opening brackets as [a], and [b'] begins with as many closing
    brackets as [b]. *)
Theorem guarded_occurrence_left_unwrapped
  (s a o b w : text) (words_to_link : list text) :
  forallb is_word_term words_to_link = true ->
  In w words_to_link ->
  s = a ++ o ++ b ->
  length o = length w ->
  match_word_pattern w a (o ++ b) = true ->
  guarded a b = true ->
  exists a' b',
    add_wikilinks_to_text s words_to_link = a' ++ o ++ b'
    /\ inserts_brackets a a'
    /\ inserts_brackets b b'
    /\ open_run a' = open_run a
    /\ close_run b' = close_run b.
Proof.
  intros Hws Hin -> Hlen Hm Hg.
  assert (Hw : is_word_term w = true)
    by (rewrite forallb_forall in Hws; now apply Hws).
  rewrite match_word_pattern_word in Hm by assumption.
  apply andb_true_iff in Hm as [Hm Hb]. apply andb_true_iff in Hm as [Ha Hm].
  apply negb_true_iff in Ha, Hb.
  rewrite <- Hlen, skipn_app, skipn_all, Nat.sub_diag in Hb. cbn [skipn app] in Hb.
  rewrite match_literal_ci_app in Hm by lia.
  apply is_word_term_true in Hw as [Hne Hww].
  assert (Ho : forallb char_isword o = true)
    by (apply (match_literal_ci_word w o); auto).
  assert (Hno : o <> []).
  { intros ->. destruct w; [congruence | discriminate]. }
  unfold add_wikilinks_to_text, re_split_wikilink.
  destruct (annotate_split_keeps_guarded words_to_link o b Hws Hno Ho Hb
              (S (length a)) a []) as (a' & b' & E & I1 & I2 & I3 & I4);
    [lia | exact Ha | exact Hg |].
  exists a', b'. split; [exact E|]. split; [exact I1|]. split; [exact I2|].
  split; [apply I3 | exact I4].
Qed.

Lemma guarded_occurrence_left_unwrapped_witness :
  (forallb is_word_term [txt "bar"] = true
   /\ match_word_pattern (txt "bar") [] (txt "bar" ++ txt "]]") = true
   /\ guarded [] (txt "]]") = true)
  /\ (exists a' b',
        add_wikilinks_to_text (txt "bar]]") [txt "bar"] = a' ++ txt "bar" ++ b'
        /\ inserts_brackets [] a'
        /\ inserts_brackets (txt "]]") b'
        /\ open_run a' = open_run []
        /\ close_run b' = close_run (txt "]]"))
  /\ add_wikilinks_to_text (txt "bar]]") [txt "bar"] = txt "bar]]".
Proof.
  split; [repeat split|]. split; [|reflexivity].
  apply (guarded_occurrence_left_unwrapped
           (txt "bar]]") [] (txt "bar") (txt "]]") (txt "bar") [txt "bar"]);
    try reflexivity.
  now left.
Defined.

(** With strings that are no terms the guard does not hold what it
    promises: "bar" stands after "[[" in the input, the wrapping of "x[["
    puts "]]" in between, and "bar" is wrapped. *)
Example guarded_occurrence_off_terms :
  add_wikilinks_to_text (txt "x[[bar") [txt "x[["; txt "bar"]
  = txt "[[x[[]][[bar]]".
Proof. reflexivity. Qed.

(** ** Idempotence *)


